(** * bcash consensus core: a shallow embedding and its verified properties

    The development follows the layout of the JavaScript sources:

    - [JS]         the 32-bit integer operators of the language,
    - [Consensus]  protocol/consensus.js (constants, reward schedule,
                   compact target codec),
    - [Address]    primitives/address.js (untyped string parsing),
    - [TX]         primitives/tx.js (sanity, contextual input checks,
                   legacy signature hashing),
    - [Block]      primitives/block.js (non-contextual body check),
    - [Miner]      mining/miner.js (block assembly),
    - [Difficulty] the cash difficulty adjustment exercised by
                   test/difficulty-test.js.

    Amounts, sizes and heights are JavaScript numbers holding integers
    below 2^53; they are embedded as [Z].  Buffers are lists of bytes,
    each byte a [Z] in [0, 256). *)

From Stdlib Require Import ZArith Lia Bool.
From stdpp Require Import gmap list strings.

Local Open Scope Z_scope.

(** ** JavaScript 32-bit integer operators *)

Module JS.

(** ToInt32 and ToUint32 on an integral number. *)
Definition int32 (z : Z) : Z := (z + 2 ^ 31) mod 2 ^ 32 - 2 ^ 31.
Definition uint32 (z : Z) : Z := z mod 2 ^ 32.

(** [a << b], [a >> b], [a >>> b], [a | b], [a & b]. *)
Definition shl (a b : Z) : Z := int32 (Z.shiftl (int32 a) (b mod 32)).
Definition sar (a b : Z) : Z := Z.shiftr (int32 a) (b mod 32).
Definition shr (a b : Z) : Z := Z.shiftr (uint32 a) (b mod 32).
Definition or (a b : Z) : Z := int32 (Z.lor (int32 a) (int32 b)).
Definition and (a b : Z) : Z := int32 (Z.land (int32 a) (int32 b)).

(** Outcome of a call that may throw. *)
Inductive result (A : Type) : Type :=
| Ok (a : A)
| AssertionError
| Error (msg : string).
Arguments Ok {A} a.
Arguments AssertionError {A}.
Arguments Error {A} msg.

Definition bind {A B} (r : result A) (k : A -> result B) : result B :=
  match r with
  | Ok a => k a
  | AssertionError => AssertionError
  | Error m => Error m
  end.

Definition assert (b : bool) : result unit :=
  if b then Ok tt else AssertionError.

End JS.

Notation "'do' x <- c ; k" := (JS.bind c (fun x => k))
  (at level 10, x name, c at level 100, k at level 200).
Notation "'check' b ; k" := (JS.bind (JS.assert b) (fun _ => k))
  (at level 10, b at level 100, k at level 200).

(** ** protocol/consensus.js *)

Module Consensus.

Definition COIN : Z := 100000000.
Definition MAX_MONEY : Z := 21000000 * COIN.
Definition BASE_REWARD : Z := 50 * COIN.
Definition HALF_REWARD : Z := BASE_REWARD / 2.
Definition MAX_BLOCK_SIZE : Z := 1000000.
Definition MAX_FORK_BLOCK_SIZE : Z := 32000000.
Definition MAX_TX_SIZE : Z := 1000000.
Definition MAX_BLOCK_SIGOPS_PER_MB : Z := 20000.
Definition MAX_COINBASE_SCRIPTSIG_SIZE : Z := 100.
Definition COINBASE_MATURITY : Z := 100.
Definition LOCKTIME_THRESHOLD : Z := 500000000.

(** [getReward(height, interval)]; [interval] is a positive integer,
    so [Math.floor(height / interval)] is the integer quotient. *)
Definition getReward (height interval : Z) : JS.result Z :=
  check (0 <=? height);
  let halvings := height / interval in
  if 33 <=? halvings then JS.Ok 0
  else if halvings =? 0 then JS.Ok BASE_REWARD
  else JS.Ok (JS.shr HALF_REWARD (halvings - 1)).

(** The subsidy paid at [height]; an assertion failure pays nothing. *)
Definition subsidy (interval height : Z) : Z :=
  match getReward height interval with
  | JS.Ok v => v
  | _ => 0
  end.

(** Sum of the subsidies of the heights [0 .. n-1]. *)
Fixpoint rewardSum (interval : Z) (n : nat) : Z :=
  match n with
  | O => 0
  | S k => rewardSum interval k + subsidy interval (Z.of_nat k)
  end.

(** Subsidy of era [k], the heights with [height / interval = k]. *)
Definition eraReward (k : Z) : Z :=
  if 33 <=? k then 0
  else if k =? 0 then BASE_REWARD
  else JS.shr HALF_REWARD (k - 1).

Fixpoint eraSum (n : nat) : Z :=
  match n with
  | O => 0
  | S k => eraSum k + eraReward (Z.of_nat k)
  end.

(** [BN.bitLength] and [BN.byteLength]: size of the magnitude. *)
Definition bitLength (num : Z) : Z :=
  if num =? 0 then 0 else Z.log2 (Z.abs num) + 1.
Definition byteLength (num : Z) : Z := (bitLength num + 7) / 8.

(** [BN.ushrn]: shifts the magnitude and keeps the sign. *)
Definition ushrn (num bits : Z) : Z :=
  Z.sgn num * Z.shiftr (Z.abs num) bits.

(** [fromCompact(compact)]: [compact] is a uint32, the result a [BN]. *)
Definition fromCompact (compact : Z) : Z :=
  if compact =? 0 then 0
  else
    let exponent := JS.shr compact 24 in
    let negative := JS.and (JS.shr compact 23) 1 in
    let mantissa := JS.and compact 0x7fffff in
    let num :=
      if exponent <=? 3 then JS.shr mantissa (8 * (3 - exponent))
      else Z.shiftl mantissa (8 * (exponent - 3)) in
    if negative =? 0 then num else - num.

(** [toCompact(num)]. *)
Definition toCompact (num : Z) : Z :=
  if num =? 0 then 0
  else
    let exponent := byteLength num in
    let mantissa :=
      if exponent <=? 3 then JS.shl num (8 * (3 - exponent))
      else ushrn num (8 * (exponent - 3)) in
    let '(mantissa, exponent) :=
      if JS.and mantissa 0x800000 =? 0 then (mantissa, exponent)
      else (JS.sar mantissa 8, exponent + 1) in
    let compact := JS.or (JS.shl exponent 24) mantissa in
    let compact := if num <? 0 then JS.or compact 0x800000 else compact in
    JS.shr compact 0.

(** The mantissa [toCompact] extracts from a positive number before
    it normalises bit 23 (used to state the lemmas on [toCompact]). *)
Definition rawMantissa (t : Z) : Z :=
  if byteLength t <=? 3 then Z.shiftl t (8 * (3 - byteLength t))
  else Z.shiftr t (8 * (byteLength t - 3)).

(** A target is representable when some uint32 compact decodes to it. *)
Definition representable (t : Z) : Prop :=
  exists compact, 0 <= compact < 2 ^ 32 /\ fromCompact compact = t.

(** [maxBlockSigops(size)]: [x | 0] truncates toward zero. *)
Definition maxBlockSigops (size : Z) : Z :=
  let mb := 1 + Z.quot (size - 1) 1000000 in
  mb * MAX_BLOCK_SIGOPS_PER_MB.

Definition VERSION_TOP_BITS : Z := 0x20000000.
Definition VERSION_TOP_MASK : Z := 0xe0000000.
Definition SEQUENCE_DISABLE_FLAG : Z := JS.shr (JS.shl 1 31) 0.
Definition SEQUENCE_TYPE_FLAG : Z := JS.shl 1 22.
Definition SEQUENCE_MASK : Z := 0x0000ffff.

(** [new BN(hash, 'le')]: the number a buffer holds, least significant
    byte first. *)
Fixpoint fromLE (data : list Z) : Z :=
  match data with
  | [] => 0
  | byte :: rest => byte + 256 * fromLE rest
  end.

(** [verifyPOW(hash, bits)] *)
Definition verifyPOW (hash : list Z) (bits : Z) : bool :=
  let target := fromCompact bits in
  if (target <? 0) || (target =? 0) then false
  else if 256 <? bitLength target then false
  else
    let num := fromLE hash in
    if target <? num then false
    else true.

(** [hasBit(version, bit)] *)
Definition hasBit (version bit : Z) : bool :=
  let bits := JS.shr (JS.and version VERSION_TOP_MASK) 0 in
  let mask := JS.shl 1 bit in
  (bits =? VERSION_TOP_BITS) && negb (JS.and version mask =? 0).

End Consensus.

(** ** primitives/address.js *)

Module Address.

(** A JavaScript string is a sequence of UTF-16 code units. *)
Definition jsstring := list Z.

Record address := { type : Z; hash : list Z }.

Inductive decoder := Base58 | CashAddr.

Definition isDigit (ch : Z) : bool := (0x30 <=? ch) && (ch <=? 0x39).
Definition isColon (ch : Z) : bool := ch =? 0x3a.
Definition isLower (ch : Z) : bool := (0x61 <=? ch) && (ch <=? 0x7a).
Definition isUpper (ch : Z) : bool := (0x41 <=? ch) && (ch <=? 0x5a).

(** The characters the scan of [isMixedCase] accepts. *)
Definition isAddressChar (ch : Z) : bool :=
  isDigit ch || isColon ch || isLower ch || isUpper ch.

(** The loop of [isMixedCase], from the current position on, with
    the flags [lower] and [upper] seen so far. *)
Fixpoint isMixedCase_loop (str : jsstring) (lower upper : bool)
  : JS.result bool :=
  match str with
  | [] => JS.Ok false
  | ch :: rest =>
    if isDigit ch then isMixedCase_loop rest lower upper
    else if isColon ch then isMixedCase_loop rest lower upper
    else
      do flags <-
        (if negb (JS.and ch 32 =? 0)
         then (check (isLower ch); JS.Ok (true, upper))
         else (check (isUpper ch); JS.Ok (lower, true)));
      if fst flags && snd flags then JS.Ok true
      else isMixedCase_loop rest (fst flags) (snd flags)
  end.

Definition isMixedCase (str : jsstring) : JS.result bool :=
  isMixedCase_loop str false false.

Section FromString.
(** [this.fromBase58(., network)] and [this.fromCashAddr(., network)]
    for the network at hand; their decoders live in bstring. *)
Variable fromBase58 : jsstring -> JS.result address.
Variable fromCashAddr : jsstring -> JS.result address.

(** [fromString(addr, network)], with the decoders it invoked, in
    call order.  [catch (e)] catches whatever [fromCashAddr] throws. *)
Definition fromString (addr : jsstring)
  : list decoder * JS.result address :=
  let scan :=
    check (0 <? Z.of_nat (length addr));
    check (Z.of_nat (length addr) <=? 100);
    isMixedCase addr in
  match scan with
  | JS.Ok true => ([Base58], fromBase58 addr)
  | JS.Ok false =>
    match fromCashAddr addr with
    | JS.Ok a => ([CashAddr], JS.Ok a)
    | _ => ([CashAddr; Base58], fromBase58 addr)
    end
  | JS.AssertionError => ([], JS.AssertionError)
  | JS.Error msg => ([], JS.Error msg)
  end.
End FromString.

Definition hasLower (str : jsstring) : bool := existsb isLower str.
Definition hasUpper (str : jsstring) : bool := existsb isUpper str.

(** A decoder that accepts every string, for closed examples. *)
Definition acceptAll (_ : jsstring) : JS.result address :=
  JS.Ok {| type := 0; hash := repeat 0 20 |}.

End Address.

(** ** Wire encoding (bufio)

    The writers of bufio, by the bytes they append: little-endian
    integers and the varint of the wire format. *)

Module Encoding.

Definition bytes := list Z.

(** The [n] low bytes of [v], least significant first. *)
Fixpoint le_bytes (n : nat) (v : Z) : bytes :=
  match n with
  | O => []
  | S k => (v mod 256) :: le_bytes k (v / 256)
  end.

Definition writeU8 (v : Z) : bytes := le_bytes 1 (v mod 2 ^ 8).
Definition writeU16 (v : Z) : bytes := le_bytes 2 (v mod 2 ^ 16).
Definition writeU32 (v : Z) : bytes := le_bytes 4 (v mod 2 ^ 32).
Definition writeU64 (v : Z) : bytes := le_bytes 8 (v mod 2 ^ 64).
(** Two's complement on 8 bytes. *)
Definition writeI64 (v : Z) : bytes := le_bytes 8 (v mod 2 ^ 64).

Definition sizeVarint (n : Z) : Z :=
  if n <? 0xfd then 1
  else if n <=? 0xffff then 3
  else if n <=? 0xffffffff then 5
  else 9.

Definition writeVarint (n : Z) : bytes :=
  if n <? 0xfd then writeU8 n
  else if n <=? 0xffff then 0xfd :: writeU16 n
  else if n <=? 0xffffffff then 0xfe :: writeU32 n
  else 0xff :: writeU64 n.

(** [array.length] and [buffer.length]. *)
Definition len {A} (l : list A) : Z := Z.of_nat (length l).
Definition size (b : bytes) : Z := len b.

(** Sum of [f] over a list, the closed form of a [+=] loop. *)
Fixpoint total {A} (f : A -> Z) (l : list A) : Z :=
  match l with
  | [] => 0
  | x :: rest => f x + total f rest
  end.

Definition sizeVarBytes (b : bytes) : Z := sizeVarint (size b) + size b.
Definition writeVarBytes (b : bytes) : bytes := writeVarint (size b) ++ b.

End Encoding.

(** ** primitives/address.js: the raw serialization *)

Module AddressRaw.
Import Encoding Address.
Local Open Scope string_scope.
Local Open Scope list_scope.
Local Open Scope Z_scope.

(** [Address.types] *)
Definition PUBKEYHASH : Z := 0.
Definition SCRIPTHASH : Z := 1.

(** Modelled from the spec: the address prefixes of a network
    (protocol/network.js is not among the sources): a single-byte
    prefix for each address type. *)
Record Network := { pubkeyhash : Z; scripthash : Z }.

(** [isNull()] *)
Definition isNull (a : address) : bool :=
  if len (hash a) =? 20 then bool_decide (hash a = repeat 0 20)
  else if len (hash a) =? 32 then bool_decide (hash a = repeat 0 32)
  else forallb (fun byte => byte =? 0) (hash a).

(** [fromHash(hash, type)] on a buffer and a number. *)
Definition fromHash (hash : bytes) (type : Z) : JS.result address :=
  check (JS.shr type 0 =? type);
  check ((PUBKEYHASH <=? type) && (type <=? SCRIPTHASH));
  check (len hash =? 20);
  JS.Ok {| Address.type := type; Address.hash := hash |}.

(** [getPrefix(network)] *)
Definition getPrefix (a : address) (network : Network) : Z :=
  if type a =? PUBKEYHASH then pubkeyhash network
  else if type a =? SCRIPTHASH then scripthash network
  else -1.

(** [getSize()] *)
Definition getSize (a : address) : Z := 5 + len (hash a).

(** [Address.getType(prefix, network)] *)
Definition getType (prefix : Z) (network : Network) : JS.result Z :=
  if prefix =? pubkeyhash network then JS.Ok PUBKEYHASH
  else if prefix =? scripthash network then JS.Ok SCRIPTHASH
  else JS.Error "Unknown address prefix.".

Section Raw.
(** [hash256.digest] (bcrypto). *)
Variable hash256 : bytes -> bytes.
(** [Network.fromAddress(prefix, network)] (protocol/network.js): the
    network that owns the prefix, or an exception. *)
Variable fromAddress : Z -> Network -> JS.result Network.

(** Modelled from the spec: the checksum of Base58Check, which bufio's
    [writeChecksum] appends and [verifyChecksum] compares: the first 4
    bytes of the double SHA-256 of the bytes before it. *)
Definition checksum (data : bytes) : bytes := take 4 (hash256 data).

(** [toRaw(network)] *)
Definition toRaw (a : address) (network : Network) : JS.result bytes :=
  let prefix := getPrefix a network in
  check (negb (prefix =? -1));
  let data := writeU8 prefix ++ hash a in
  JS.Ok (data ++ checksum data).

(** [fromRaw(data, network)]; [readU8] throws on an empty buffer. *)
Definition fromRaw (data : bytes) (network : Network) : JS.result address :=
  match data with
  | [] => JS.Error "EncodingError"
  | prefix :: rest =>
    do network <- fromAddress prefix network;
    do type <- getType prefix network;
    if negb (len data =? 25) then JS.Error "Address is too long."
    else
      let hash := take (Z.to_nat (len rest - 4)) rest in
      if negb (bool_decide (drop (Z.to_nat (len rest - 4)) rest
                            = checksum (prefix :: hash)))
      then JS.Error "Invalid checksum."
      else fromHash hash type
  end.
End Raw.

(** A network that owns its two prefixes only (the prefixes of the
    main network), for closed examples. *)
Definition mainPrefixes : Network := {| pubkeyhash := 0x00; scripthash := 0x05 |}.

Definition ownPrefixes (prefix : Z) (network : Network) : JS.result Network :=
  if (prefix =? pubkeyhash network) || (prefix =? scripthash network)
  then JS.Ok network
  else JS.Error "Network mismatch for base58 address.".

End AddressRaw.

(** ** primitives/outpoint.js, input.js, output.js *)

Module Outpoint.
Import Encoding.

(** Modelled from the spec: [Outpoint] (outpoint.js is not among the
    sources): a previous transaction hash and an output index. *)
Record t := { hash : bytes; index : Z }.

Definition ZERO_HASH : bytes := repeat 0 32.

(** Modelled from the spec: [Outpoint.isNull] (outpoint.js is not among
    the sources): the null outpoint is [(0...0, 0xFFFFFFFF)]. *)
Definition isNull (o : t) : bool :=
  (index o =? 0xffffffff) && bool_decide (hash o = ZERO_HASH).

(** Modelled from the spec: [Outpoint.toKey] (outpoint.js is not among
    the sources): the key of an outpoint identifies its hash and its
    index. *)
Definition toKey (o : t) : bytes * Z := (hash o, index o).

(** Modelled from the spec: [Outpoint.toWriter] (outpoint.js is not
    among the sources): the 32-byte hash then the index, 36 bytes. *)
Definition toWriter (o : t) : bytes := hash o ++ writeU32 (index o).

End Outpoint.

Module Input.
Import Encoding.

(** Modelled from the spec: [Input] (input.js and script/script.js are
    not among the sources): a prevout, a script held by its raw bytes
    and a sequence number. *)
Record t := { prevout : Outpoint.t; script : bytes; sequence : Z }.

(** Modelled from the spec: [Input.getSize] and [Input.toWriter]
    (input.js is not among the sources): the input framing is
    [outpoint(36) | varint script_len | script | sequence(4)]. *)
Definition getSize (i : t) : Z := 40 + sizeVarBytes (script i).
Definition toWriter (i : t) : bytes :=
  Outpoint.toWriter (prevout i) ++ writeVarBytes (script i)
  ++ writeU32 (sequence i).

End Input.

Module Output.
Import Encoding.

(** Modelled from the spec: [Output] (output.js is not among the
    sources): an amount and a script held by its raw bytes. *)
Record t := { value : Z; script : bytes }.

(** Modelled from the spec: [Output.getSize] and [Output.toWriter]
    (output.js is not among the sources): the output framing is
    [value(8) | varint script_len | script]. *)
Definition getSize (o : t) : Z := 8 + sizeVarBytes (script o).
Definition toWriter (o : t) : bytes :=
  writeI64 (value o) ++ writeVarBytes (script o).

End Output.

(** ** coins/coinview.js *)

Module CoinView.
Import Encoding.

(** Modelled from the spec: [CoinEntry] and [CoinView] (coins/ is not
    among the sources): a UTXO entry holds the output, the height of
    the transaction that created it and whether that transaction was a
    coinbase; the view maps the outpoints it can resolve to their
    entries. *)
Record CoinEntry := { output : Output.t; height : Z; coinbase : bool }.

(** Modelled from the spec: [CoinView.getEntry] and [CoinView.getOutput]
    (coins/ is not among the sources): the entry an outpoint resolves
    to, and the output of that entry. *)
Definition getEntry (view : gmap (bytes * Z) CoinEntry) (prevout : Outpoint.t)
  : option CoinEntry :=
  view !! Outpoint.toKey prevout.

Definition getOutput (view : gmap (bytes * Z) CoinEntry) (prevout : Outpoint.t)
  : option Output.t :=
  output <$> getEntry view prevout.

(** Modelled from the spec: [CoinView.hasEntry] (coins/ is not among the
    sources): whether the view resolves the outpoint to an entry. *)
Definition hasEntry (view : gmap (bytes * Z) CoinEntry) (prevout : Outpoint.t)
  : bool :=
  bool_decide (is_Some (getEntry view prevout)).

End CoinView.

(** ** primitives/tx.js *)

Module TX.
Import Encoding Consensus.
Local Open Scope string_scope.
Local Open Scope list_scope.
Local Open Scope Z_scope.

(** The transaction with the serialization cache [frame] maintains. *)
Record t := {
  version : Z;
  inputs : list Input.t;
  outputs : list Output.t;
  locktime : Z;
  mutable : bool;
  _raw : option bytes;
  _size : Z
}.

(** [[valid, reason, score]] *)
Definition verdict : Type := bool * string * Z.

Definition getNormalSizes (tx : t) : Z :=
  let base := 0 in
  let base := base + 4 in
  let base := base + sizeVarint (len (inputs tx)) in
  let base := foldl (fun base input => base + Input.getSize input) base (inputs tx) in
  let base := base + sizeVarint (len (outputs tx)) in
  let base := foldl (fun base output => base + Output.getSize output) base (outputs tx) in
  base + 4.

Definition writeNormal (tx : t) : JS.result bytes :=
  if bool_decide (inputs tx = []) && negb (bool_decide (outputs tx = []))
  then JS.Error "Cannot serialize zero-input tx."
  else JS.Ok (writeU32 (version tx)
              ++ writeVarint (len (inputs tx))
              ++ concat (map Input.toWriter (inputs tx))
              ++ writeVarint (len (outputs tx))
              ++ concat (map Output.toWriter (outputs tx))
              ++ writeU32 (locktime tx)).

(** [frameNormal()]: the size and the data of a [RawTX]. *)
Definition frameNormal (tx : t) : JS.result (Z * bytes) :=
  do data <- writeNormal tx;
  JS.Ok (getNormalSizes tx, data).

Definition setCache (tx : t) (raw : Z * bytes) : t :=
  {| version := version tx; inputs := inputs tx; outputs := outputs tx;
     locktime := locktime tx; mutable := mutable tx;
     _raw := Some (snd raw); _size := fst raw |}.

(** [frame()]: an immutable transaction keeps what it serialized. *)
Definition frame (tx : t) : JS.result ((Z * bytes) * t) :=
  if mutable tx then
    check (negb (bool_decide (is_Some (_raw tx))));
    do raw <- frameNormal tx;
    JS.Ok (raw, tx)
  else
    match _raw tx with
    | Some data =>
      check (0 <=? _size tx);
      JS.Ok ((_size tx, data), tx)
    | None =>
      do raw <- frameNormal tx;
      JS.Ok (raw, setCache tx raw)
    end.

Definition getSize (tx : t) : JS.result (Z * t) :=
  if mutable tx then JS.Ok (getNormalSizes tx, tx)
  else
    do framed <- frame tx;
    JS.Ok (fst (fst framed), snd framed).

Definition isCoinbase (tx : t) : bool :=
  match inputs tx with
  | [input] => Outpoint.isNull (Input.prevout input)
  | _ => false
  end.

Definition getOutputValue (tx : t) : Z :=
  foldl (fun total output => total + Output.value output) 0 (outputs tx).

Definition getInputValue (view : gmap (bytes * Z) CoinView.CoinEntry) (tx : t) : Z :=
  let fix go (ins : list Input.t) (total : Z) : Z :=
    match ins with
    | [] => total
    | input :: rest =>
      match CoinView.getOutput view (Input.prevout input) with
      | None => 0
      | Some coin => go rest (total + Output.value coin)
      end
    end in
  go (inputs tx) 0.

Definition isFinal (tx : t) (height time : Z) : bool :=
  if locktime tx =? 0 then true
  else if locktime tx <? (if locktime tx <? LOCKTIME_THRESHOLD then height else time)
  then true
  else forallb (fun input => Input.sequence input =? 0xffffffff) (inputs tx).

(** *** checkSanity *)

Fixpoint checkSanity_outputs (outs : list Output.t) (total : Z) : option verdict :=
  match outs with
  | [] => None
  | output :: rest =>
    if Output.value output <? 0 then Some (false, "bad-txns-vout-negative", 100)
    else if MAX_MONEY <? Output.value output
    then Some (false, "bad-txns-vout-toolarge", 100)
    else
      let total := total + Output.value output in
      if (total <? 0) || (MAX_MONEY <? total)
      then Some (false, "bad-txns-txouttotal-toolarge", 100)
      else checkSanity_outputs rest total
  end.

Fixpoint checkSanity_prevouts (ins : list Input.t) (prevout : gset (bytes * Z))
  : option verdict :=
  match ins with
  | [] => None
  | input :: rest =>
    let key := Outpoint.toKey (Input.prevout input) in
    if bool_decide (key ∈ prevout)
    then Some (false, "bad-txns-inputs-duplicate", 100)
    else checkSanity_prevouts rest ({[key]} ∪ prevout)
  end.

Fixpoint checkSanity_nulls (ins : list Input.t) : option verdict :=
  match ins with
  | [] => None
  | input :: rest =>
    if Outpoint.isNull (Input.prevout input)
    then Some (false, "bad-txns-prevout-null", 10)
    else checkSanity_nulls rest
  end.

Definition checkSanity_coinbase (tx : t) : option verdict :=
  if isCoinbase tx then
    match inputs tx with
    | input :: _ =>
      let size := size (Input.script input) in
      if (size <? 2) || (MAX_COINBASE_SCRIPTSIG_SIZE <? size)
      then Some (false, "bad-cb-length", 100)
      else None
    | [] => None
    end
  else checkSanity_nulls (inputs tx).

(** [checkSanity()], with the transaction object as the call leaves it. *)
Definition checkSanity (tx : t) : JS.result (verdict * t) :=
  if bool_decide (inputs tx = []) then JS.Ok ((false, "bad-txns-vin-empty", 100), tx)
  else if bool_decide (outputs tx = [])
  then JS.Ok ((false, "bad-txns-vout-empty", 100), tx)
  else
    do sized <- getSize tx;
    let tx := snd sized in
    if MAX_TX_SIZE <? fst sized then JS.Ok ((false, "bad-txns-oversize", 100), tx)
    else
      match checkSanity_outputs (outputs tx) 0 with
      | Some v => JS.Ok (v, tx)
      | None =>
        match checkSanity_prevouts (inputs tx) ∅ with
        | Some v => JS.Ok (v, tx)
        | None =>
          match checkSanity_coinbase tx with
          | Some v => JS.Ok (v, tx)
          | None => JS.Ok ((true, "valid", 0), tx)
          end
        end
      end.

(** *** checkInputs *)

(** The loop over the inputs: an early verdict or the running total. *)
Fixpoint checkInputs_loop (view : gmap (bytes * Z) CoinView.CoinEntry)
    (height : Z) (ins : list Input.t) (total : Z)
  : JS.result (Z * string * Z + Z) :=
  match ins with
  | [] => JS.Ok (inr total)
  | input :: rest =>
    match CoinView.getEntry view (Input.prevout input) with
    | None => JS.Ok (inl (-1, "bad-txns-inputs-missingorspent", 0))
    | Some entry =>
      if CoinView.coinbase entry && (height - CoinView.height entry <? COINBASE_MATURITY)
      then JS.Ok (inl (-1, "bad-txns-premature-spend-of-coinbase", 0))
      else
        match CoinView.getOutput view (Input.prevout input) with
        | None => JS.AssertionError
        | Some coin =>
          if (Output.value coin <? 0) || (MAX_MONEY <? Output.value coin)
          then JS.Ok (inl (-1, "bad-txns-inputvalues-outofrange", 100))
          else
            let total := total + Output.value coin in
            if (total <? 0) || (MAX_MONEY <? total)
            then JS.Ok (inl (-1, "bad-txns-inputvalues-outofrange", 100))
            else checkInputs_loop view height rest total
        end
    end
  end.

(** [checkInputs(view, height)] returns [[fee, reason, score]]. *)
Definition checkInputs (tx : t) (view : gmap (bytes * Z) CoinView.CoinEntry)
    (height : Z) : JS.result (Z * string * Z) :=
  do looped <- checkInputs_loop view height (inputs tx) 0;
  match looped with
  | inl failure => JS.Ok failure
  | inr total =>
    let value := getOutputValue tx in
    if total <? value then JS.Ok (-1, "bad-txns-in-belowout", 100)
    else
      let fee := total - value in
      if fee <? 0 then JS.Ok (-1, "bad-txns-fee-negative", 100)
      else if MAX_MONEY <? fee then JS.Ok (-1, "bad-txns-fee-outofrange", 100)
      else JS.Ok (fee, "valid", 0)
  end.

(** *** Serialization, hash and legacy sigops *)

(** [toRaw()] *)
Definition toRaw (tx : t) : JS.result (bytes * t) :=
  do framed <- frame tx;
  JS.Ok (snd (fst framed), snd framed).

(** [toWriter(bw)]: the bytes written. *)
Definition toWriter (tx : t) : JS.result (bytes * t) :=
  if mutable tx then
    do data <- writeNormal tx;
    JS.Ok (data, tx)
  else toRaw tx.

Section Hashing.
Variable hash256 : bytes -> bytes.
(** [Script.getSigops(false)] of a raw script (script/script.js). *)
Variable getSigops : bytes -> Z.

(** [hash()]; the [_hash] cache holds the digest of the
    serialization and is left out. *)
Definition hash (tx : t) : JS.result (bytes * t) :=
  do raw <- toRaw tx;
  JS.Ok (hash256 (fst raw), snd raw).

(** [getLegacySigops()]; the [_sigops] cache holds this total and is
    left out. *)
Definition getLegacySigops (tx : t) : Z :=
  let total := 0 in
  let total :=
    foldl (fun total input => total + getSigops (Input.script input))
          total (inputs tx) in
  foldl (fun total output => total + getSigops (Output.script output))
        total (outputs tx).
End Hashing.

(** *** signatureHashV0 *)

Definition SIGHASH_ALL : Z := 1.
Definition SIGHASH_NONE : Z := 2.
Definition SIGHASH_SINGLE : Z := 3.
Definition SIGHASH_ANYONECANPAY : Z := 0x80.

(** [array[index]] for a number [index]. *)
Definition at_index {A} (l : list A) (index : Z) : option A :=
  if index <? 0 then None else l !! Z.to_nat index.

Section SignatureHash.
(** [hash256.digest] (bcrypto) and [Script.removeSeparators]
    (script/script.js); a script is held by its raw bytes. *)
Variable hash256 : bytes -> bytes.
Variable removeSeparators : bytes -> bytes.

(** Inputs of the legacy preimage when ANYONECANPAY is not set. *)
Definition sighash_inputs (tx : t) (index : Z) (prev : bytes) (type : Z)
  : bytes :=
  writeVarint (len (inputs tx))
  ++ concat (imap (fun i input =>
       Outpoint.toWriter (Input.prevout input)
       ++ (if Z.of_nat i =? index
           then writeVarBytes prev ++ writeU32 (Input.sequence input)
           else writeVarint 0
                ++ (if (JS.and type 0x1f =? SIGHASH_NONE)
                       || (JS.and type 0x1f =? SIGHASH_SINGLE)
                    then writeU32 0
                    else writeU32 (Input.sequence input))))
     (inputs tx)).

(** [signatureHashV0(index, prev, type)]; [hashSize] only sizes the
    buffer the preimage is written to. *)
Definition signatureHashV0 (tx : t) (index : Z) (prev : bytes) (type : Z)
  : JS.result bytes :=
  if (JS.and type 0x1f =? SIGHASH_SINGLE) && (len (outputs tx) <=? index)
  then JS.Ok (<[0%nat := 0x01]> (repeat 0x00 32))
  else
    let prev := removeSeparators prev in
    do ins <-
      (if negb (JS.and type SIGHASH_ANYONECANPAY =? 0) then
         match at_index (inputs tx) index with
         | Some input =>
           JS.Ok (writeVarint 1
                  ++ Outpoint.toWriter (Input.prevout input)
                  ++ writeVarBytes prev
                  ++ writeU32 (Input.sequence input))
         | None => JS.Error "TypeError"
         end
       else JS.Ok (sighash_inputs tx index prev type));
    do outs <-
      (if JS.and type 0x1f =? SIGHASH_NONE then JS.Ok (writeVarint 0)
       else if JS.and type 0x1f =? SIGHASH_SINGLE then
         match at_index (outputs tx) index with
         | Some output =>
           JS.Ok (writeVarint (index + 1)
                  ++ concat (repeat (writeI64 (-1) ++ writeVarint 0)
                                    (Z.to_nat index))
                  ++ Output.toWriter output)
         | None => JS.Error "TypeError"
         end
       else JS.Ok (writeVarint (len (outputs tx))
                   ++ concat (map Output.toWriter (outputs tx))));
    JS.Ok (hash256 (writeU32 (version tx) ++ ins ++ outs
                    ++ writeU32 (locktime tx) ++ writeU32 type)).
End SignatureHash.

(** [hashSize(index, prev, type)]: the size of the buffer
    [signatureHashV0] writes the preimage to; [prev.getVarSize()] is
    the size of the script with its length prefix. *)
Definition hashSize (tx : t) (index : Z) (prev : bytes) (type : Z)
  : JS.result Z :=
  let size := 0 in
  let size := size + 4 in
  let size :=
    if negb (JS.and type SIGHASH_ANYONECANPAY =? 0)
    then size + 1 + 36 + sizeVarBytes prev + 4
    else size + sizeVarint (len (inputs tx)) + 41 * (len (inputs tx) - 1)
         + 36 + sizeVarBytes prev + 4 in
  do size <-
    (if JS.and type 0x1f =? SIGHASH_NONE then JS.Ok (size + 1)
     else if JS.and type 0x1f =? SIGHASH_SINGLE then
       match at_index (outputs tx) index with
       | Some output =>
         JS.Ok (size + sizeVarint (index + 1) + 9 * index
                + Output.getSize output)
       | None => JS.Error "TypeError"
       end
     else
       JS.Ok (foldl (fun size output => size + Output.getSize output)
                    (size + sizeVarint (len (outputs tx))) (outputs tx)));
  JS.Ok (size + 8).

(** *** Coins, fee and locktimes *)

(** [hasCoins(view)] *)
Definition hasCoins (view : gmap (bytes * Z) CoinView.CoinEntry) (tx : t)
  : bool :=
  if len (inputs tx) =? 0 then false
  else forallb (fun input => CoinView.hasEntry view (Input.prevout input))
               (inputs tx).

(** [getFee(view)] *)
Definition getFee (view : gmap (bytes * Z) CoinView.CoinEntry) (tx : t) : Z :=
  if negb (hasCoins view tx) then 0
  else getInputValue view tx - getOutputValue tx.

(** [verifyInputs(view, height)] *)
Definition verifyInputs (tx : t) (view : gmap (bytes * Z) CoinView.CoinEntry)
    (height : Z) : JS.result bool :=
  do checked <- checkInputs tx view height;
  let '(fee, _, _) := checked in
  JS.Ok (negb (fee =? -1)).

(** [verifyLocktime(index, predicate)] *)
Definition verifyLocktime (tx : t) (index predicate : Z) : JS.result bool :=
  match at_index (inputs tx) index with
  | None => JS.AssertionError
  | Some input =>
    check (0 <=? predicate);
    if negb (Bool.eqb (locktime tx <? LOCKTIME_THRESHOLD)
                      (predicate <? LOCKTIME_THRESHOLD))
    then JS.Ok false
    else if locktime tx <? predicate then JS.Ok false
    else if Input.sequence input =? 0xffffffff then JS.Ok false
    else JS.Ok true
  end.

(** [verifySequence(index, predicate)] *)
Definition verifySequence (tx : t) (index predicate : Z) : JS.result bool :=
  match at_index (inputs tx) index with
  | None => JS.AssertionError
  | Some input =>
    check (0 <=? predicate);
    if negb (JS.and predicate SEQUENCE_DISABLE_FLAG =? 0) then JS.Ok true
    else if version tx <? 2 then JS.Ok false
    else if negb (JS.and (Input.sequence input) SEQUENCE_DISABLE_FLAG =? 0)
    then JS.Ok false
    else if negb (JS.and (Input.sequence input) SEQUENCE_TYPE_FLAG
                  =? JS.and predicate SEQUENCE_TYPE_FLAG)
    then JS.Ok false
    else if JS.and (Input.sequence input) SEQUENCE_MASK
            <? JS.and predicate SEQUENCE_MASK
    then JS.Ok false
    else JS.Ok true
  end.

(** [getModifiedSize(size)]; [None] stands for a call without the
    argument.  [input.script.getSize()] is the size of the raw script. *)
Definition getModifiedSize (tx : t) (size : option Z) : JS.result (Z * t) :=
  do sized <-
    (match size with
     | Some size => JS.Ok (size, tx)
     | None => getSize tx
     end);
  let tx := snd sized in
  JS.Ok (foldl (fun size input =>
                  let offset :=
                    41 + Z.min 110 (Encoding.size (Input.script input)) in
                  if offset <? size then size - offset else size)
               (fst sized) (inputs tx),
         tx).

End TX.

(** ** Vocabulary of the transaction rules *)

Module TXRules.
Import Encoding Consensus.
Local Open Scope string_scope.
Local Open Scope list_scope.
Local Open Scope Z_scope.

Definition inRange (amount : Z) : Prop := 0 <= amount <= MAX_MONEY.

(** The entry was created by a coinbase too recent to be spent at
    [height]. *)
Definition immature (height : Z) (entry : CoinView.CoinEntry) : Prop :=
  CoinView.coinbase entry = true
  /\ height - CoinView.height entry < COINBASE_MATURITY.

(** The input passes every per-input test of [checkInputs]. *)
Definition spendable (view : gmap (bytes * Z) CoinView.CoinEntry)
    (height : Z) (input : Input.t) : Prop :=
  exists entry,
    CoinView.getEntry view (Input.prevout input) = Some entry
    /\ ~ immature height entry
    /\ inRange (Output.value (CoinView.output entry)).

(** Sum of the values of the coins the inputs resolve to. *)
Fixpoint coinSum (view : gmap (bytes * Z) CoinView.CoinEntry)
    (ins : list Input.t) : Z :=
  match ins with
  | [] => 0
  | input :: rest =>
    match CoinView.getEntry view (Input.prevout input) with
    | Some entry => Output.value (CoinView.output entry) + coinSum view rest
    | None => coinSum view rest
    end
  end.

Fixpoint valueSum (outs : list Output.t) : Z :=
  match outs with
  | [] => 0
  | output :: rest => Output.value output + valueSum rest
  end.

(** *** The conditions of [checkSanity] *)

(** Every running partial sum of the output values is in range. *)
Definition partialSumsInRange (outs : list Output.t) : Prop :=
  forall k, (k <= length outs)%nat -> inRange (valueSum (take k outs)).

Definition nullPrevout (input : Input.t) : Prop :=
  Outpoint.isNull (Input.prevout input) = true.

Definition coinbaseScriptFits (tx : TX.t) : Prop :=
  exists input rest,
    TX.inputs tx = input :: rest
    /\ 2 <= size (Input.script input) <= MAX_COINBASE_SCRIPTSIG_SIZE.

Record sane (tx : TX.t) : Prop := {
  sane_inputs : TX.inputs tx <> [];
  sane_outputs : TX.outputs tx <> [];
  sane_size : TX.getNormalSizes tx <= MAX_TX_SIZE;
  sane_values : Forall (fun output => inRange (Output.value output)) (TX.outputs tx);
  sane_total : partialSumsInRange (TX.outputs tx);
  sane_prevouts : NoDup (map Input.prevout (TX.inputs tx));
  sane_coinbase : TX.isCoinbase tx = true -> coinbaseScriptFits tx;
  sane_nulls : TX.isCoinbase tx = false -> Forall (fun input => ~ nullPrevout input) (TX.inputs tx)
}.

(** What each reason tag of [checkSanity] reports. *)
Inductive violation (tx : TX.t) : string -> Z -> Prop :=
| vin_empty : TX.inputs tx = [] -> violation tx "bad-txns-vin-empty" 100
| vout_empty : TX.outputs tx = [] -> violation tx "bad-txns-vout-empty" 100
| oversize :
    MAX_TX_SIZE < TX.getNormalSizes tx -> violation tx "bad-txns-oversize" 100
| vout_negative :
    Exists (fun output => Output.value output < 0) (TX.outputs tx) ->
    violation tx "bad-txns-vout-negative" 100
| vout_toolarge :
    Exists (fun output => MAX_MONEY < Output.value output) (TX.outputs tx) ->
    violation tx "bad-txns-vout-toolarge" 100
| txouttotal_toolarge :
    ~ partialSumsInRange (TX.outputs tx) ->
    violation tx "bad-txns-txouttotal-toolarge" 100
| inputs_duplicate :
    ~ NoDup (map Input.prevout (TX.inputs tx)) ->
    violation tx "bad-txns-inputs-duplicate" 100
| cb_length :
    TX.isCoinbase tx = true -> ~ coinbaseScriptFits tx ->
    violation tx "bad-cb-length" 100
| prevout_null :
    TX.isCoinbase tx = false -> Exists nullPrevout (TX.inputs tx) ->
    violation tx "bad-txns-prevout-null" 10.

(** The cache of an immutable transaction holds its serialized size. *)
Definition cacheCoherent (tx : TX.t) : Prop :=
  TX.mutable tx = false ->
  forall data, TX._raw tx = Some data -> TX._size tx = TX.getNormalSizes tx.

(** The two objects hold the same transaction. *)
Definition sameTransaction (tx tx' : TX.t) : Prop :=
  TX.version tx' = TX.version tx
  /\ TX.inputs tx' = TX.inputs tx
  /\ TX.outputs tx' = TX.outputs tx
  /\ TX.locktime tx' = TX.locktime tx
  /\ TX.mutable tx' = TX.mutable tx.


(** A call on a coherent transaction object leaves a coherent object
    holding the same transaction, and returns a value that meets [P]. *)
Definition preserving {A} (f : TX.t -> JS.result (A * TX.t))
    (P : TX.t -> A -> Prop) : Prop :=
  forall tx a tx',
    cacheCoherent tx -> f tx = JS.Ok (a, tx') ->
    sameTransaction tx tx' /\ cacheCoherent tx' /\ P tx a.

(** The cache of an immutable transaction holds its serialization. *)
Definition rawCoherent (tx : TX.t) : Prop :=
  TX.mutable tx = false ->
  forall data, TX._raw tx = Some data -> TX.writeNormal tx = JS.Ok data.

(** [leaf] is the digest of the serialization of the transaction. *)
Definition digestOf (hash256 : bytes -> bytes) (tx : TX.t) (leaf : bytes)
  : Prop :=
  exists data, TX.writeNormal tx = JS.Ok data /\ leaf = hash256 data.

End TXRules.

(** ** primitives/block.js *)

Module Block.
Import Encoding Consensus.
Local Open Scope string_scope.
Local Open Scope list_scope.
Local Open Scope Z_scope.

(** The block object.  Modelled from the spec: the header fields, which
    [AbstractBlock] declares (abstractblock.js is not among the
    sources): [version], [prev], [merkle_root], [time], [bits], [nonce];
    then the transactions and the serialization cache of [Block]. *)
Record t := {
  version : Z;
  prevBlock : bytes;
  merkleRoot : bytes;
  time : Z;
  bits : Z;
  nonce : Z;
  mutable : bool;
  txs : list TX.t;
  _raw : option bytes;
  _size : Z
}.

Definition withTxs (b : t) (txs' : list TX.t) : t :=
  {| version := version b; prevBlock := prevBlock b;
     merkleRoot := merkleRoot b; time := time b; bits := bits b;
     nonce := nonce b; mutable := mutable b; txs := txs';
     _raw := _raw b; _size := _size b |}.

Definition setCache (b : t) (raw : Z * bytes) : t :=
  {| version := version b; prevBlock := prevBlock b;
     merkleRoot := merkleRoot b; time := time b; bits := bits b;
     nonce := nonce b; mutable := mutable b; txs := txs b;
     _raw := Some (snd raw); _size := fst raw |}.

(** [for (const tx of this.txs)] with a call on each transaction
    object: the values returned and the objects as the calls leave
    them. *)
Fixpoint forEach {A} (f : TX.t -> JS.result (A * TX.t)) (txs : list TX.t)
  : JS.result (list A * list TX.t) :=
  match txs with
  | [] => JS.Ok ([], [])
  | tx :: rest =>
    do called <- f tx;
    do others <- forEach f rest;
    JS.Ok (fst called :: fst others, snd called :: snd others)
  end.

Definition getNormalSizes (b : t) : JS.result (Z * t) :=
  let size := 0 in
  let size := size + 80 in
  let size := size + sizeVarint (len (txs b)) in
  do sized <- forEach TX.getSize (txs b);
  JS.Ok (foldl (fun size txSize => size + txSize) size (fst sized),
         withTxs b (snd sized)).

(** Modelled from the spec: [AbstractBlock.writeHead] (abstractblock.js
    is not among the sources): the 80-byte header, [version],
    [prev], [merkle_root], [time], [bits], [nonce]. *)
Definition writeHead (b : t) : bytes :=
  writeU32 (version b) ++ prevBlock b ++ merkleRoot b
  ++ writeU32 (time b) ++ writeU32 (bits b) ++ writeU32 (nonce b).

Definition writeNormal (b : t) : JS.result (bytes * t) :=
  do written <- forEach TX.toWriter (txs b);
  JS.Ok (writeHead b ++ writeVarint (len (txs b)) ++ concat (fst written),
         withTxs b (snd written)).

Definition frameNormal (b : t) : JS.result ((Z * bytes) * t) :=
  do sized <- getNormalSizes b;
  do written <- writeNormal (snd sized);
  JS.Ok ((fst sized, fst written), snd written).

Definition frame (b : t) : JS.result ((Z * bytes) * t) :=
  if mutable b then
    check (negb (bool_decide (is_Some (_raw b))));
    frameNormal b
  else
    match _raw b with
    | Some data =>
      check (0 <=? _size b);
      JS.Ok ((_size b, data), b)
    | None =>
      do framed <- frameNormal b;
      JS.Ok (fst framed, setCache (snd framed) (fst framed))
    end.

Definition getSize (b : t) : JS.result (Z * t) :=
  if mutable b then getNormalSizes b
  else
    do framed <- frame b;
    JS.Ok (fst (fst framed), snd framed).

Section CheckBody.
Variable hash256 : bytes -> bytes.
Variable getSigops : bytes -> Z.
(** [merkle.createRoot(hash256, leaves)] (bcrypto): the root and
    whether the tree was found malleated. *)
Variable createRoot : list bytes -> bytes * bool.

(** [createMerkleRoot()]: [None] stands for [null]. *)
Definition createMerkleRoot (b : t) : JS.result (option bytes * t) :=
  do hashed <- forEach (TX.hash hash256) (txs b);
  let '(root, malleated) := createRoot (fst hashed) in
  JS.Ok (if malleated then None else Some root, withTxs b (snd hashed)).

(** The loop over the transactions, [i] being the index of the
    first of [txs]; the objects come back as the calls leave them. *)
Fixpoint checkBody_loop (txs : list TX.t) (i : Z) (size sigops : Z)
  : JS.result (TX.verdict * list TX.t) :=
  match txs with
  | [] => JS.Ok ((true, "valid", 0), [])
  | tx :: rest =>
    if (0 <? i) && TX.isCoinbase tx
    then JS.Ok ((false, "bad-cb-multiple", 100), tx :: rest)
    else
      do checked <- TX.checkSanity tx;
      let '(valid, reason, score) := fst checked in
      let tx := snd checked in
      if negb valid then JS.Ok ((valid, reason, score), tx :: rest)
      else
        let sigops := sigops + TX.getLegacySigops getSigops tx in
        if maxBlockSigops size <? sigops
        then JS.Ok ((false, "bad-blk-sigops", 100), tx :: rest)
        else
          do looped <- checkBody_loop rest (i + 1) size sigops;
          JS.Ok (fst looped, tx :: snd looped)
  end.

(** [checkBody()], with the block object as the call leaves it. *)
Definition checkBody (b : t) : JS.result (TX.verdict * t) :=
  if (len (txs b) =? 0) || (MAX_FORK_BLOCK_SIZE / 10 <? len (txs b))
  then JS.Ok ((false, "bad-blk-length", 100), b)
  else
    do sized <- getSize b;
    let b := snd sized in
    if MAX_FORK_BLOCK_SIZE <? fst sized
    then JS.Ok ((false, "bad-blk-length", 100), b)
    else
      match txs b with
      | [] => JS.Ok ((false, "bad-cb-missing", 100), b)
      | first :: _ =>
        if negb (TX.isCoinbase first)
        then JS.Ok ((false, "bad-cb-missing", 100), b)
        else
          do rooted <- createMerkleRoot b;
          let b := snd rooted in
          match fst rooted with
          | None => JS.Ok ((false, "bad-txns-duplicate", 100), b)
          | Some root =>
            if negb (bool_decide (merkleRoot b = root))
            then JS.Ok ((false, "bad-txnmrklroot", 100), b)
            else
              do sized <- getSize b;
              let b := snd sized in
              do looped <- checkBody_loop (txs b) 0 (fst sized) 0;
              JS.Ok (fst looped, withTxs b (snd looped))
          end
      end.
End CheckBody.

(** The size of the serialization of the block. *)
Definition serializedSize (b : t) : Z :=
  80 + sizeVarint (len (txs b)) + total TX.getNormalSizes (txs b).

(** The caches of the block and of its transactions hold the sizes of
    their serializations. *)
Definition cacheCoherent (b : t) : Prop :=
  (mutable b = false ->
   forall data, _raw b = Some data -> _size b = serializedSize b)
  /\ Forall TXRules.cacheCoherent (txs b).

(** The two objects hold the same block. *)
Definition sameBlock (b b' : t) : Prop :=
  Forall2 TXRules.sameTransaction (txs b) (txs b')
  /\ merkleRoot b' = merkleRoot b
  /\ mutable b' = mutable b.

End Block.

(** ** mining/miner.js *)

Module Miner.
Import Encoding Consensus.
Local Open Scope string_scope.
Local Open Scope list_scope.
Local Open Scope Z_scope.

(** Modelled from the spec: [BlockEntry] (mining/template.js is not
    among the sources): the entry of a mempool transaction in a
    template, with the fields [assemble] reads.  [id] is the identity
    of the object; its mutable field [depCount] is kept in the state,
    by [id], because the lists of [depMap] share the objects. *)
Record BlockEntry := {
  id : nat;
  tx : TX.t;
  hash : bytes;
  fee : Z;
  rate : Z;
  priority : Z;
  free : bool;
  sigops : Z;
  descRate : Z
}.

(** The options [assemble] reads. *)
Record MinerOptions := {
  minSize : Z;
  maxSize : Z;
  maxSigops : Z;
  prioritySize : Z;
  priorityThreshold : Z
}.

Definition cmpRate (a b : BlockEntry) : Z :=
  let x := rate a in
  let y := rate b in
  let x := if rate a <? descRate a then descRate a else x in
  let y := if rate b <? descRate b then descRate b else y in
  if x =? y then priority b - priority a else y - x.

Definition cmpPriority (a b : BlockEntry) : Z :=
  if priority a =? priority b then cmpRate a b
  else priority b - priority a.

(** *** The heap (bheep)

    A heap is held by its items, in insertion order.  [shift] takes
    out an item that compares at most equal to every other one; among
    such items bheep returns the one its array layout favours, the
    model the one inserted first. *)
Fixpoint least (compare : BlockEntry -> BlockEntry -> Z)
    (best : BlockEntry) (items : list BlockEntry) : BlockEntry :=
  match items with
  | [] => best
  | item :: rest =>
    if compare item best <? 0 then least compare item rest
    else least compare best rest
  end.

Fixpoint takeOut (target : nat) (items : list BlockEntry) : list BlockEntry :=
  match items with
  | [] => []
  | item :: rest =>
    if Nat.eqb (id item) target then rest else item :: takeOut target rest
  end.

Definition shift (compare : BlockEntry -> BlockEntry -> Z)
    (items : list BlockEntry) : option (BlockEntry * list BlockEntry) :=
  match items with
  | [] => None
  | first :: rest =>
    let item := least compare first rest in
    Some (item, takeOut (id item) items)
  end.

Definition insert (item : BlockEntry) (items : list BlockEntry)
  : list BlockEntry := items ++ [item].

(** *** assemble *)

(** The template fields the loop writes, the heap, the phase flag and
    the [depCount] of every item. *)
Record State := {
  size : Z;
  sigops_ : Z;
  fees : Z;
  items : list BlockEntry;
  queue : list BlockEntry;
  priorityPhase : bool;
  depCount : gmap nat Z
}.

Definition getDepCount (counts : gmap nat Z) (item : BlockEntry) : Z :=
  default 0 (counts !! id item).

(** The comparator the heap holds in each phase. *)
Definition comparator (phase : bool) : BlockEntry -> BlockEntry -> Z :=
  if phase then cmpPriority else cmpRate.

(** [for (const item of deps) if (--item.depCount === 0)
    queue.insert(item)] *)
Fixpoint release (deps : list BlockEntry) (counts : gmap nat Z)
    (heap : list BlockEntry) : gmap nat Z * list BlockEntry :=
  match deps with
  | [] => (counts, heap)
  | item :: rest =>
    let count := getDepCount counts item - 1 in
    let counts := <[id item := count]> counts in
    if count =? 0 then release rest counts (insert item heap)
    else release rest counts heap
  end.

Section Assemble.
Variable options : MinerOptions.
(** [attempt.height] and [attempt.locktime]. *)
Variable height locktime : Z.
Variable depMap : gmap bytes (list BlockEntry).

(** The popped item is left out of the template. *)
Definition skip (st : State) (heap : list BlockEntry) : State :=
  {| size := size st; sigops_ := sigops_ st; fees := fees st;
     items := items st; queue := heap;
     priorityPhase := priorityPhase st; depCount := depCount st |}.

(** The popped item goes into the template and frees its dependents. *)
Definition commit (st : State) (heap : list BlockEntry) (item : BlockEntry)
  : State :=
  let released :=
    match depMap !! hash item with
    | None => (depCount st, heap)
    | Some deps => release deps (depCount st) heap
    end in
  {| size := size st + TX.getNormalSizes (tx item);
     sigops_ := sigops_ st + sigops item;
     fees := fees st + fee item;
     items := items st ++ [item];
     queue := snd released;
     priorityPhase := priorityPhase st;
     depCount := fst released |}.

(** The heap is re-ordered by fee rate and takes the item back. *)
Definition reseed (st : State) (heap : list BlockEntry) (item : BlockEntry)
  : State :=
  {| size := size st; sigops_ := sigops_ st; fees := fees st;
     items := items st; queue := insert item heap;
     priorityPhase := false; depCount := depCount st |}.

(** One turn of [while (queue.size() > 0)]; [None] when the heap is
    empty.  [tx.getSize()] of a mempool transaction is the size of
    its serialization. *)
Definition step (st : State) : option State :=
  match shift (comparator (priorityPhase st)) (queue st) with
  | None => None
  | Some (item, heap) =>
    let size := size st in
    let sigops := sigops_ st in
    if negb (TX.isFinal (tx item) height locktime) then Some (skip st heap)
    else
      let size := size + TX.getNormalSizes (tx item) in
      if maxSize options <? size then Some (skip st heap)
      else
        let sigops := sigops + Miner.sigops item in
        if maxSigops options <? sigops then Some (skip st heap)
        else if priorityPhase st then
          if (prioritySize options <? size)
             || (priority item <? priorityThreshold options)
          then Some (reseed st heap item)
          else Some (commit st heap item)
        else if free item && (minSize options <=? size)
        then Some (skip st heap)
        else Some (commit st heap item)
  end.

(** The loop, for at most [fuel] turns. *)
Fixpoint drain (fuel : nat) (st : State) : State :=
  match fuel with
  | O => st
  | S fuel' =>
    match step st with
    | None => st
    | Some st' => drain fuel' st'
    end
  end.
End Assemble.

(** *** Seeding the heap *)

(** [for (const {prevout} of tx.inputs)]: every input that spends a
    mempool transaction counts as a parent of [item] and lists [item]
    under that transaction in [depMap]. *)
Fixpoint countParents (hasEntry : bytes -> bool) (item : BlockEntry)
    (ins : list Input.t) (counts : gmap nat Z)
    (depMap : gmap bytes (list BlockEntry))
  : gmap nat Z * gmap bytes (list BlockEntry) :=
  match ins with
  | [] => (counts, depMap)
  | input :: rest =>
    let hash := Outpoint.hash (Input.prevout input) in
    if negb (hasEntry hash) then countParents hasEntry item rest counts depMap
    else
      let counts := <[id item := getDepCount counts item + 1]> counts in
      let depMap := <[hash := default [] (depMap !! hash) ++ [item]]> depMap in
      countParents hasEntry item rest counts depMap
  end.

(** [for (const entry of this.mempool.map.values())], over the items
    [BlockEntry.fromEntry] makes of the entries. *)
Fixpoint seed (hasEntry : bytes -> bool) (entries : list BlockEntry)
    (counts : gmap nat Z) (depMap : gmap bytes (list BlockEntry))
    (heap : list BlockEntry)
  : JS.result (gmap nat Z * gmap bytes (list BlockEntry) * list BlockEntry) :=
  match entries with
  | [] => JS.Ok (counts, depMap, heap)
  | item :: rest =>
    if TX.isCoinbase (tx item) then JS.Error "Cannot add coinbase to block."
    else
      let counted :=
        countParents hasEntry item (TX.inputs (tx item)) counts depMap in
      if 0 <? getDepCount (fst counted) item
      then seed hasEntry rest (fst counted) (snd counted) heap
      else seed hasEntry rest (fst counted) (snd counted) (insert item heap)
  end.

(** How often the object [i] occurs in a list of dependents. *)
Definition occurrences (i : nat) (deps : list BlockEntry) : Z :=
  Z.of_nat (length (filter (fun item => id item = i) deps)).

(** The order of the fee-rate phase: the larger of [rate] and
    [descRate] first, then the priority. *)
Definition rateKey (item : BlockEntry) : Z := Z.max (rate item) (descRate item).

Definition ranksBefore (a b : BlockEntry) : Prop :=
  rateKey b < rateKey a
  \/ (rateKey a = rateKey b /\ priority b <= priority a).

(** Adding the item would break a limit, or the item is not final. *)
Definition rejected (options : MinerOptions) (height locktime : Z)
    (st : State) (item : BlockEntry) : Prop :=
  TX.isFinal (tx item) height locktime = false
  \/ maxSize options < size st + TX.getNormalSizes (tx item)
  \/ maxSigops options < sigops_ st + sigops item.

(** A free transaction is left out once the block has its minimum
    size. *)
Definition freeAboveMinimum (options : MinerOptions) (st : State)
    (item : BlockEntry) : Prop :=
  free item = true
  /\ minSize options <= size st + TX.getNormalSizes (tx item).

(** The inputs of the item that spend a transaction of the mempool. *)
Definition parentCount (hasEntry : bytes -> bool) (item : BlockEntry) : Z :=
  len (filter (fun input => hasEntry (Outpoint.hash (Input.prevout input)) = true)
              (TX.inputs (tx item))).

(** The inputs of the item that spend the mempool transaction [hash]. *)
Definition spendCount (hasEntry : bytes -> bool) (item : BlockEntry)
    (hash : bytes) : Z :=
  if hasEntry hash
  then len (filter (fun input => Outpoint.hash (Input.prevout input) = hash)
                   (TX.inputs (tx item)))
  else 0.

(** The items that still wait for a parent, and a bound on the turns
    the loop can still take: every turn pops an item, a commit puts
    back only items that stop waiting, and the switch to the fee-rate
    order happens once. *)
Definition waiting (counts : gmap nat Z) : nat :=
  base.size (filter (fun entry : nat * Z => 0 < entry.2) counts).

Definition turns (st : State) : nat :=
  (length (queue st) + waiting (depCount st)
   + (if priorityPhase st then 1 else 0))%nat.

(** The inputs of the item that spend a mempool transaction which is
    not among [committed]. *)
Definition pending (hasEntry : bytes -> bool) (committed : list BlockEntry)
    (item : BlockEntry) : Z :=
  len (filter (fun input =>
                 hasEntry (Outpoint.hash (Input.prevout input)) = true
                 /\ Outpoint.hash (Input.prevout input) ∉ map hash committed)
              (TX.inputs (tx item))).

(** Every item of the list comes after the mempool transactions it
    spends. *)
Definition parentsFirst (hasEntry : bytes -> bool) (its : list BlockEntry)
  : Prop :=
  forall pre item post,
    its = pre ++ item :: post ->
    forall input,
      input ∈ TX.inputs (tx item) ->
      hasEntry (Outpoint.hash (Input.prevout input)) = true ->
      Outpoint.hash (Input.prevout input) ∈ map hash pre.

(** What seeding leaves in [depMap]: under every hash the items of the
    mempool that spend it, once per spending input. *)
Definition listed (hasEntry : bytes -> bool) (entries : list BlockEntry)
    (depMap : gmap bytes (list BlockEntry)) : Prop :=
  (forall item hash, item ∈ entries ->
     occurrences (id item) (default [] (depMap !! hash))
     = spendCount hasEntry item hash)
  /\ (forall hash dep, dep ∈ default [] (depMap !! hash) -> dep ∈ entries).

(** What the loop maintains: the heap and the template hold distinct
    mempool entries none of which waits for a parent, the count of
    every entry is the number of its inputs whose parent is not in the
    template yet, and the template is in dependency order. *)
Definition settled (hasEntry : bytes -> bool) (entries : list BlockEntry)
    (st : State) : Prop :=
  (forall item, item ∈ queue st ++ items st -> item ∈ entries)
  /\ NoDup (map id (queue st ++ items st))
  /\ (forall item, item ∈ entries ->
        getDepCount (depCount st) item = pending hasEntry (items st) item)
  /\ (forall item, item ∈ queue st ++ items st ->
        pending hasEntry (items st) item = 0)
  /\ parentsFirst hasEntry (items st).

End Miner.

(** ** blockchain/chain.js: the cash difficulty adjustment *)

Module Difficulty.
Import Consensus.
Local Open Scope Z_scope.

(** Modelled from the spec: [ChainEntry] (blockchain/chainentry.js is
    not among the sources), with the fields the retargeting reads. *)
Record ChainEntry := {
  height : Z;
  time : Z;
  bits : Z;
  chainwork : Z
}.

(** Modelled from the spec: the proof-of-work parameters of the main
    network (protocol/network.js is not among the sources): compact
    limit [0x1d00ffff], its 224-bit target, 600 seconds between
    blocks. *)
Definition pow_limit : Z := 2 ^ 224 - 1.
Definition pow_bits : Z := 0x1d00ffff.
Definition targetSpacing : Z := 600.

(** Modelled from the spec: [ChainEntry.getProof] (chainentry.js is not
    among the sources): the work of a block is the number of hashes
    expected to meet its target, [2^256 / (target + 1)]. *)
Definition getProof (bits : Z) : Z :=
  let target := fromCompact bits in
  if target <=? 0 then 0 else 2 ^ 256 / (target + 1).

(** The entries by height, as the test keeps them; [getAncestor] and
    [getPrevious] read this table. *)
Definition getAncestor (blocks : gmap Z ChainEntry) (height : Z)
  : option ChainEntry := blocks !! height.

Definition getPrevious (blocks : gmap Z ChainEntry) (entry : ChainEntry)
  : option ChainEntry := blocks !! (height entry - 1).

(** Modelled from the spec: [Chain.getSuitableBlock] (chain.js is not
    among the sources): the median by time of three blocks, to damp
    timestamp manipulation.  The three blocks are the block and its two
    predecessors: with this reading the model yields the six compact
    values test/difficulty-test.js expects. *)
Definition getSuitableBlock (blocks : gmap Z ChainEntry) (prev : ChainEntry)
  : option ChainEntry :=
  b1 ← getPrevious blocks prev;
  b0 ← getPrevious blocks b1;
  let b2 := prev in
  let '(b0, b2) := if time b2 <? time b0 then (b2, b0) else (b0, b2) in
  let '(b0, b1) := if time b1 <? time b0 then (b1, b0) else (b0, b1) in
  let '(b1, b2) := if time b2 <? time b1 then (b2, b1) else (b1, b2) in
  Some b1.

(** Modelled from the spec: the target of the cash difficulty
    adjustment (chain.js is not among the sources): the work gained
    over the window, spread over the timespan clamped to
    [[72, 288] * targetSpacing], gives the work expected per target
    spacing [W]; the next target is [2^256 / W - 1], computed as
    [(2^256 - W) / W]. *)
Definition computeTarget (first last : ChainEntry) : Z :=
  let work := chainwork last - chainwork first in
  let work := work * targetSpacing in
  let actualTimespan := time last - time first in
  let actualTimespan :=
    if 288 * targetSpacing <? actualTimespan then 288 * targetSpacing
    else if actualTimespan <? 72 * targetSpacing then 72 * targetSpacing
    else actualTimespan in
  let work := work / actualTimespan in
  (2 ^ 256 - work) / work.

(** Modelled from the spec: [Chain.getCashTarget(time, prev)] (chain.js
    is not among the sources): a sliding 144-block window ending at the
    parent, both ends taken at their suffix median, the result in
    compact form and never above the limit.  [None] when the table
    lacks a block of the window. *)
Definition getCashTarget (blocks : gmap Z ChainEntry) (prev : ChainEntry)
  : option Z :=
  last ← getSuitableBlock blocks prev;
  ancestor ← getAncestor blocks (height prev - 144);
  first ← getSuitableBlock blocks ancestor;
  let target := computeTarget first last in
  if pow_limit <? target then Some pow_bits else Some (toCompact target).

(** *** The scenario of test/difficulty-test.js *)

(** [getEntry(prev, time, bits)] of the test. *)
Definition getEntry (prev : ChainEntry) (spacing bits : Z) : ChainEntry :=
  {| height := height prev + 1;
     time := time prev + spacing;
     bits := bits;
     chainwork := getProof bits + chainwork prev |}.

(** [blocks[0]] of the test. *)
Definition genesis (bits : Z) : ChainEntry :=
  {| height := 0; time := 1269211443; bits := bits;
     chainwork := getProof bits |}.

(** The test state: the table, its tip and the current [bits]. *)
Record Scenario := {
  blocks : gmap Z ChainEntry;
  tip : ChainEntry;
  current : Z
}.

Definition start (target : Z) : Scenario :=
  let bits := toCompact target in
  {| blocks := {[ 0 := genesis bits ]}; tip := genesis bits; current := bits |}.

Definition push (s : Scenario) (spacing : Z) : Scenario :=
  let entry := getEntry (tip s) spacing (current s) in
  {| blocks := <[height entry := entry]> (blocks s); tip := entry;
     current := current s |}.

(** [n] blocks with the given spacing, all with the current [bits]. *)
Fixpoint pile (n : nat) (spacing : Z) (s : Scenario) : Scenario :=
  match n with
  | O => s
  | S k => pile k spacing (push s spacing)
  end.

(** [bits = await chain.getCashTarget(blocks[0].time, blocks[i])] *)
Definition retarget (s : Scenario) : option Scenario :=
  next ← getCashTarget (blocks s) (tip s);
  Some {| blocks := blocks s; tip := tip s; current := next |}.

(** [n] blocks with the given spacing, each followed by a retarget. *)
Fixpoint retargeting (n : nat) (spacing : Z) (s : Scenario) : option Scenario :=
  match n with
  | O => Some s
  | S k => s' ← retarget (push s spacing); retargeting k spacing s'
  end.

(** The steps of 'should test cash difficulty' up to its first literal
    value, from a given target: 2049 blocks on spacing after the
    genesis, ten more, a block 6000 s late and one 4800 s early, twenty
    on spacing, one after 550 s, then ten blocks after 550 s each with
    a retarget. *)
Definition testedSteps (target : Z) : option Scenario :=
  let s := start target in
  let s := pile 2049 600 s in
  s ← retarget s;
  let s := pile 10 600 s in
  let s := pile 1 6000 s in
  let s := pile 1 (2 * 600 - 6000) s in
  let s := pile 20 600 s in
  let s := pile 1 550 s in
  retargeting 10 550 s.

(** The test starts from [pow.limit >> 4]. *)
Definition testedSequence : option Z :=
  current <$> testedSteps (Z.shiftr pow_limit 4).

(** The later literal values of the test: after twenty blocks 10 s
    apart, one block after 6000 s, ninety-three more, one more, and
    192 more. *)
Definition testedLiterals : option (list Z) :=
  s0 ← testedSteps (Z.shiftr pow_limit 4);
  s1 ← retargeting 20 10 s0;
  s2 ← retargeting 1 6000 s1;
  s3 ← retargeting 93 6000 s2;
  s4 ← retargeting 1 6000 s3;
  s5 ← retargeting 192 6000 s4;
  Some [current s0; current s1; current s2; current s3; current s4; current s5].

(** The sequence as the claim words it: half the limit, 2049 blocks on
    spacing, then ten blocks after 550 s each with a retarget. *)
Definition claimedSequence : option Z :=
  let s := start (Z.shiftr pow_limit 1) in
  let s := pile 2049 600 s in
  s ← retargeting 10 550 s;
  Some (current s).

(** The steps of the test from half the limit. *)
Definition testedSequenceFromHalfLimit : option Z :=
  current <$> testedSteps (Z.shiftr pow_limit 1).

End Difficulty.

(** ** Worked examples *)

Module Examples.
Import Encoding.

Definition hashOf (b : Z) : bytes := repeat b 32.

Definition outpoint (b : Z) (index : Z) : Outpoint.t :=
  {| Outpoint.hash := hashOf b; Outpoint.index := index |}.

Definition spend (b : Z) (index : Z) : Input.t :=
  {| Input.prevout := outpoint b index; Input.script := [];
     Input.sequence := 0xffffffff |}.

Definition pay (value : Z) : Output.t :=
  {| Output.value := value; Output.script := [0x51] |}.

Definition mkTX (ins : list Input.t) (outs : list Output.t) : TX.t :=
  {| TX.version := 1; TX.inputs := ins; TX.outputs := outs;
     TX.locktime := 0; TX.mutable := false; TX._raw := None;
     TX._size := -1 |}.

Definition coin (value height : Z) (coinbase : bool) : CoinView.CoinEntry :=
  {| CoinView.output := pay value; CoinView.height := height;
     CoinView.coinbase := coinbase |}.

(** A view that resolves only [(hashOf 2, 0)], to a coinbase output
    created at height 0. *)
Definition youngCoinbaseView : gmap (bytes * Z) CoinView.CoinEntry :=
  {[ Outpoint.toKey (outpoint 2 0) := coin 5000000000 0 true ]}.

(** A coinbase paying 50 coins, and the block that holds only it.
    The toy digest is the identity and the toy merkle root the
    concatenation of the leaves. *)
Definition coinbaseTX : TX.t :=
  mkTX [{| Input.prevout := {| Outpoint.hash := Outpoint.ZERO_HASH;
                               Outpoint.index := 0xffffffff |};
           Input.script := [0x01; 0x01];
           Input.sequence := 0xffffffff |}]
       [pay 5000000000].

Definition toyDigest (data : bytes) : bytes := data.
Definition toyRoot (leaves : list bytes) : bytes * bool := (concat leaves, false).
Definition noSigops (script : bytes) : Z := 0.

Definition coinbaseBlock : Block.t :=
  {| Block.version := 1; Block.prevBlock := hashOf 0;
     Block.merkleRoot :=
       match TX.writeNormal coinbaseTX with JS.Ok data => data | _ => [] end;
     Block.time := 1231006505; Block.bits := 0x1d00ffff; Block.nonce := 0;
     Block.mutable := false; Block.txs := [coinbaseTX];
     Block._raw := None; Block._size := -1 |}.

(** A heap holding one free transaction, in the fee-rate phase, and
    options that leave it room. *)
Definition freeEntry : Miner.BlockEntry :=
  {| Miner.id := 0; Miner.tx := mkTX [spend 1 0] [pay 1];
     Miner.hash := hashOf 7; Miner.fee := 0; Miner.rate := 0;
     Miner.priority := 0; Miner.free := true; Miner.sigops := 1;
     Miner.descRate := 0 |}.

Definition paidEntry : Miner.BlockEntry :=
  {| Miner.id := 1; Miner.tx := mkTX [spend 2 0] [pay 1];
     Miner.hash := hashOf 8; Miner.fee := 1000; Miner.rate := 5000;
     Miner.priority := 0; Miner.free := false; Miner.sigops := 1;
     Miner.descRate := 0 |}.

Definition roomyOptions : Miner.MinerOptions :=
  {| Miner.minSize := 0; Miner.maxSize := 1000000;
     Miner.maxSigops := 20000; Miner.prioritySize := 0;
     Miner.priorityThreshold := 0 |}.

Definition feeRateState (heap : list Miner.BlockEntry) : Miner.State :=
  {| Miner.size := 1000; Miner.sigops_ := 100; Miner.fees := 0;
     Miner.items := []; Miner.queue := heap;
     Miner.priorityPhase := false; Miner.depCount := ∅ |}.

(** An entry that spends [paidEntry] and pays the higher fee rate, a
    mempool of the two, and the state assembly starts the loop from. *)
Definition childEntry : Miner.BlockEntry :=
  {| Miner.id := 2; Miner.tx := mkTX [spend 8 0] [pay 1];
     Miner.hash := hashOf 9; Miner.fee := 2000; Miner.rate := 9000;
     Miner.priority := 0; Miner.free := false; Miner.sigops := 1;
     Miner.descRate := 0 |}.

Definition mempoolHas (hash : bytes) : bool :=
  bool_decide (hash = hashOf 8) || bool_decide (hash = hashOf 9).

Definition seededState (counts : gmap nat Z) (heap : list Miner.BlockEntry)
  : Miner.State :=
  {| Miner.size := 1000; Miner.sigops_ := 100; Miner.fees := 0;
     Miner.items := []; Miner.queue := heap;
     Miner.priorityPhase := false; Miner.depCount := counts |}.

(** A 32-byte toy digest that depends on the size of the data, and a
    script-hash address. *)
Definition sizeDigest (data : bytes) : bytes := repeat (len data) 32.

Definition scriptAddress : Address.address :=
  {| Address.type := AddressRaw.SCRIPTHASH; Address.hash := repeat 7 20 |}.

(** A version-2 transaction locked until height 100, whose input
    carries the relative lock 10. *)
Definition lockedTX : TX.t :=
  {| TX.version := 2;
     TX.inputs := [{| Input.prevout := outpoint 1 0; Input.script := [];
                      Input.sequence := 10 |}];
     TX.outputs := [pay 1]; TX.locktime := 100; TX.mutable := false;
     TX._raw := None; TX._size := -1 |}.

End Examples.

(** * Verified properties *)

(** ** Reward schedule *)

Section RewardSchedule.
Import Consensus.

Lemma getReward_ok (height interval : Z) :
  0 <= height -> getReward height interval = JS.Ok (eraReward (height / interval)).
Proof.
  intros H. unfold getReward, eraReward, JS.assert, JS.bind.
  destruct (0 <=? height) eqn:E; [|lia].
  destruct (33 <=? height / interval); [done|].
  by destruct (height / interval =? 0).
Qed.

Lemma subsidy_era (interval height : Z) :
  0 <= height -> subsidy interval height = eraReward (height / interval).
Proof. intros H. unfold subsidy. by rewrite getReward_ok. Qed.

Lemma rewardSum_within_era (i e r : nat) :
  (0 < i)%nat -> (r <= i)%nat ->
  rewardSum (Z.of_nat i) (e * i + r) =
  Z.of_nat i * eraSum e + Z.of_nat r * eraReward (Z.of_nat e).
Proof.
  intros Hi. revert r. induction e as [|e IHe].
  - induction r as [|r IHr]; intros Hr; [simpl; lia|].
    simpl Nat.mul in *. simpl Nat.add in *. cbn [rewardSum].
    rewrite IHr by lia. rewrite subsidy_era by lia.
    rewrite Z.div_small by lia. change (Z.of_nat 0) with 0. lia.
  - induction r as [|r IHr]; intros Hr.
    + replace (S e * i + 0)%nat with (e * i + i)%nat by lia.
      rewrite IHe by lia. cbn [eraSum]. lia.
    + replace (S e * i + S r)%nat with (S (S e * i + r)) by lia.
      cbn [rewardSum]. rewrite IHr by lia. rewrite subsidy_era by lia.
      replace (Z.of_nat (S e * i + r) / Z.of_nat i) with (Z.of_nat (S e)).
      { lia. }
      apply Z.div_unique with (r := Z.of_nat r); lia.
Qed.

Lemma rewardSum_after_last_era (i n : nat) :
  (0 < i)%nat ->
  rewardSum (Z.of_nat i) (33 * i + n) = rewardSum (Z.of_nat i) (33 * i).
Proof.
  intros Hi. induction n as [|n IHn]; [f_equal; lia|].
  replace (33 * i + S n)%nat with (S (33 * i + n)) by lia.
  cbn [rewardSum]. rewrite IHn, subsidy_era by lia.
  unfold eraReward.
  assert (33 <= Z.of_nat (33 * i + n) / Z.of_nat i) as Hera.
  { apply Z.div_le_lower_bound; lia. }
  apply Z.leb_le in Hera. rewrite Hera. lia.
Qed.

Lemma eraSum_33 : eraSum 33 = 9999999989.
Proof. vm_compute. reflexivity. Qed.

Lemma rewardSum_total (i n : nat) :
  (0 < i)%nat -> (33 * i <= n)%nat ->
  rewardSum (Z.of_nat i) n = 9999999989 * Z.of_nat i.
Proof.
  intros Hi Hn. replace n with (33 * i + (n - 33 * i))%nat by lia.
  rewrite rewardSum_after_last_era by done.
  replace (33 * i)%nat with (33 * i + 0)%nat by lia.
  rewrite rewardSum_within_era by lia. rewrite eraSum_33. lia.
Qed.

Lemma rewardSum_totalZ (interval : Z) (n : nat) :
  0 < interval -> 33 * interval <= Z.of_nat n ->
  rewardSum interval n = 9999999989 * interval.
Proof.
  intros Hi Hn. rewrite <- (Z2Nat.id interval) by lia.
  apply rewardSum_total; lia.
Qed.

Lemma getReward_eras (interval h : Z) :
  0 < interval -> 0 <= h ->
  getReward h interval =
  JS.Ok (if 33 <=? h / interval then 0
         else if h / interval =? 0 then BASE_REWARD
         else Z.shiftr HALF_REWARD (h / interval - 1)).
Proof.
  intros Hi Hh. rewrite getReward_ok by done. unfold eraReward.
  destruct (Z.leb_spec 33 (h / interval)); [done|].
  destruct (Z.eqb_spec (h / interval) 0); [done|].
  assert (0 <= h / interval) by (apply Z.div_pos; lia).
  unfold JS.shr, JS.uint32. f_equal.
  change (HALF_REWARD mod 2 ^ 32) with HALF_REWARD.
  f_equal. apply Z.mod_small. lia.
Qed.

(** C1 (amended): for every positive halving interval, [getReward]
    pays [BASE_REWARD] in era 0, [HALF_REWARD >> (halvings - 1)] in
    eras 1..32 and nothing from era 33 on, so the sum of the rewards
    over all heights is finite; it equals [9999999989 * interval]
    satoshis, which for the interval 210000 of the main network is
    2099999997690000, strictly below [21000000 * COIN]. *)
Theorem getReward_total_supply (interval : Z) (n : nat) :
  0 < interval -> 33 * interval <= Z.of_nat n ->
  (forall h, 33 * interval <= h -> getReward h interval = JS.Ok 0)
  /\ (forall h, 0 <= h < interval -> getReward h interval = JS.Ok BASE_REWARD)
  /\ (forall h, interval <= h < 33 * interval ->
        getReward h interval =
        JS.Ok (Z.shiftr HALF_REWARD (h / interval - 1)))
  /\ rewardSum interval n = 9999999989 * interval
  /\ (interval = 210000 ->
        rewardSum interval n = 2099999997690000
        /\ rewardSum interval n < 21000000 * COIN).
Proof.
  intros Hi Hn. split; [|split; [|split; [|split]]].
  - intros h Hh. rewrite getReward_eras by lia.
    assert (33 <= h / interval) as Hera by (apply Z.div_le_lower_bound; lia).
    apply Z.leb_le in Hera. by rewrite Hera.
  - intros h Hh. rewrite getReward_eras by lia.
    rewrite Z.div_small by lia. done.
  - intros h Hh. rewrite getReward_eras by lia.
    assert (1 <= h / interval) by (apply Z.div_le_lower_bound; lia).
    assert (h / interval < 33) by (apply Z.div_lt_upper_bound; lia).
    destruct (Z.leb_spec 33 (h / interval)); [lia|].
    destruct (Z.eqb_spec (h / interval) 0); [lia|done].
  - by apply rewardSum_totalZ.
  - intros ->. rewrite rewardSum_totalZ by done. by vm_compute.
Qed.

Lemma getReward_total_supply_witness :
  rewardSum 210000 (Z.to_nat 6930000) = 2099999997690000
  /\ getReward 6930000 210000 = JS.Ok 0.
Proof.
  destruct (getReward_total_supply 210000 (Z.to_nat 6930000))
    as (Hzero & _ & _ & _ & Hmain); [lia | lia |].
  split; [apply Hmain; reflexivity | apply Hzero; lia].
Defined.

(** C1 as stated fails: with the halving interval 210000 of the main
    network the rewards of all heights add up to 2099999997690000
    satoshis, not to [21000000 * COIN]. *)
Lemma getReward_sum_is_not_max_money :
  rewardSum 210000 (Z.to_nat 6930000) <> 21000000 * COIN.
Proof.
  rewrite rewardSum_totalZ by lia. by vm_compute.
Qed.

End RewardSchedule.

(** ** 32-bit operators on small operands *)

Section JSFacts.
Import JS.

Lemma uint32_small z : 0 <= z < 2 ^ 32 -> uint32 z = z.
Proof. intros H. unfold uint32. by apply Z.mod_small. Qed.

Lemma int32_small z : - 2 ^ 31 <= z < 2 ^ 31 -> int32 z = z.
Proof. intros H. unfold int32. rewrite Z.mod_small; lia. Qed.

Lemma int32_mod z : int32 z mod 2 ^ 32 = z mod 2 ^ 32.
Proof.
  unfold int32. rewrite Zminus_mod_idemp_l. f_equal. lia.
Qed.

Lemma int32_mod_low z n : 0 <= n <= 32 -> int32 z mod 2 ^ n = z mod 2 ^ n.
Proof.
  intros Hn.
  assert (2 ^ 32 = 2 ^ (32 - n) * 2 ^ n) as Hpow.
  { rewrite <- Z.pow_add_r by lia. f_equal. lia. }
  assert (int32 z = z + (- ((z + 2 ^ 31) / 2 ^ 32) * 2 ^ (32 - n)) * 2 ^ n) as ->.
  { unfold int32. rewrite Z.mod_eq by lia.
    rewrite <- Z.mul_assoc, <- Hpow. lia. }
  apply Z.mod_add. apply Z.pow_nonzero; lia.
Qed.

Lemma lor_mod_pow2 a b n :
  0 <= n -> Z.lor a b mod 2 ^ n = Z.lor (a mod 2 ^ n) (b mod 2 ^ n).
Proof.
  intros Hn. rewrite <- !Z.land_ones by done. apply Z.land_lor_distr_l.
Qed.

Lemma lor_disjoint_add e m n :
  0 <= n -> 0 <= m < 2 ^ n -> Z.lor (e * 2 ^ n) m = e * 2 ^ n + m.
Proof.
  intros Hn Hm.
  assert (Z.land (e * 2 ^ n) m = 0) as Hdisj.
  { apply Z.bits_inj'. intros i Hi. rewrite Z.land_spec, Z.bits_0.
    destruct (Z.lt_ge_cases i n) as [Hlt|Hge].
    - rewrite Z.mul_pow2_bits_low by lia. done.
    - destruct (Z.eq_dec m 0) as [->|Hm0].
      + rewrite Z.bits_0. apply andb_false_r.
      + rewrite (Z.bits_above_log2 m i); [apply andb_false_r|lia|].
        apply Z.log2_lt_pow2; [lia|].
        eapply Z.lt_le_trans; [apply Hm|]. apply Z.pow_le_mono_r; lia. }
  rewrite <- Z.lxor_lor by done. symmetry. by apply Z.add_nocarry_lxor.
Qed.

Lemma land_single_bit a n :
  0 <= n -> 0 <= a < 2 ^ (n + 1) ->
  Z.land a (2 ^ n) = if a <? 2 ^ n then 0 else 2 ^ n.
Proof.
  intros Hn Ha.
  assert (Z.land a (2 ^ n) = if Z.testbit a n then 2 ^ n else 0) as ->.
  { apply Z.bits_inj'. intros i Hi. rewrite Z.land_spec, Z.pow2_bits_eqb by done.
    destruct (Z.eqb_spec n i) as [->|Hne].
    - destruct (Z.testbit a i); [by rewrite Z.pow2_bits_true|by rewrite Z.bits_0].
    - rewrite andb_false_r.
      destruct (Z.testbit a n); [by rewrite Z.pow2_bits_false|by rewrite Z.bits_0]. }
  assert (0 < 2 ^ n) by (apply Z.pow_pos_nonneg; lia).
  assert (2 ^ (n + 1) = 2 * 2 ^ n) as Hs by (rewrite Z.pow_add_r by lia; lia).
  destruct (Z.ltb_spec a (2 ^ n)) as [Hlt|Hge].
  - destruct (Z.testbit a n) eqn:Hb; [|done].
    apply Z.testbit_true in Hb; [|done].
    rewrite Z.div_small in Hb by lia. done.
  - destruct (Z.testbit a n) eqn:Hb; [done|].
    assert (a / 2 ^ n = 1) as Hq.
    { symmetry. apply Z.div_unique with (r := a - 2 ^ n); lia. }
    assert (Z.testbit a n = true) as Hb'.
    { apply Z.testbit_true; [done|]. by rewrite Hq. }
    congruence.
Qed.

Lemma and_ones x k : 0 <= k <= 31 -> and x (Z.ones k) = x mod 2 ^ k.
Proof.
  intros Hk. unfold and.
  assert (0 < 2 ^ k <= 2 ^ 31) as Hp.
  { split; [apply Z.pow_pos_nonneg; lia | apply Z.pow_le_mono_r; lia]. }
  assert (int32 (Z.ones k) = Z.ones k) as ->.
  { apply int32_small. rewrite Z.ones_equiv. lia. }
  rewrite Z.land_ones by lia.
  pose proof (Z.mod_pos_bound (int32 x) (2 ^ k)).
  rewrite int32_small by lia. apply int32_mod_low. lia.
Qed.

Lemma shr_small a b : 0 <= a < 2 ^ 32 -> 0 <= b < 32 -> shr a b = Z.shiftr a b.
Proof.
  intros Ha Hb. unfold shr. rewrite uint32_small by done.
  by rewrite Z.mod_small.
Qed.

(** [(e << 24 | m) >>> 0] puts [e] in the top byte. *)
Lemma pack_fields e m :
  0 <= e <= 255 -> 0 <= m < 2 ^ 24 ->
  shr (or (shl e 24) m) 0 = e * 2 ^ 24 + m.
Proof.
  intros He Hm. unfold shr, or, shl, uint32.
  change (0 mod 32) with 0. change (24 mod 32) with 24.
  rewrite Z.shiftr_0_r, int32_mod, lor_mod_pow2 by lia.
  rewrite !int32_mod. rewrite (int32_small e) by lia.
  rewrite Z.shiftl_mul_pow2 by lia.
  rewrite !Z.mod_small by lia. apply lor_disjoint_add; lia.
Qed.

End JSFacts.

(** ** Compact target codec *)

Section CompactCodec.
Import Consensus.

Lemma byteLength_bounds t :
  0 < t ->
  1 <= byteLength t
  /\ 2 ^ (8 * (byteLength t - 1)) <= t < 2 ^ (8 * byteLength t).
Proof.
  intros Ht. unfold byteLength, bitLength.
  destruct (Z.eqb_spec t 0) as [|_]; [lia|].
  rewrite Z.abs_eq by lia.
  pose proof (Z.log2_nonneg t) as HL.
  destruct (Z.log2_spec t Ht) as [Hlo Hhi].
  set (L := Z.log2 t) in *.
  pose proof (Z.div_mod (L + 1 + 7) 8 ltac:(lia)) as Hdm.
  pose proof (Z.mod_pos_bound (L + 1 + 7) 8 ltac:(lia)) as Hr.
  set (n := (L + 1 + 7) / 8) in *.
  split; [lia|]. split.
  - eapply Z.le_trans; [|apply Hlo]. apply Z.pow_le_mono_r; lia.
  - eapply Z.lt_le_trans; [apply Hhi|]. apply Z.pow_le_mono_r; lia.
Qed.

(** Decoding a compact whose fields are [e], sign bit [b], mantissa [m]. *)
Lemma fromCompact_fields e b m :
  0 <= e <= 255 -> 0 <= b <= 1 -> 0 <= m < 2 ^ 23 ->
  e * 2 ^ 24 + b * 2 ^ 23 + m <> 0 ->
  fromCompact (e * 2 ^ 24 + b * 2 ^ 23 + m) =
  let num := if e <=? 3 then Z.shiftr m (8 * (3 - e))
             else Z.shiftl m (8 * (e - 3)) in
  if b =? 0 then num else - num.
Proof.
  intros He Hb Hm Hnz. unfold fromCompact.
  set (c := e * 2 ^ 24 + b * 2 ^ 23 + m) in *.
  destruct (Z.eqb_spec c 0) as [|_]; [done|].
  assert (0 <= c < 2 ^ 32) as Hc by (unfold c; lia).
  rewrite !shr_small by lia. rewrite !Z.shiftr_div_pow2 by lia.
  assert (c / 2 ^ 24 = e) as ->.
  { symmetry. apply Z.div_unique with (r := b * 2 ^ 23 + m); unfold c; lia. }
  assert (c / 2 ^ 23 = 2 * e + b) as ->.
  { symmetry. apply Z.div_unique with (r := m); unfold c; lia. }
  change 1 with (Z.ones 1) at 1. change 0x7fffff with (Z.ones 23).
  rewrite !and_ones by lia.
  assert ((2 * e + b) mod 2 ^ 1 = b) as ->.
  { symmetry. apply Z.mod_unique with (q := e); lia. }
  assert (c mod 2 ^ 23 = m) as ->.
  { symmetry. apply Z.mod_unique with (q := 2 * e + b); unfold c; lia. }
  cbv zeta. destruct (Z.leb_spec e 3) as [Hle|Hgt]; [|done].
  rewrite shr_small by lia. by rewrite Z.shiftr_div_pow2 by lia.
Qed.

Lemma rawMantissa_bounds t :
  0 < t -> 2 ^ 16 <= rawMantissa t < 2 ^ 24.
Proof.
  intros Ht. destruct (byteLength_bounds t Ht) as (Hn & Hlo & Hhi).
  unfold rawMantissa. set (n := byteLength t) in *.
  destruct (Z.leb_spec n 3) as [Hle|Hgt].
  - rewrite Z.shiftl_mul_pow2 by lia.
    assert (n = 1 \/ n = 2 \/ n = 3) as [-> | [-> | ->]] by lia;
      cbn in Hlo, Hhi |- *; lia.
  - rewrite Z.shiftr_div_pow2 by lia.
    set (a := 2 ^ (8 * (n - 3))).
    assert (0 < a) by (apply Z.pow_pos_nonneg; lia).
    assert (2 ^ (8 * (n - 1)) = 2 ^ 16 * a) as Hl.
    { unfold a. rewrite <- Z.pow_add_r by lia. f_equal. lia. }
    assert (2 ^ (8 * n) = 2 ^ 24 * a) as Hh.
    { unfold a. rewrite <- Z.pow_add_r by lia. f_equal. lia. }
    split.
    + apply Z.div_le_lower_bound; lia.
    + apply Z.div_lt_upper_bound; lia.
Qed.

(** Encoding a positive number whose exponent fits the top byte. *)
Lemma toCompact_pos t :
  0 < t ->
  byteLength t + (if rawMantissa t <? 2 ^ 23 then 0 else 1) <= 255 ->
  toCompact t =
  if rawMantissa t <? 2 ^ 23 then byteLength t * 2 ^ 24 + rawMantissa t
  else (byteLength t + 1) * 2 ^ 24 + Z.shiftr (rawMantissa t) 8.
Proof.
  intros Ht Hfit. pose proof (rawMantissa_bounds t Ht) as Hm0.
  destruct (byteLength_bounds t Ht) as (Hn & Hlo & Hhi).
  unfold toCompact. destruct (Z.eqb_spec t 0) as [|_]; [lia|].
  destruct (Z.ltb_spec t 0) as [|_]; [lia|].
  assert ((if byteLength t <=? 3
           then JS.shl t (8 * (3 - byteLength t))
           else ushrn t (8 * (byteLength t - 3))) = rawMantissa t) as ->.
  { unfold rawMantissa in *. set (n := byteLength t) in *.
    destruct (Z.leb_spec n 3) as [Hle|Hgt].
    - assert (t < 2 ^ 24).
      { eapply Z.lt_le_trans; [apply Hhi|]. apply Z.pow_le_mono_r; lia. }
      unfold JS.shl. rewrite (int32_small t) by lia.
      rewrite (Z.mod_small (8 * (3 - n))) by lia.
      apply int32_small. lia.
    - unfold ushrn. rewrite Z.sgn_pos, Z.abs_eq by lia. lia. }
  set (n := byteLength t) in *. set (m0 := rawMantissa t) in *.
  assert (JS.and m0 0x800000 = if m0 <? 2 ^ 23 then 0 else 2 ^ 23) as ->.
  { unfold JS.and. rewrite (int32_small m0), (int32_small 0x800000) by lia.
    change 0x800000 with (2 ^ 23). rewrite land_single_bit by (cbn; lia).
    destruct (m0 <? 2 ^ 23); by apply int32_small. }
  destruct (Z.ltb_spec m0 (2 ^ 23)) as [Hlt|Hge]; cbn [Z.eqb].
  - apply pack_fields; lia.
  - change (2 ^ 23 =? 0) with false. cbv iota.
    assert (JS.sar m0 8 = Z.shiftr m0 8) as ->.
    { unfold JS.sar. by rewrite int32_small by lia. }
    assert (0 <= Z.shiftr m0 8 < 2 ^ 16).
    { rewrite Z.shiftr_div_pow2 by lia. split.
      - apply Z.div_pos; lia.
      - apply Z.div_lt_upper_bound; lia. }
    apply pack_fields; lia.
Qed.

(** A positive representable target is a 23-bit mantissa shifted by
    whole bytes. *)
Lemma representable_scaled t :
  representable t -> 0 < t ->
  exists m k, 0 <= k <= 252 /\ 0 < m < 2 ^ 23 /\ t = m * 2 ^ (8 * k).
Proof.
  intros (c & Hc & Hdec) Ht.
  assert (c <> 0) as Hnz by (intros ->; cbn in Hdec; lia).
  set (e := c / 2 ^ 24). set (b := (c / 2 ^ 23) mod 2). set (m := c mod 2 ^ 23).
  assert (0 <= e <= 255).
  { unfold e. split; [apply Z.div_pos; lia|].
    apply Z.lt_succ_r. apply Z.div_lt_upper_bound; lia. }
  assert (0 <= b <= 1) by (unfold b; pose proof (Z.mod_pos_bound (c / 2 ^ 23) 2); lia).
  assert (0 <= m < 2 ^ 23) by (unfold m; apply Z.mod_pos_bound; lia).
  assert (c = e * 2 ^ 24 + b * 2 ^ 23 + m) as Hfields.
  { unfold e, b, m.
    pose proof (Z.div_mod c (2 ^ 23) ltac:(lia)).
    pose proof (Z.div_mod (c / 2 ^ 23) 2 ltac:(lia)).
    assert (c / 2 ^ 24 = c / 2 ^ 23 / 2) as ->.
    { rewrite Z.div_div by lia. done. }
    lia. }
  rewrite Hfields in Hdec, Hnz. rewrite fromCompact_fields in Hdec by done.
  cbv zeta in Hdec.
  assert (0 <= (if e <=? 3 then Z.shiftr m (8 * (3 - e))
                else Z.shiftl m (8 * (e - 3)))) as Hnum.
  { destruct (e <=? 3); [apply Z.shiftr_nonneg | apply Z.shiftl_nonneg]; lia. }
  destruct (Z.eqb_spec b 0) as [_|_]; [|lia].
  destruct (Z.leb_spec e 3) as [Hle|Hgt].
  - exists t, 0. repeat split; [lia|lia|lia| |cbn; lia].
    rewrite <- Hdec, Z.shiftr_div_pow2 by lia.
    apply Z.le_lt_trans with m; [|lia].
    apply Z.div_le_upper_bound; [apply Z.pow_pos_nonneg; lia|].
    assert (1 <= 2 ^ (8 * (3 - e))) by (apply (Z.pow_le_mono_r 2 0); lia).
    nia.
  - rewrite Z.shiftl_mul_pow2 in Hdec by lia.
    exists m, (e - 3). repeat split; [lia|lia| |lia|done].
    destruct (Z.eq_dec m 0) as [->|]; lia.
Qed.

Lemma shift_back m k a :
  0 <= a <= 8 * k ->
  Z.shiftl (Z.shiftr (m * 2 ^ (8 * k)) a) a = m * 2 ^ (8 * k).
Proof.
  intros Ha. rewrite Z.shiftr_div_pow2, Z.shiftl_mul_pow2 by lia.
  assert (2 ^ (8 * k) = 2 ^ (8 * k - a) * 2 ^ a) as ->.
  { rewrite <- Z.pow_add_r by lia. f_equal. lia. }
  rewrite Z.mul_assoc, Z.div_mul; [done|]. apply Z.pow_nonzero; lia.
Qed.

Lemma rawMantissa_high t :
  0 < t -> 3 <= byteLength t ->
  rawMantissa t = Z.shiftr t (8 * (byteLength t - 3)).
Proof.
  intros Ht Hn. unfold rawMantissa.
  destruct (Z.leb_spec (byteLength t) 3) as [Hle|Hgt]; [|done].
  assert (byteLength t = 3) as -> by lia. done.
Qed.

Lemma compact_roundtrip_scaled m k :
  0 <= k <= 252 -> 0 < m < 2 ^ 23 ->
  fromCompact (toCompact (m * 2 ^ (8 * k))) = m * 2 ^ (8 * k).
Proof.
  intros Hk Hm.
  assert (0 < 2 ^ (8 * k)) as Hpk by (apply Z.pow_pos_nonneg; lia).
  assert (0 < m * 2 ^ (8 * k)) as Ht by nia.
  assert (m * 2 ^ (8 * k) < 2 ^ (23 + 8 * k)) as Htop.
  { rewrite Z.pow_add_r by lia. nia. }
  destruct (byteLength_bounds _ Ht) as (Hn & Hlo & Hhi).
  pose proof (rawMantissa_bounds _ Ht) as Hm0.
  assert (byteLength (m * 2 ^ (8 * k)) <= k + 3) as Hnk.
  { assert (8 * (byteLength (m * 2 ^ (8 * k)) - 1) < 23 + 8 * k); [|lia].
    apply (Z.pow_lt_mono_r_iff 2); lia. }
  assert (2 ^ 23 <= rawMantissa (m * 2 ^ (8 * k)) ->
          3 <= byteLength (m * 2 ^ (8 * k)) ->
          byteLength (m * 2 ^ (8 * k)) <= k + 2) as Hnk'.
  { intros Hge H3. rewrite rawMantissa_high in Hge by done.
    rewrite Z.shiftr_div_pow2 in Hge by lia.
    set (a := 8 * (byteLength (m * 2 ^ (8 * k)) - 3)) in *.
    assert (0 < 2 ^ a) by (apply Z.pow_pos_nonneg; lia).
    pose proof (Z.mul_div_le (m * 2 ^ (8 * k)) (2 ^ a) ltac:(lia)).
    assert (2 ^ (23 + a) <= m * 2 ^ (8 * k)).
    { rewrite Z.pow_add_r by lia. nia. }
    assert (23 + a < 23 + 8 * k); [|lia].
    apply (Z.pow_lt_mono_r_iff 2); lia. }
  rewrite toCompact_pos; [|done|destruct (Z.ltb_spec (rawMantissa (m * 2 ^ (8 * k))) (2 ^ 23)); lia].
  set (t := m * 2 ^ (8 * k)) in *. set (n := byteLength t) in *.
  destruct (Z.ltb_spec (rawMantissa t) (2 ^ 23)) as [Hlt|Hge].
  - replace (n * 2 ^ 24 + rawMantissa t)
      with (n * 2 ^ 24 + 0 * 2 ^ 23 + rawMantissa t) by lia.
    rewrite fromCompact_fields by lia. cbn [Z.eqb]. cbv zeta.
    unfold rawMantissa. fold n.
    destruct (Z.leb_spec n 3) as [Hle|Hgt].
    + rewrite Z.shiftr_shiftl_l by lia. rewrite Z.sub_diag. apply Z.shiftl_0_r.
    + apply shift_back. lia.
  - assert (0 <= Z.shiftr (rawMantissa t) 8 < 2 ^ 16).
    { rewrite Z.shiftr_div_pow2 by lia. split.
      - apply Z.div_pos; lia.
      - apply Z.div_lt_upper_bound; lia. }
    replace ((n + 1) * 2 ^ 24 + Z.shiftr (rawMantissa t) 8)
      with ((n + 1) * 2 ^ 24 + 0 * 2 ^ 23 + Z.shiftr (rawMantissa t) 8) by lia.
    rewrite fromCompact_fields by lia. cbn [Z.eqb]. cbv zeta.
    destruct (Z.leb_spec (n + 1) 3) as [Hle|Hgt].
    + unfold rawMantissa. fold n.
      destruct (Z.leb_spec n 3) as [_|]; [|lia].
      rewrite Z.shiftr_shiftr by lia. rewrite Z.shiftr_shiftl_l by lia.
      replace (8 * (3 - n) - (8 + 8 * (3 - (n + 1)))) with 0 by lia.
      apply Z.shiftl_0_r.
    + rewrite rawMantissa_high by lia. fold n.
      rewrite Z.shiftr_shiftr by lia.
      replace (8 * (n + 1 - 3)) with (8 * (n - 3) + 8) by lia.
      apply shift_back. specialize (Hnk' Hge). lia.
Qed.

(** C3: every positive target in the image of [fromCompact] is a fixed
    point of encoding followed by decoding. *)
Theorem compact_roundtrip (t : Z) :
  representable t -> 0 < t -> fromCompact (toCompact t) = t.
Proof.
  intros Hrep Ht.
  destruct (representable_scaled t Hrep Ht) as (m & k & Hk & Hm & ->).
  by apply compact_roundtrip_scaled.
Qed.

Lemma compact_roundtrip_witness :
  fromCompact (toCompact (0xffff * 2 ^ 208)) = 0xffff * 2 ^ 208.
Proof.
  apply (compact_roundtrip (0xffff * 2 ^ 208)).
  - exists 0x1d00ffff. split; [lia | reflexivity].
  - lia.
Defined.

End CompactCodec.

(** ** Address string dispatch *)

Section AddressDispatch.
Import Address.

Lemma forall_range (f : Z -> bool) (lo : Z) (n : nat) :
  forallb f (map (fun i => lo + Z.of_nat i) (seq 0 n)) = true ->
  forall z, lo <= z < lo + Z.of_nat n -> f z = true.
Proof.
  intros Hall z Hz. rewrite forallb_forall in Hall. apply Hall.
  apply in_map_iff. exists (Z.to_nat (z - lo)). split; [lia|].
  apply in_seq. lia.
Qed.

Lemma lower_has_bit5 ch : isLower ch = true -> (JS.and ch 32 =? 0) = false.
Proof.
  intros H. unfold isLower in H. apply andb_prop in H as [H1 H2].
  apply negb_true_iff.
  apply (forall_range (fun c => negb (JS.and c 32 =? 0)) 0x61 26); [by vm_compute | lia].
Qed.

Lemma upper_lacks_bit5 ch : isUpper ch = true -> (JS.and ch 32 =? 0) = true.
Proof.
  intros H. unfold isUpper in H. apply andb_prop in H as [H1 H2].
  apply (forall_range (fun c => JS.and c 32 =? 0) 0x41 26); [by vm_compute | lia].
Qed.

Lemma address_char_cases ch :
  isAddressChar ch = true ->
  (isDigit ch = true /\ isLower ch = false /\ isUpper ch = false)
  \/ (isDigit ch = false /\ isColon ch = true /\ isLower ch = false
      /\ isUpper ch = false)
  \/ (isDigit ch = false /\ isColon ch = false /\ isLower ch = true
      /\ isUpper ch = false)
  \/ (isDigit ch = false /\ isColon ch = false /\ isLower ch = false
      /\ isUpper ch = true).
Proof.
  unfold isAddressChar, isDigit, isColon, isLower, isUpper. intros H.
  destruct (Z.leb_spec 0x30 ch), (Z.leb_spec ch 0x39), (Z.eqb_spec ch 0x3a),
    (Z.leb_spec 0x61 ch), (Z.leb_spec ch 0x7a), (Z.leb_spec 0x41 ch),
    (Z.leb_spec ch 0x5a); cbn in H |- *; try discriminate; try lia; tauto.
Qed.

(** On strings of address characters the scan never asserts and
    answers whether both cases occur. *)
Lemma isMixedCase_loop_valid str lower upper :
  Forall (fun ch => isAddressChar ch = true) str ->
  lower && upper = false ->
  isMixedCase_loop str lower upper =
  JS.Ok ((lower || hasLower str) && (upper || hasUpper str)).
Proof.
  intros Hall. revert lower upper.
  induction Hall as [|ch rest Hch _ IH]; intros lower upper Hflags.
  - cbn. by rewrite !orb_false_r, Hflags.
  - cbn [isMixedCase_loop hasLower hasUpper existsb].
    fold (hasLower rest) (hasUpper rest).
    destruct (address_char_cases ch Hch)
      as [(-> & -> & ->)|[(-> & -> & -> & ->)|[(-> & -> & Hl & ->)|(-> & -> & -> & Hu)]]].
    + cbn. by apply IH.
    + cbn. by apply IH.
    + rewrite (lower_has_bit5 ch Hl), Hl. cbn.
      destruct upper; cbn; [by rewrite orb_true_r|].
      rewrite IH by done. cbn. by rewrite orb_true_r.
    + rewrite (upper_lacks_bit5 ch Hu), Hu. cbn.
      destruct lower; cbn.
      * by rewrite !orb_true_r.
      * rewrite IH by done. cbn. by rewrite !orb_true_r.
Qed.

(** A character outside the address alphabet fails whichever
    assertion the scan takes. *)
Lemma isMixedCase_loop_bad ch rest lower upper :
  isAddressChar ch = false ->
  isMixedCase_loop (ch :: rest) lower upper = JS.AssertionError.
Proof.
  unfold isAddressChar. intros H.
  apply orb_false_elim in H as [H Hu]. apply orb_false_elim in H as [H Hl].
  apply orb_false_elim in H as [Hd Hc].
  cbn [isMixedCase_loop]. rewrite Hd, Hc, Hl, Hu.
  by destruct (JS.and ch 32 =? 0).
Qed.

Lemma isMixedCase_loop_prefix pre bad post lower upper :
  Forall (fun ch => isAddressChar ch = true) pre ->
  isAddressChar bad = false ->
  lower && upper = false ->
  (lower || hasLower pre) && (upper || hasUpper pre) = false ->
  isMixedCase_loop (pre ++ bad :: post) lower upper = JS.AssertionError.
Proof.
  intros Hall Hbad. revert lower upper.
  induction Hall as [|ch rest Hch _ IH]; intros lower upper Hflags Hpre.
  - by apply isMixedCase_loop_bad.
  - cbn [app isMixedCase_loop]. revert Hpre.
    cbn [hasLower hasUpper existsb]. fold (hasLower rest) (hasUpper rest).
    destruct (address_char_cases ch Hch)
      as [(-> & -> & ->)|[(-> & -> & -> & ->)|[(-> & -> & Hl & ->)|(-> & -> & -> & Hu)]]].
    + cbn. by apply IH.
    + cbn. by apply IH.
    + rewrite (lower_has_bit5 ch Hl), Hl. cbn. rewrite orb_true_r. cbn.
      destruct upper; cbn; [done|]. intros Hpre. by apply IH.
    + rewrite (upper_lacks_bit5 ch Hu), Hu. cbn. rewrite !orb_true_r, andb_true_r.
      destruct lower; cbn; [done|]. intros Hpre. apply IH; [done|].
      cbn. by rewrite Hpre.
Qed.

(** Once both cases have been met, the scan answers without reading
    further. *)
Lemma isMixedCase_loop_mixed pre rest lower upper :
  Forall (fun ch => isAddressChar ch = true) pre ->
  lower && upper = false ->
  (lower || hasLower pre) && (upper || hasUpper pre) = true ->
  isMixedCase_loop (pre ++ rest) lower upper = JS.Ok true.
Proof.
  intros Hall. revert lower upper.
  induction Hall as [|ch others Hch _ IH]; intros lower upper Hflags Hmixed.
  - cbn in Hmixed. rewrite !orb_false_r in Hmixed. congruence.
  - cbn [app isMixedCase_loop]. revert Hmixed.
    cbn [hasLower hasUpper existsb]. fold (hasLower others) (hasUpper others).
    destruct (address_char_cases ch Hch)
      as [(-> & -> & ->)|[(-> & -> & -> & ->)|[(-> & -> & Hl & ->)|(-> & -> & -> & Hu)]]].
    + cbn. by apply IH.
    + cbn. by apply IH.
    + rewrite (lower_has_bit5 ch Hl), Hl. cbn. rewrite orb_true_r. cbn.
      destruct upper; cbn; [done|]. intros Hmixed. by apply IH.
    + rewrite (upper_lacks_bit5 ch Hu), Hu. cbn. rewrite !orb_true_r, andb_true_r.
      destruct lower; cbn; [done|]. intros Hmixed. apply IH; [done|].
      cbn. by rewrite Hmixed.
Qed.

(** C9 (amended): for every address string of 1 to 100 characters,
    [fromString] parses it via Base58 only, never attempting cashaddr
    decoding, when an uppercase and a lowercase letter both occur
    before any character other than an ASCII digit, an ASCII letter or
    ':'; when the string is made only of ASCII digits, ASCII letters and
    ':' and is not mixed-case, it first attempts cashaddr decoding and,
    if that throws, falls back to Base58 decoding. *)
Theorem fromString_dispatch
    (fromBase58 fromCashAddr : jsstring -> JS.result address)
    (addr : jsstring) :
  (0 < length addr <= 100)%nat ->
  (forall pre rest,
      addr = pre ++ rest ->
      Forall (fun ch => isAddressChar ch = true) pre ->
      hasLower pre && hasUpper pre = true ->
      fromString fromBase58 fromCashAddr addr = ([Base58], fromBase58 addr))
  /\ (Forall (fun ch => isAddressChar ch = true) addr ->
      hasLower addr && hasUpper addr = false ->
      fromString fromBase58 fromCashAddr addr =
      match fromCashAddr addr with
      | JS.Ok a => ([CashAddr], JS.Ok a)
      | _ => ([CashAddr; Base58], fromBase58 addr)
      end).
Proof.
  intros Hlen. unfold fromString, isMixedCase.
  destruct (Z.ltb_spec 0 (Z.of_nat (length addr))) as [_|]; [|lia].
  destruct (Z.leb_spec (Z.of_nat (length addr)) 100) as [_|]; [|lia].
  cbn [JS.assert JS.bind]. split.
  - intros pre rest -> Hpre Hmixed.
    by rewrite isMixedCase_loop_mixed.
  - intros Hall Hplain.
    rewrite isMixedCase_loop_valid by done. cbn [orb]. by rewrite Hplain.
Qed.

Lemma fromString_dispatch_witness :
  fromString acceptAll (fun _ => JS.Error "Invalid cashaddr checksum")
    [0x31; 0x4d; 0x69; 0x72] = ([Base58], acceptAll [0x31; 0x4d; 0x69; 0x72])
  /\ fromString acceptAll (fun _ => JS.Error "Invalid cashaddr checksum")
    [0x71; 0x72; 0x33; 0x35] =
    ([CashAddr; Base58], acceptAll [0x71; 0x72; 0x33; 0x35]).
Proof.
  split.
  - destruct (fromString_dispatch acceptAll
                (fun _ => JS.Error "Invalid cashaddr checksum")
                [0x31; 0x4d; 0x69; 0x72]) as [Hmixed _].
    + simpl. lia.
    + apply (Hmixed [0x31; 0x4d; 0x69] [0x72]).
      * reflexivity.
      * repeat constructor.
      * reflexivity.
  - destruct (fromString_dispatch acceptAll
                (fun _ => JS.Error "Invalid cashaddr checksum")
                [0x71; 0x72; 0x33; 0x35]) as [_ Hplain].
    + simpl. lia.
    + apply Hplain.
      * repeat constructor.
      * reflexivity.
Defined.

(** C9 as stated fails: the string "a-B" contains both an uppercase
    and a lowercase letter, yet [fromString] parses it with no decoder
    at all: the scan asserts on '-'. *)
Lemma fromString_mixed_case_not_base58 :
  hasLower [0x61; 0x2d; 0x42] = true
  /\ hasUpper [0x61; 0x2d; 0x42] = true
  /\ fromString acceptAll acceptAll [0x61; 0x2d; 0x42]
     = ([], JS.AssertionError).
Proof. by vm_compute. Qed.

(** C10 (amended): for every string of at most 100 characters whose
    first character other than an ASCII digit, an ASCII letter or ':'
    comes before the scan has met both a lowercase and an uppercase
    letter, [fromString] throws an assertion failure from the
    mixed-case scan; no decoder is attempted, and the failure is not
    turned into a parse error by the cashaddr-to-Base58 fallback. *)
Theorem fromString_bad_char_asserts
    (fromBase58 fromCashAddr : jsstring -> JS.result address)
    (pre : jsstring) (bad : Z) (post : jsstring) :
  (length (pre ++ bad :: post) <= 100)%nat ->
  Forall (fun ch => isAddressChar ch = true) pre ->
  isAddressChar bad = false ->
  hasLower pre && hasUpper pre = false ->
  fromString fromBase58 fromCashAddr (pre ++ bad :: post)
  = ([], JS.AssertionError).
Proof.
  intros Hlen Hpre Hbad Hmixed. unfold fromString, isMixedCase.
  assert (0 < length (pre ++ bad :: post))%nat.
  { rewrite length_app. cbn. lia. }
  destruct (Z.ltb_spec 0 (Z.of_nat (length (pre ++ bad :: post)))) as [_|]; [|lia].
  destruct (Z.leb_spec (Z.of_nat (length (pre ++ bad :: post))) 100) as [_|]; [|lia].
  cbn [JS.assert JS.bind].
  by rewrite isMixedCase_loop_prefix.
Qed.

Lemma fromString_bad_char_asserts_witness :
  fromString acceptAll acceptAll ([0x61] ++ 0x2d :: [0x42])
  = ([], JS.AssertionError).
Proof.
  apply (fromString_bad_char_asserts acceptAll acceptAll [0x61] 0x2d [0x42]).
  - cbn. lia.
  - repeat constructor.
  - reflexivity.
  - reflexivity.
Defined.

(** C10 as stated fails: "aB-" is non-empty, shorter than 100 and
    contains '-', yet the scan returns at 'B' and the string goes to
    the Base58 decoder without any assertion failure. *)
Lemma fromString_bad_char_after_mixed_case :
  isAddressChar 0x2d = false
  /\ fromString acceptAll acceptAll [0x61; 0x42; 0x2d]
     = ([Base58], acceptAll [0x61; 0x42; 0x2d]).
Proof. by vm_compute. Qed.

End AddressDispatch.

(** ** Legacy signature hashing *)

Section SignatureHashV0.
Import Encoding TX.

(** C8: when the hash type selects SIGHASH_SINGLE and the input index
    has no matching output, the legacy signature hash is the 32-byte
    constant [01 00 .. 00], whatever the transaction, the previous
    script and the other bits of the hash type are. *)
Theorem signatureHashV0_single_out_of_range
    (hash256 removeSeparators : bytes -> bytes)
    (tx : TX.t) (index : Z) (prev : bytes) (type : Z) :
  JS.and type 0x1f = SIGHASH_SINGLE ->
  len (outputs tx) <= index ->
  signatureHashV0 hash256 removeSeparators tx index prev type
  = JS.Ok (0x01 :: repeat 0x00 31).
Proof.
  intros Htype Hindex. unfold signatureHashV0.
  rewrite Htype, Z.eqb_refl.
  destruct (Z.leb_spec (len (outputs tx)) index) as [_|]; [done|lia].
Qed.

Lemma signatureHashV0_single_out_of_range_witness :
  signatureHashV0 (fun b => b) (fun b => b)
    {| version := 1; inputs := []; outputs := []; locktime := 0;
       mutable := true; _raw := None; _size := -1 |}
    0 [] 0x83
  = JS.Ok (0x01 :: repeat 0x00 31).
Proof.
  apply signatureHashV0_single_out_of_range.
  - reflexivity.
  - unfold len. simpl. lia.
Defined.

End SignatureHashV0.

(** ** Contextual input checks *)

Section CheckInputs.
Import Encoding Consensus TX TXRules.
Local Open Scope string_scope.
Local Open Scope list_scope.
Local Open Scope Z_scope.

Variable view : gmap (bytes * Z) CoinView.CoinEntry.
Variable height : Z.

Lemma getOutput_getEntry prevout entry :
  CoinView.getEntry view prevout = Some entry ->
  CoinView.getOutput view prevout = Some (CoinView.output entry).
Proof. intros H. unfold CoinView.getOutput. by rewrite H. Qed.

Lemma immature_test entry :
  CoinView.coinbase entry
  && (height - CoinView.height entry <? COINBASE_MATURITY) = true
  <-> immature height entry.
Proof.
  unfold immature. rewrite andb_true_iff, Z.ltb_lt. tauto.
Qed.

Lemma outOfRange_test amount :
  (amount <? 0) || (MAX_MONEY <? amount) = false <-> inRange amount.
Proof.
  unfold inRange. rewrite orb_false_iff, !Z.ltb_ge. tauto.
Qed.

(** The loop never throws; it fails with fee -1 or returns the total. *)
Lemma checkInputs_loop_cases ins total :
  (exists reason score,
      checkInputs_loop view height ins total = JS.Ok (inl (-1, reason, score)))
  \/ (checkInputs_loop view height ins total
       = JS.Ok (inr (total + coinSum view ins))
      /\ Forall (spendable view height) ins
      /\ (ins <> [] -> inRange (total + coinSum view ins))).
Proof.
  revert total. induction ins as [|input rest IH]; intros total.
  - right. cbn. rewrite Z.add_0_r. done.
  - cbn [checkInputs_loop coinSum].
    destruct (CoinView.getEntry view (Input.prevout input)) as [entry|] eqn:Hentry;
      [|left; eauto].
    destruct (CoinView.coinbase entry
              && (height - CoinView.height entry <? COINBASE_MATURITY)) eqn:Himm;
      [left; eauto|].
    rewrite (getOutput_getEntry _ _ Hentry).
    destruct ((Output.value (CoinView.output entry) <? 0)
              || (MAX_MONEY <? Output.value (CoinView.output entry))) eqn:Hval;
      [left; eauto|].
    destruct ((total + Output.value (CoinView.output entry) <? 0)
              || (MAX_MONEY <? total + Output.value (CoinView.output entry)))
      eqn:Htot; [left; eauto|].
    apply outOfRange_test in Hval, Htot.
    destruct (IH (total + Output.value (CoinView.output entry)))
      as [Hfail|(Hok & Hall & Hrange)]; [by left|right].
    rewrite Hok, Z.add_assoc. split; [done|]. split.
    + constructor; [|done]. exists entry. split; [done|]. split; [|done].
      rewrite <- immature_test. by rewrite Himm.
    + intros _. destruct rest as [|input' rest'].
      * cbn. by rewrite Z.add_0_r.
      * by apply Hrange.
Qed.

Lemma coinSum_nonneg ins :
  Forall (spendable view height) ins -> 0 <= coinSum view ins.
Proof.
  induction 1 as [|input rest (entry & Hentry & _ & Hval) _ IH]; [done|].
  cbn [coinSum]. rewrite Hentry. unfold inRange in Hval. lia.
Qed.

Lemma checkInputs_loop_spendable ins total :
  Forall (spendable view height) ins ->
  inRange total -> total + coinSum view ins <= MAX_MONEY ->
  checkInputs_loop view height ins total
  = JS.Ok (inr (total + coinSum view ins)).
Proof.
  intros Hall. revert total.
  induction Hall as [|input rest (entry & Hentry & Hmature & Hval) Hrest IH];
    intros total Htotal Hsum.
  - cbn. by rewrite Z.add_0_r.
  - pose proof (coinSum_nonneg _ Hrest) as Hnonneg.
    cbn [checkInputs_loop coinSum] in *. rewrite Hentry in *.
    rewrite (getOutput_getEntry _ _ Hentry).
    destruct (CoinView.coinbase entry
              && (height - CoinView.height entry <? COINBASE_MATURITY)) eqn:Himm.
    { by apply immature_test in Himm. }
    rewrite (proj2 (outOfRange_test _) Hval).
    unfold inRange in *.
    rewrite (proj2 (outOfRange_test (total + _))) by (unfold inRange; lia).
    rewrite IH by (unfold inRange; lia). f_equal. f_equal. lia.
Qed.


Lemma getInputValue_coinSum tx :
  Forall (spendable view height) (inputs tx) ->
  getInputValue view tx = coinSum view (inputs tx).
Proof.
  unfold getInputValue. generalize (inputs tx). intros ins Hall.
  enough (forall total,
    (fix go (ins : list Input.t) (total : Z) : Z :=
       match ins with
       | [] => total
       | input :: rest =>
         match CoinView.getOutput view (Input.prevout input) with
         | None => 0
         | Some coin => go rest (total + Output.value coin)
         end
       end) ins total = total + coinSum view ins) as H by apply H.
  induction Hall as [|input rest (entry & Hentry & _) _ IH]; intros total.
  - cbn. lia.
  - cbn [coinSum]. rewrite (getOutput_getEntry _ _ Hentry), Hentry, IH. lia.
Qed.

End CheckInputs.

Section CheckInputsClaims.
Import Encoding Consensus TX TXRules.
Local Open Scope string_scope.
Local Open Scope list_scope.
Local Open Scope Z_scope.


(** [checkInputs] never throws: it fails with fee -1, or every input
    is spendable and it returns the fee. *)
Lemma checkInputs_cases tx view height :
  (exists reason score,
      checkInputs tx view height = JS.Ok (-1, reason, score))
  \/ (Forall (spendable view height) (inputs tx)
      /\ checkInputs tx view height
         = JS.Ok (getInputValue view tx - getOutputValue tx, "valid", 0)
      /\ inRange (getInputValue view tx - getOutputValue tx)).
Proof.
  unfold checkInputs.
  destruct (checkInputs_loop_cases view height (inputs tx) 0)
    as [(reason & score & Hloop)|(Hloop & Hall & _)].
  { left. rewrite Hloop. eauto. }
  rewrite Z.add_0_l in Hloop. rewrite Hloop. cbn [JS.bind].
  rewrite <- (getInputValue_coinSum view height tx Hall).
  destruct (Z.ltb_spec (getInputValue view tx) (getOutputValue tx)); [eauto|].
  destruct (Z.ltb_spec (getInputValue view tx - getOutputValue tx) 0); [eauto|].
  destruct (Z.ltb_spec MAX_MONEY (getInputValue view tx - getOutputValue tx));
    [eauto|].
  right. done.
Qed.




End CheckInputsClaims.

(** ** Transaction sanity *)

Section CheckSanity.
Import Encoding Consensus TX TXRules.
Local Open Scope string_scope.
Local Open Scope list_scope.
Local Open Scope Z_scope.

Lemma foldl_total {A} (f : A -> Z) (l : list A) (base : Z) :
  foldl (fun acc x => acc + f x) base l = base + total f l.
Proof.
  revert base. induction l as [|x rest IH]; intros base; cbn.
  - lia.
  - rewrite IH. lia.
Qed.

Lemma total_nonneg {A} (f : A -> Z) (l : list A) :
  (forall x, 0 <= f x) -> 0 <= total f l.
Proof.
  intros Hf. induction l as [|x rest IH]; cbn; [done|].
  specialize (Hf x). lia.
Qed.

Lemma sizeVarint_bounds n : 1 <= sizeVarint n <= 9.
Proof.
  unfold sizeVarint.
  destruct (n <? 0xfd), (n <=? 0xffff), (n <=? 0xffffffff); lia.
Qed.

Lemma len_nonneg {A} (l : list A) : 0 <= len l.
Proof. unfold len. lia. Qed.

Lemma input_getSize_min input : 41 <= Input.getSize input.
Proof.
  unfold Input.getSize, sizeVarBytes, size.
  pose proof (sizeVarint_bounds (len (Input.script input))).
  pose proof (len_nonneg (Input.script input)). lia.
Qed.

Lemma output_getSize_min output : 9 <= Output.getSize output.
Proof.
  unfold Output.getSize, sizeVarBytes, size.
  pose proof (sizeVarint_bounds (len (Output.script output))).
  pose proof (len_nonneg (Output.script output)). lia.
Qed.

Lemma getNormalSizes_total tx :
  getNormalSizes tx =
  4 + sizeVarint (len (inputs tx)) + total Input.getSize (inputs tx)
  + sizeVarint (len (outputs tx)) + total Output.getSize (outputs tx) + 4.
Proof.
  unfold getNormalSizes. cbv zeta. rewrite !foldl_total. lia.
Qed.

Lemma getNormalSizes_min tx : 10 <= getNormalSizes tx.
Proof.
  rewrite getNormalSizes_total.
  pose proof (sizeVarint_bounds (len (inputs tx))).
  pose proof (sizeVarint_bounds (len (outputs tx))).
  pose proof (total_nonneg Input.getSize (inputs tx)
                ltac:(intros i; pose proof (input_getSize_min i); lia)).
  pose proof (total_nonneg Output.getSize (outputs tx)
                ltac:(intros o; pose proof (output_getSize_min o); lia)).
  lia.
Qed.

Lemma sameTransaction_refl tx : sameTransaction tx tx.
Proof. by repeat split. Qed.

(** [getSize] of a transaction with inputs returns the serialized
    size and at most fills the cache. *)
Lemma getSize_coherent tx :
  cacheCoherent tx -> inputs tx <> [] ->
  exists tx',
    getSize tx = JS.Ok (getNormalSizes tx, tx')
    /\ sameTransaction tx tx' /\ cacheCoherent tx'.
Proof.
  intros Hcache Hins. unfold getSize, frame.
  destruct (mutable tx) eqn:Hmut.
  { exists tx. split; [done|]. split; [apply sameTransaction_refl | done]. }
  destruct (_raw tx) as [data|] eqn:Hraw.
  - rewrite (Hcache Hmut data Hraw).
    pose proof (getNormalSizes_min tx).
    destruct (Z.leb_spec 0 (getNormalSizes tx)); [|lia]. cbn.
    exists tx. split; [done|]. split; [apply sameTransaction_refl | done].
  - unfold frameNormal, writeNormal.
    rewrite (bool_decide_eq_false_2 _ Hins). cbn [andb JS.bind fst snd].
    eexists. split; [reflexivity|]. split; [by repeat split|].
    intros _ data' _. reflexivity.
Qed.

(** The loop over the outputs. *)
Lemma checkSanity_outputs_cases outs total :
  match checkSanity_outputs outs total with
  | None =>
    Forall (fun output => inRange (Output.value output)) outs
    /\ forall k, (1 <= k <= length outs)%nat ->
         inRange (total + valueSum (take k outs))
  | Some v =>
    (v = (false, "bad-txns-vout-negative", 100)
     /\ Exists (fun output => Output.value output < 0) outs)
    \/ (v = (false, "bad-txns-vout-toolarge", 100)
        /\ Exists (fun output => MAX_MONEY < Output.value output) outs)
    \/ (v = (false, "bad-txns-txouttotal-toolarge", 100)
        /\ exists k, (1 <= k <= length outs)%nat
             /\ ~ inRange (total + valueSum (take k outs)))
  end.
Proof.
  revert total. induction outs as [|output rest IH]; intros total.
  - cbn. split; [constructor|]. intros k Hk. lia.
  - cbn [checkSanity_outputs].
    destruct (Z.ltb_spec (Output.value output) 0) as [Hneg|Hpos].
    { left. split; [done|]. by constructor. }
    destruct (Z.ltb_spec MAX_MONEY (Output.value output)) as [Hbig|Hfit].
    { right. left. split; [done|]. by constructor. }
    destruct ((total + Output.value output <? 0)
              || (MAX_MONEY <? total + Output.value output)) eqn:Htot.
    { right. right. split; [done|]. exists 1%nat. split; [cbn; lia|].
      cbn. rewrite Z.add_0_r. intros Hr.
      apply (outOfRange_test (total + Output.value output)) in Hr. congruence. }
    apply outOfRange_test in Htot.
    specialize (IH (total + Output.value output)).
    destruct (checkSanity_outputs rest (total + Output.value output)) as [v|].
    + destruct IH as [(-> & Hex)|[(-> & Hex)|(-> & k & Hk & Hbad)]].
      * left. split; [done|]. by constructor 2.
      * right. left. split; [done|]. by constructor 2.
      * right. right. split; [done|]. exists (S k). split; [cbn; lia|].
        cbn [take valueSum]. by rewrite Z.add_assoc.
    + destruct IH as [Hall Hsums]. split.
      * constructor; [|done]. unfold inRange. lia.
      * intros [|k] Hk; [lia|]. cbn [take valueSum]. rewrite Z.add_assoc.
        destruct k as [|k]; [cbn; by rewrite Z.add_0_r|].
        apply Hsums. cbn in Hk. lia.
Qed.

Lemma toKey_inj a b : Outpoint.toKey a = Outpoint.toKey b -> a = b.
Proof. destruct a, b. unfold Outpoint.toKey. cbn. by intros [= -> ->]. Qed.

(** The loop over the prevouts, [seen] being the keys added so far. *)
Lemma checkSanity_prevouts_cases (ins : list Input.t) (seen : gset (bytes * Z)) :
  match checkSanity_prevouts ins seen with
  | None =>
    NoDup (map Input.prevout ins)
    /\ forall input, input ∈ ins -> Outpoint.toKey (Input.prevout input) ∉ seen
  | Some v =>
    v = (false, "bad-txns-inputs-duplicate", 100)
    /\ ~ (NoDup (map Input.prevout ins)
          /\ forall input, input ∈ ins ->
               Outpoint.toKey (Input.prevout input) ∉ seen)
  end.
Proof.
  revert seen. induction ins as [|input rest IH]; intros seen.
  - cbn. split; [constructor|]. intros input Hin. by apply elem_of_nil in Hin.
  - cbn [checkSanity_prevouts map].
    destruct (bool_decide_reflect
                (Outpoint.toKey (Input.prevout input) ∈ seen)) as [Hin|Hout].
    { split; [done|]. intros [_ Hfresh]. apply (Hfresh input); [|done].
      by left. }
    specialize (IH ({[Outpoint.toKey (Input.prevout input)]} ∪ seen)).
    destruct (checkSanity_prevouts rest _) as [v|].
    + destruct IH as [-> Hdup]. split; [done|]. intros [Hnodup Hfresh].
      apply Hdup. apply NoDup_cons in Hnodup as [Hnotin Hnodup].
      split; [done|]. intros other Hother.
      rewrite elem_of_union, elem_of_singleton. intros [Heq|Hseen].
      * apply Hnotin. apply toKey_inj in Heq. rewrite <- Heq.
        apply list_elem_of_fmap. by exists other.
      * apply (Hfresh other); [by right|done].
    + destruct IH as [Hnodup Hfresh]. split.
      * apply NoDup_cons. split; [|done].
        intros Hin. apply list_elem_of_fmap in Hin as (other & Heq & Hother).
        apply (Hfresh other Hother). rewrite <- Heq. set_solver.
      * intros other Hother. apply elem_of_cons in Hother as [->|Hother]; [done|].
        specialize (Hfresh other Hother). set_solver.
Qed.

Lemma checkSanity_nulls_cases ins :
  match checkSanity_nulls ins with
  | None => Forall (fun input => ~ nullPrevout input) ins
  | Some v => v = (false, "bad-txns-prevout-null", 10) /\ Exists nullPrevout ins
  end.
Proof.
  induction ins as [|input rest IH]; cbn [checkSanity_nulls]; [constructor|].
  destruct (Outpoint.isNull (Input.prevout input)) eqn:Hnull.
  - split; [done|]. by constructor.
  - destruct (checkSanity_nulls rest) as [v|].
    + destruct IH as [-> Hex]. split; [done|]. by constructor 2.
    + constructor; [|done]. unfold nullPrevout. congruence.
Qed.


Lemma isCoinbase_inputs tx :
  isCoinbase tx = true ->
  exists input, inputs tx = [input] /\ nullPrevout input.
Proof.
  unfold isCoinbase. destruct (inputs tx) as [|input [|? ?]]; try done.
  intros Hnull. by exists input.
Qed.

(** The verdicts of [checkSanity] on a coherent transaction object:
    valid on a sane transaction, or failing with the tag of a
    violation. *)
Lemma checkSanity_verdicts tx :
  cacheCoherent tx ->
  exists v tx',
    checkSanity tx = JS.Ok (v, tx')
    /\ sameTransaction tx tx'
    /\ ((v = (true, "valid", 0) /\ sane tx)
        \/ (exists reason score,
              v = (false, reason, score) /\ violation tx reason score)).
Proof.
  intros Hcache. unfold checkSanity.
  destruct (bool_decide_reflect (inputs tx = [])) as [Hins|Hins].
  { eexists _, tx. split; [reflexivity|]. split; [apply sameTransaction_refl|].
    right. eexists _, _. split; [reflexivity|]. by constructor. }
  destruct (bool_decide_reflect (outputs tx = [])) as [Houts|Houts].
  { eexists _, tx. split; [reflexivity|]. split; [apply sameTransaction_refl|].
    right. eexists _, _. split; [reflexivity|]. by constructor. }
  destruct (getSize_coherent tx Hcache Hins) as (tx' & -> & Hsame & _).
  cbn [JS.bind fst snd].
  pose proof Hsame as (_ & Hi & Ho & _ & _).
  unfold checkSanity_coinbase, isCoinbase. rewrite Hi, Ho.
  fold (isCoinbase tx).
  destruct (Z.ltb_spec MAX_TX_SIZE (getNormalSizes tx)) as [Hbig|Hfit].
  { eexists _, tx'. split; [reflexivity|]. split; [done|].
    right. eexists _, _. split; [reflexivity|]. by constructor. }
  pose proof (checkSanity_outputs_cases (outputs tx) 0) as Hout.
  destruct (checkSanity_outputs (outputs tx) 0) as [v|].
  { exists v, tx'. split; [reflexivity|]. split; [done|]. right.
    destruct Hout as [(-> & Hex)|[(-> & Hex)|(-> & k & Hk & Hbad)]];
      (eexists _, _; split; [reflexivity|]).
    - by constructor.
    - by constructor.
    - constructor. intros Hsums. apply Hbad. rewrite Z.add_0_l.
      apply Hsums. lia. }
  destruct Hout as [Hvalues Hsums].
  pose proof (checkSanity_prevouts_cases (inputs tx) ∅) as Hprev.
  destruct (checkSanity_prevouts (inputs tx) ∅) as [v|].
  { exists v, tx'. split; [reflexivity|]. split; [done|]. right.
    destruct Hprev as [-> Hdup]. eexists _, _. split; [reflexivity|].
    constructor. intros Hnodup. apply Hdup. split; [done|]. set_solver. }
  destruct Hprev as [Hnodup _].
  assert (partialSumsInRange (outputs tx)) as Hpartial.
  { intros [|k] Hk.
    - rewrite take_0. cbn. unfold inRange, MAX_MONEY, COIN. lia.
    - specialize (Hsums (S k) ltac:(lia)). by rewrite Z.add_0_l in Hsums. }
  destruct (isCoinbase tx) eqn:Hcb.
  - destruct (isCoinbase_inputs tx Hcb) as (input & Hone & Hnull).
    rewrite Hone.
    destruct ((size (Input.script input) <? 2)
              || (MAX_COINBASE_SCRIPTSIG_SIZE <? size (Input.script input)))
      eqn:Hscript.
    + eexists _, tx'. split; [reflexivity|]. split; [done|].
      right. eexists _, _. split; [reflexivity|]. constructor; [done|].
      intros (input' & rest & Hcons & Hfits). rewrite Hone in Hcons.
      injection Hcons as <- <-.
      apply orb_true_iff in Hscript. rewrite !Z.ltb_lt in Hscript. lia.
    + eexists _, tx'. split; [reflexivity|]. split; [done|].
      left. split; [done|]. split; try done; [|congruence].
      intros _. exists input, []. split; [done|].
      apply orb_false_iff in Hscript. rewrite !Z.ltb_ge in Hscript. lia.
  - pose proof (checkSanity_nulls_cases (inputs tx)) as Hnull.
    destruct (checkSanity_nulls (inputs tx)) as [v|].
    + exists v, tx'. split; [reflexivity|]. split; [done|]. right.
      destruct Hnull as [-> Hex]. eexists _, _. split; [reflexivity|].
      by constructor.
    + eexists _, tx'. split; [reflexivity|]. split; [done|].
      left. split; [done|]. split; try done. congruence.
Qed.



Example checkSanity_valid_example :
  fst <$> (match checkSanity (Examples.mkTX [Examples.spend 1 0] [Examples.pay 1]) with
           | JS.Ok r => Some r | _ => None end)
  = Some (true, "valid", 0).
Proof. by vm_compute. Qed.

Example checkSanity_duplicate_example :
  fst <$> (match checkSanity
                   (Examples.mkTX [Examples.spend 1 0; Examples.spend 1 0]
                                  [Examples.pay 1]) with
           | JS.Ok r => Some r | _ => None end)
  = Some (false, "bad-txns-inputs-duplicate", 100).
Proof. by vm_compute. Qed.

End CheckSanity.

(** ** Non-contextual block check *)

Section BlockBody.
Import Encoding Consensus TXRules.
Local Open Scope string_scope.
Local Open Scope list_scope.
Local Open Scope Z_scope.

Lemma frame_preserving :
  preserving TX.frame (fun tx raw =>
    TX.mutable tx = false -> fst raw = TX.getNormalSizes tx).
Proof.
  intros tx raw tx' Hcache. unfold TX.frame.
  destruct (TX.mutable tx) eqn:Hmut.
  - destruct (TX._raw tx) as [data|]; cbn; [done|].
    unfold TX.frameNormal. destruct (TX.writeNormal tx) as [data| |msg]; cbn;
      try done.
    intros [= <- <-]. split; [apply sameTransaction_refl|]. done.
  - destruct (TX._raw tx) as [data|] eqn:Hraw.
    + destruct (0 <=? TX._size tx); cbn; [|done].
      intros [= <- <-]. split; [apply sameTransaction_refl|]. split; [done|].
      intros _. cbn. by apply (Hcache Hmut data).
    + unfold TX.frameNormal. destruct (TX.writeNormal tx) as [data| |msg]; cbn;
        try done.
      intros [= <- <-]. split; [by repeat split|]. split; [|done].
      intros _ data' _. reflexivity.
Qed.

Lemma getSize_preserving :
  preserving TX.getSize (fun tx size => size = TX.getNormalSizes tx).
Proof.
  intros tx size tx' Hcache. unfold TX.getSize.
  destruct (TX.mutable tx) eqn:Hmut.
  - intros [= <- <-]. split; [apply sameTransaction_refl|]. done.
  - destruct (TX.frame tx) as [[raw tx1]| |msg] eqn:Hframe; cbn; try done.
    intros [= <- <-].
    destruct (frame_preserving tx raw tx1 Hcache Hframe) as (Hsame & Hc & Hsize).
    split; [done|]. split; [done|]. by apply Hsize.
Qed.

Lemma toRaw_preserving : preserving TX.toRaw (fun _ _ => True).
Proof.
  intros tx data tx' Hcache. unfold TX.toRaw.
  destruct (TX.frame tx) as [[raw tx1]| |msg] eqn:Hframe; cbn; try done.
  intros [= <- <-].
  destruct (frame_preserving tx raw tx1 Hcache Hframe) as (Hsame & Hc & _).
  done.
Qed.

Lemma toWriter_preserving : preserving TX.toWriter (fun _ _ => True).
Proof.
  intros tx data tx' Hcache. unfold TX.toWriter.
  destruct (TX.mutable tx).
  - destruct (TX.writeNormal tx) as [written| |msg]; cbn; try done.
    intros [= <- <-]. split; [apply sameTransaction_refl|]. done.
  - by apply toRaw_preserving.
Qed.

Lemma hash_preserving hash256 :
  preserving (TX.hash hash256) (fun _ _ => True).
Proof.
  intros tx digest tx' Hcache. unfold TX.hash.
  destruct (TX.toRaw tx) as [[raw tx1]| |msg] eqn:Hraw; cbn; try done.
  intros [= <- <-]. by apply (toRaw_preserving tx raw tx1).
Qed.

Lemma forEach_preserving {A} (f : TX.t -> JS.result (A * TX.t)) P :
  preserving f P ->
  forall txs results txs',
    Forall cacheCoherent txs ->
    Block.forEach f txs = JS.Ok (results, txs') ->
    Forall2 sameTransaction txs txs'
    /\ Forall cacheCoherent txs'
    /\ Forall2 P txs results.
Proof.
  intros Hf txs. induction txs as [|tx rest IH]; intros results txs' Hall.
  - cbn. intros [= <- <-]. by repeat split; constructor.
  - apply Forall_cons in Hall as [Htx Hrest]. cbn [Block.forEach].
    destruct (f tx) as [[a tx1]| |msg] eqn:Hcall; cbn; try done.
    destruct (Block.forEach f rest) as [[others rest1]| |msg] eqn:Hothers; cbn;
      try done.
    intros [= <- <-].
    destruct (Hf tx a tx1 Htx Hcall) as (Hsame & Hc & HP).
    destruct (IH others rest1 Hrest eq_refl) as (Hsames & Hcs & HPs).
    repeat split; by constructor.
Qed.

Lemma sameTransaction_sizes tx tx' :
  sameTransaction tx tx' -> TX.getNormalSizes tx' = TX.getNormalSizes tx.
Proof.
  intros (_ & Hi & Ho & _). unfold TX.getNormalSizes. by rewrite Hi, Ho.
Qed.

Lemma sameTransaction_trans tx1 tx2 tx3 :
  sameTransaction tx1 tx2 -> sameTransaction tx2 tx3 -> sameTransaction tx1 tx3.
Proof.
  unfold sameTransaction. intros (? & ? & ? & ? & ?) (? & ? & ? & ? & ?).
  repeat split; congruence.
Qed.

Lemma sameTransactions_total txs txs' :
  Forall2 sameTransaction txs txs' ->
  total TX.getNormalSizes txs' = total TX.getNormalSizes txs
  /\ len txs' = len txs.
Proof.
  induction 1 as [|tx tx' rest rest' Hsame _ [IHt IHl]]; [done|].
  cbn [total]. rewrite (sameTransaction_sizes _ _ Hsame), IHt.
  split; [done|]. unfold len in *. cbn [length]. lia.
Qed.

Lemma sameBlock_refl b : Block.sameBlock b b.
Proof.
  split; [|done]. induction (Block.txs b); constructor; [|done].
  apply sameTransaction_refl.
Qed.

Lemma sameBlock_trans b1 b2 b3 :
  Block.sameBlock b1 b2 -> Block.sameBlock b2 b3 -> Block.sameBlock b1 b3.
Proof.
  intros (Htxs & Hr & Hm) (Htxs' & Hr' & Hm'). split; [|split; congruence].
  clear -Htxs Htxs'. revert Htxs'. generalize (Block.txs b3).
  induction Htxs as [|tx1 tx2 r1 r2 H12 _ IH]; intros l3 H23.
  - inversion H23. constructor.
  - inversion H23 as [|? tx3 ? r3 H' Hr' ]; subst. constructor.
    + by apply (sameTransaction_trans tx1 tx2 tx3).
    + by apply IH.
Qed.

Lemma sameBlock_size b b' :
  Block.sameBlock b b' -> Block.serializedSize b' = Block.serializedSize b.
Proof.
  intros (Htxs & _). unfold Block.serializedSize.
  destruct (sameTransactions_total _ _ Htxs) as [-> ->]. done.
Qed.

Lemma withTxs_coherent b txs' :
  Block.cacheCoherent b ->
  Forall2 sameTransaction (Block.txs b) txs' ->
  Forall cacheCoherent txs' ->
  Block.sameBlock b (Block.withTxs b txs')
  /\ Block.cacheCoherent (Block.withTxs b txs').
Proof.
  intros [Hsize _] Hsame Hall.
  assert (Block.sameBlock b (Block.withTxs b txs')) as Hb by done.
  split; [done|]. split; [|done].
  intros Hmut data Hraw. rewrite (sameBlock_size _ _ Hb).
  by apply (Hsize Hmut data).
Qed.

Lemma block_getNormalSizes_ok b size b' :
  Block.cacheCoherent b ->
  Block.getNormalSizes b = JS.Ok (size, b') ->
  size = Block.serializedSize b
  /\ Block.sameBlock b b' /\ Block.cacheCoherent b'
  /\ Block._raw b' = Block._raw b.
Proof.
  intros Hcache. unfold Block.getNormalSizes. cbv zeta.
  destruct (Block.forEach TX.getSize (Block.txs b))
    as [[sizes txs']| |msg] eqn:Hsizes; cbn; try done.
  intros [= <- <-].
  destruct (forEach_preserving _ _ getSize_preserving _ _ _ (proj2 Hcache) Hsizes)
    as (Hsame & Hall & Heach).
  destruct (withTxs_coherent b txs' Hcache Hsame Hall) as [Hb Hc].
  split; [|done].
  rewrite foldl_total. unfold Block.serializedSize. f_equal.
  clear -Heach. induction Heach as [|tx sz txs szs -> _ IH]; [done|].
  cbn [total]. by rewrite IH.
Qed.

Lemma block_writeNormal_ok b data b' :
  Block.cacheCoherent b ->
  Block.writeNormal b = JS.Ok (data, b') ->
  Block.sameBlock b b' /\ Block.cacheCoherent b'.
Proof.
  intros Hcache. unfold Block.writeNormal.
  destruct (Block.forEach TX.toWriter (Block.txs b))
    as [[written txs']| |msg] eqn:Hwritten; cbn; try done.
  intros [= <- <-].
  destruct (forEach_preserving _ _ toWriter_preserving _ _ _ (proj2 Hcache)
              Hwritten) as (Hsame & Hall & _).
  by apply withTxs_coherent.
Qed.

Lemma block_frameNormal_ok b raw b' :
  Block.cacheCoherent b ->
  Block.frameNormal b = JS.Ok (raw, b') ->
  fst raw = Block.serializedSize b
  /\ Block.sameBlock b b' /\ Block.cacheCoherent b'.
Proof.
  intros Hcache. unfold Block.frameNormal.
  destruct (Block.getNormalSizes b) as [[size b1]| |msg] eqn:Hsized; cbn;
    try done.
  destruct (block_getNormalSizes_ok _ _ _ Hcache Hsized) as (-> & Hs1 & Hc1 & _).
  destruct (Block.writeNormal b1) as [[data b2]| |msg] eqn:Hwritten; cbn;
    try done.
  destruct (block_writeNormal_ok _ _ _ Hc1 Hwritten) as (Hs2 & Hc2).
  intros [= <- <-]. split; [done|]. split; [|done].
  by apply (sameBlock_trans b b1 b2).
Qed.

(** [getSize()] of a coherent block is the size of its serialization. *)
Lemma block_getSize_ok b size b' :
  Block.cacheCoherent b ->
  Block.getSize b = JS.Ok (size, b') ->
  size = Block.serializedSize b
  /\ Block.sameBlock b b' /\ Block.cacheCoherent b'.
Proof.
  intros Hcache. unfold Block.getSize, Block.frame.
  destruct (Block.mutable b) eqn:Hmut.
  { intros Hsized.
    by destruct (block_getNormalSizes_ok _ _ _ Hcache Hsized) as (? & ? & ? & _). }
  destruct (Block._raw b) as [data|] eqn:Hraw.
  - destruct (0 <=? Block._size b); cbn; [|done].
    intros [= <- <-]. split; [by apply (proj1 Hcache Hmut data)|].
    split; [apply sameBlock_refl|done].
  - destruct (Block.frameNormal b) as [[raw b1]| |msg] eqn:Hframed; cbn;
      try done.
    destruct (block_frameNormal_ok _ _ _ Hcache Hframed) as (Hsize & Hs & Hc).
    intros [= <- <-]. split; [done|].
    assert (Block.sameBlock b1 (Block.setCache b1 raw)) as Hset.
    { destruct (sameBlock_refl b1) as (? & ? & ?). by repeat split. }
    split; [by apply (sameBlock_trans b b1)|]. split; [|apply Hc].
    intros _ data' _. cbn [Block.setCache Block._size].
    rewrite Hsize. symmetry.
    rewrite (sameBlock_size _ _ (sameBlock_trans _ _ _ Hs Hset)). done.
Qed.

Lemma createMerkleRoot_ok hash256 createRoot b root b' :
  Block.cacheCoherent b ->
  Block.createMerkleRoot hash256 createRoot b = JS.Ok (root, b') ->
  Block.sameBlock b b' /\ Block.cacheCoherent b'.
Proof.
  intros Hcache. unfold Block.createMerkleRoot.
  destruct (Block.forEach (TX.hash hash256) (Block.txs b))
    as [[hashes txs']| |msg] eqn:Hhashed; cbn; try done.
  destruct (createRoot hashes) as [r malleated]. intros [= <- <-].
  destruct (forEach_preserving _ _ (hash_preserving hash256) _ _ _
              (proj2 Hcache) Hhashed) as (Hsame & Hall & _).
  by apply withTxs_coherent.
Qed.

(** The loop accepts only sane transactions. *)
Lemma checkBody_loop_valid getSigops txs i size sigops txs' :
  Forall cacheCoherent txs ->
  Block.checkBody_loop getSigops txs i size sigops
  = JS.Ok ((true, "valid", 0), txs') ->
  Forall sane txs.
Proof.
  revert i sigops txs'. induction txs as [|tx rest IH];
    intros i sigops txs' Hall; [constructor|].
  apply Forall_cons in Hall as [Htx Hrest]. cbn [Block.checkBody_loop].
  destruct ((0 <? i) && TX.isCoinbase tx); [done|].
  destruct (checkSanity_verdicts tx Htx)
    as (v & tx1 & -> & _ & [[-> Hsane]|(reason & score & -> & _)]);
    cbn [JS.bind fst snd negb]; [|done].
  destruct (Consensus.maxBlockSigops size <? _); [done|].
  destruct (Block.checkBody_loop getSigops rest (i + 1) size _)
    as [[v' rest1]| |msg] eqn:Hloop; cbn; try done.
  intros [= -> <-]. constructor; [done|]. by apply (IH _ _ _ Hrest Hloop).
Qed.

Lemma sane_size_min tx : sane tx -> 60 <= TX.getNormalSizes tx.
Proof.
  intros Hsane. destruct Hsane. rewrite getNormalSizes_total.
  pose proof (sizeVarint_bounds (len (TX.inputs tx))).
  pose proof (sizeVarint_bounds (len (TX.outputs tx))).
  assert (41 <= total Input.getSize (TX.inputs tx)).
  { destruct (TX.inputs tx) as [|input rest]; [done|]. cbn [total].
    pose proof (input_getSize_min input).
    pose proof (total_nonneg Input.getSize rest
                  ltac:(intros i; pose proof (input_getSize_min i); lia)). lia. }
  assert (9 <= total Output.getSize (TX.outputs tx)).
  { destruct (TX.outputs tx) as [|output rest]; [done|]. cbn [total].
    pose proof (output_getSize_min output).
    pose proof (total_nonneg Output.getSize rest
                  ltac:(intros o; pose proof (output_getSize_min o); lia)). lia. }
  lia.
Qed.

Lemma sane_total_min txs :
  Forall sane txs -> 60 * len txs <= total TX.getNormalSizes txs.
Proof.
  induction 1 as [|tx rest Hsane _ IH]; [done|].
  cbn [total]. pose proof (sane_size_min tx Hsane).
  unfold len in *. cbn [length]. lia.
Qed.

(** C6: a block the body check accepts serializes to at most
    MAX_FORK_BLOCK_SIZE bytes and holds at most a tenth of its own
    serialized size in transactions.  The block object is taken with
    coherent size caches, as parsing and framing leave them. *)
Theorem checkBody_size_bounds
    (hash256 : bytes -> bytes) (getSigops : bytes -> Z)
    (createRoot : list bytes -> bytes * bool) (b b' : Block.t) :
  Block.cacheCoherent b ->
  Block.checkBody hash256 getSigops createRoot b
  = JS.Ok ((true, "valid", 0), b') ->
  Block.serializedSize b <= MAX_FORK_BLOCK_SIZE
  /\ len (Block.txs b) <= Block.serializedSize b / 10.
Proof.
  intros Hcache. unfold Block.checkBody.
  destruct ((len (Block.txs b) =? 0)
            || (MAX_FORK_BLOCK_SIZE / 10 <? len (Block.txs b))); [done|].
  destruct (Block.getSize b) as [[size b1]| |msg] eqn:Hsize1; cbn [JS.bind];
    try done.
  destruct (block_getSize_ok _ _ _ Hcache Hsize1) as (-> & Hs1 & Hc1).
  cbn [fst snd].
  destruct (Z.ltb_spec MAX_FORK_BLOCK_SIZE (Block.serializedSize b))
    as [|Hfits]; [done|].
  destruct (Block.txs b1) as [|first others] eqn:Htxs1; [done|].
  destruct (TX.isCoinbase first); cbn [negb]; [|done].
  destruct (Block.createMerkleRoot hash256 createRoot b1)
    as [[root b2]| |msg] eqn:Hroot; cbn [JS.bind]; try done.
  destruct (createMerkleRoot_ok _ _ _ _ _ Hc1 Hroot) as (Hs2 & Hc2).
  cbn [fst snd]. destruct root as [root|]; [|done].
  destruct (bool_decide (Block.merkleRoot b2 = root)); cbn [negb]; [|done].
  destruct (Block.getSize b2) as [[size b3]| |msg] eqn:Hsize2; cbn [JS.bind];
    try done.
  destruct (block_getSize_ok _ _ _ Hc2 Hsize2) as (-> & Hs3 & Hc3).
  cbn [fst snd].
  destruct (Block.checkBody_loop getSigops (Block.txs b3) 0 _ 0)
    as [[v txs']| |msg] eqn:Hloop; cbn [JS.bind]; try done.
  cbn [fst snd]. intros [= -> _].
  pose proof (checkBody_loop_valid _ _ _ _ _ _ (proj2 Hc3) Hloop) as Hsane.
  pose proof (sameBlock_trans _ _ _ (sameBlock_trans _ _ _ Hs1 Hs2) Hs3) as Hs.
  pose proof (sane_total_min _ Hsane) as Hmin.
  destruct (sameTransactions_total _ _ (proj1 Hs)) as [Htotal Hlen].
  rewrite Htotal, Hlen in Hmin.
  split; [done|]. apply Z.div_le_lower_bound; [lia|].
  unfold Block.serializedSize.
  pose proof (sizeVarint_bounds (len (Block.txs b))).
  pose proof (len_nonneg (Block.txs b)). lia.
Qed.

Lemma checkBody_size_bounds_witness :
  Block.serializedSize Examples.coinbaseBlock <= MAX_FORK_BLOCK_SIZE
  /\ len (Block.txs Examples.coinbaseBlock)
     <= Block.serializedSize Examples.coinbaseBlock / 10.
Proof.
  eapply (checkBody_size_bounds Examples.toyDigest Examples.noSigops
            Examples.toyRoot Examples.coinbaseBlock).
  - split.
    + intros _ data Hraw. simpl in Hraw. discriminate Hraw.
    + repeat constructor. intros _ data Hraw. simpl in Hraw. discriminate Hraw.
  - vm_compute. reflexivity.
Defined.

End BlockBody.

(** ** Block assembly *)

Section Assembly.
Import Encoding Consensus Miner.
Local Open Scope list_scope.
Local Open Scope Z_scope.

Lemma cmpRate_neg a b : cmpRate a b < 0 -> ranksBefore a b.
Proof.
  unfold cmpRate, ranksBefore, rateKey. cbv zeta.
  destruct (Z.ltb_spec (rate a) (descRate a)), (Z.ltb_spec (rate b) (descRate b));
    match goal with |- context [?x =? ?y] => destruct (Z.eqb_spec x y) end; lia.
Qed.

Lemma cmpRate_nonneg a b : 0 <= cmpRate a b -> ranksBefore b a.
Proof.
  unfold cmpRate, ranksBefore, rateKey. cbv zeta.
  destruct (Z.ltb_spec (rate a) (descRate a)), (Z.ltb_spec (rate b) (descRate b));
    match goal with |- context [?x =? ?y] => destruct (Z.eqb_spec x y) end; lia.
Qed.

Lemma ranksBefore_refl a : ranksBefore a a.
Proof. right. lia. Qed.

Lemma ranksBefore_trans a b c :
  ranksBefore a b -> ranksBefore b c -> ranksBefore a c.
Proof. unfold ranksBefore. lia. Qed.

(** [least] returns an item of the heap that ranks before all others. *)
Lemma least_ranks best heap :
  least cmpRate best heap ∈ best :: heap
  /\ forall other, other ∈ best :: heap ->
       ranksBefore (least cmpRate best heap) other.
Proof.
  revert best. induction heap as [|item rest IH]; intros best.
  - cbn. split; [by left|]. intros other Hin.
    apply list_elem_of_singleton in Hin as ->. apply ranksBefore_refl.
  - cbn [least]. destruct (Z.ltb_spec (cmpRate item best) 0) as [Hlt|Hge].
    + destruct (IH item) as [Hin Hmin]. split.
      * right. done.
      * intros other Hother. apply elem_of_cons in Hother as [->|Hother].
        -- apply (ranksBefore_trans _ item); [apply Hmin; by left|].
           by apply cmpRate_neg.
        -- by apply Hmin.
    + destruct (IH best) as [Hin Hmin]. split.
      * apply elem_of_cons in Hin as [->|Hin]; [by left|]. right. by right.
      * intros other Hother. apply elem_of_cons in Hother as [->|Hother].
        -- apply Hmin. by left.
        -- apply elem_of_cons in Hother as [->|Hother].
           ++ apply (ranksBefore_trans _ best); [apply Hmin; by left|].
              by apply cmpRate_nonneg.
           ++ apply Hmin. by right.
Qed.

Lemma shift_ranks heap :
  heap <> [] ->
  exists item rest,
    shift cmpRate heap = Some (item, rest)
    /\ item ∈ heap
    /\ (forall other, other ∈ heap -> ranksBefore item other).
Proof.
  destruct heap as [|first others]; [done|]. intros _.
  destruct (least_ranks first others) as [Hin Hmin].
  eexists _, _. split; [reflexivity|]. done.
Qed.

Lemma occurrences_cons i item rest :
  occurrences i (item :: rest)
  = (if decide (id item = i) then 1 else 0) + occurrences i rest.
Proof.
  unfold occurrences. rewrite filter_cons.
  destruct (decide (id item = i)); cbn [length]; lia.
Qed.

Lemma occurrences_nonneg i deps : 0 <= occurrences i deps.
Proof. unfold occurrences. lia. Qed.

Lemma occurrences_pos i deps :
  0 < occurrences i deps -> exists item, item ∈ deps /\ id item = i.
Proof.
  unfold occurrences. intros Hpos.
  destruct (filter (fun item => id item = i) deps) as [|item others] eqn:Hf;
    [cbn in Hpos; lia|].
  exists item.
  assert (item ∈ filter (fun item => id item = i) deps) as Hin.
  { rewrite Hf. by left. }
  apply list_elem_of_filter in Hin as [Hid Hin]. done.
Qed.

Lemma getDepCount_insert counts item count other :
  getDepCount (<[id item := count]> counts) other
  = if decide (id item = id other) then count else getDepCount counts other.
Proof.
  unfold getDepCount. rewrite lookup_insert.
  by destruct (decide (id item = id other)).
Qed.

(** Every dependent loses one parent per occurrence. *)
Lemma release_counts deps counts heap other :
  getDepCount (fst (release deps counts heap)) other
  = getDepCount counts other - occurrences (id other) deps.
Proof.
  revert counts heap. induction deps as [|item rest IH]; intros counts heap.
  - cbn. unfold occurrences. cbn. lia.
  - cbn [release]. rewrite occurrences_cons.
    destruct (getDepCount counts item - 1 =? 0); rewrite IH, getDepCount_insert;
      destruct (decide (id item = id other)) as [Heq|Hne];
      try lia; unfold getDepCount; rewrite Heq; lia.
Qed.

(** The heap receives the dependents whose count reaches zero. *)
Lemma release_freed deps counts heap :
  exists freed,
    snd (release deps counts heap) = heap ++ freed
    /\ sublist freed deps
    /\ (forall item, item ∈ freed ->
          1 <= getDepCount counts item <= occurrences (id item) deps)
    /\ (forall item, item ∈ deps ->
          1 <= getDepCount counts item <= occurrences (id item) deps ->
          exists item', item' ∈ freed /\ id item' = id item).
Proof.
  revert counts heap. induction deps as [|dep rest IH]; intros counts heap.
  - exists []. cbn. rewrite app_nil_r. split; [done|]. split; [done|].
    split; intros item Hin; by apply elem_of_nil in Hin.
  - cbn [release].
    set (counts1 := <[id dep := getDepCount counts dep - 1]> counts).
    assert (forall item, getDepCount counts1 item
              = if decide (id dep = id item) then getDepCount counts dep - 1
                else getDepCount counts item) as Hcounts1.
    { intros item. apply getDepCount_insert. }
    assert (forall item, id dep = id item ->
              getDepCount counts item = getDepCount counts dep) as Hsame.
    { intros item Heq. unfold getDepCount. by rewrite Heq. }
    destruct (Z.eqb_spec (getDepCount counts dep - 1) 0) as [Hzero|Hmore].
    + destruct (IH counts1 (insert dep heap))
        as (freed & Hheap & Hsub & Hsound & Hcomplete).
      exists (dep :: freed). split.
      { rewrite Hheap. unfold insert. by rewrite <- app_assoc. }
      split; [by constructor|]. split.
      * intros item Hin. rewrite occurrences_cons.
        apply elem_of_cons in Hin as [->|Hin].
        -- destruct (decide (id dep = id dep)); [|done].
           pose proof (occurrences_nonneg (id dep) rest). lia.
        -- specialize (Hsound item Hin). rewrite Hcounts1 in Hsound.
           destruct (decide (id dep = id item)); lia.
      * intros item Hin Hbounds. rewrite occurrences_cons in Hbounds.
        destruct (decide (id dep = id item)) as [Heq|Hne].
        -- exists dep. split; [by left|done].
        -- apply elem_of_cons in Hin as [->|Hin]; [done|].
           destruct (Hcomplete item Hin) as (item' & Hin' & Hid).
           { rewrite Hcounts1. destruct (decide (id dep = id item)); [done|lia]. }
           exists item'. split; [by right|done].
    + destruct (IH counts1 heap) as (freed & Hheap & Hsub & Hsound & Hcomplete).
      exists freed. split; [done|]. split; [by constructor|]. split.
      * intros item Hin. rewrite occurrences_cons.
        specialize (Hsound item Hin). rewrite Hcounts1 in Hsound.
        destruct (decide (id dep = id item)) as [Heq|Hne]; [|lia].
        rewrite (Hsame item Heq). lia.
      * intros item Hin Hbounds. rewrite occurrences_cons in Hbounds.
        destruct (decide (id dep = id item)) as [Heq|Hne].
        -- rewrite (Hsame item Heq) in Hbounds.
           destruct (occurrences_pos (id item) rest) as (item2 & Hin2 & Hid2);
             [lia|].
           destruct (Hcomplete item2 Hin2) as (item' & Hin' & Hid).
           { rewrite Hcounts1, Hid2.
             destruct (decide (id dep = id item)); [lia|done]. }
           exists item'. split; [done|congruence].
        -- apply elem_of_cons in Hin as [->|Hin]; [done|].
           destruct (Hcomplete item Hin) as (item' & Hin' & Hid).
           { rewrite Hcounts1. destruct (decide (id dep = id item)); [done|lia]. }
           by exists item'.
Qed.

(** What a commit does to the template, the counts and the heap. *)
Lemma commit_effect depMap st heap item :
  exists st' freed,
    Some (commit depMap st heap item) = Some st'
    /\ size st' = size st + TX.getNormalSizes (tx item)
    /\ sigops_ st' = sigops_ st + sigops item
    /\ fees st' = fees st + fee item
    /\ items st' = items st ++ [item]
    /\ (forall other,
          getDepCount (depCount st') other
          = getDepCount (depCount st) other
            - occurrences (id other) (default [] (depMap !! hash item)))
    /\ queue st' = heap ++ freed
    /\ sublist freed (default [] (depMap !! hash item))
    /\ (forall dep, dep ∈ freed ->
          1 <= getDepCount (depCount st) dep
            <= occurrences (id dep) (default [] (depMap !! hash item)))
    /\ (forall dep, dep ∈ default [] (depMap !! hash item) ->
          1 <= getDepCount (depCount st) dep
            <= occurrences (id dep) (default [] (depMap !! hash item)) ->
          exists dep', dep' ∈ freed /\ id dep' = id dep).
Proof.
  assert (match depMap !! hash item with
          | None => (depCount st, heap)
          | Some deps => release deps (depCount st) heap
          end = release (default [] (depMap !! hash item)) (depCount st) heap)
    as Hreleased.
  { by destruct (depMap !! hash item). }
  destruct (release_freed (default [] (depMap !! hash item)) (depCount st) heap)
    as (freed & Hheap & Hsub & Hsound & Hcomplete).
  exists (commit depMap st heap item), freed. unfold commit. cbn.
  rewrite Hreleased. repeat split; try done.
  - intros other. apply release_counts.
  - by apply Hsound.
  - by apply Hsound.
Qed.

(** C7 (amended): in the fee-rate phase the heap pops an entry that no
    other entry of the heap precedes in the order of
    [max(rate, descRate)], ties broken by priority, and the popped
    entry is committed to the template (size, sigops and fees updated,
    entry appended, each in-mempool dependent's parent count
    decremented and the dependents whose count reaches zero inserted
    into the heap) unless adding it would exceed maxSize or maxSigops,
    or [tx.isFinal(height, locktime)] is false, or the entry is free
    and the size with it reaches minSize; an entry that is not
    committed leaves the template as it was. *)
Theorem assemble_fee_rate_step
    (options : MinerOptions) (height locktime : Z)
    (depMap : gmap bytes (list BlockEntry)) (st : State) :
  priorityPhase st = false -> queue st <> [] ->
  exists item heap,
    shift cmpRate (queue st) = Some (item, heap)
    /\ item ∈ queue st
    /\ (forall other, other ∈ queue st -> ranksBefore item other)
    /\ (rejected options height locktime st item
         \/ freeAboveMinimum options st item ->
        exists st',
          step options height locktime depMap st = Some st'
          /\ size st' = size st /\ sigops_ st' = sigops_ st
          /\ fees st' = fees st /\ items st' = items st
          /\ depCount st' = depCount st /\ queue st' = heap)
    /\ (~ rejected options height locktime st item ->
        ~ freeAboveMinimum options st item ->
        exists st' freed,
          step options height locktime depMap st = Some st'
          /\ size st' = size st + TX.getNormalSizes (tx item)
          /\ sigops_ st' = sigops_ st + sigops item
          /\ fees st' = fees st + fee item
          /\ items st' = items st ++ [item]
          /\ (forall other,
                getDepCount (depCount st') other
                = getDepCount (depCount st) other
                  - occurrences (id other) (default [] (depMap !! hash item)))
          /\ queue st' = heap ++ freed
          /\ sublist freed (default [] (depMap !! hash item))
          /\ (forall dep, dep ∈ freed ->
                1 <= getDepCount (depCount st) dep
                  <= occurrences (id dep) (default [] (depMap !! hash item)))
          /\ (forall dep, dep ∈ default [] (depMap !! hash item) ->
                1 <= getDepCount (depCount st) dep
                  <= occurrences (id dep) (default [] (depMap !! hash item)) ->
                exists dep', dep' ∈ freed /\ id dep' = id dep)).
Proof.
  intros Hphase Hheap.
  destruct (shift_ranks (queue st) Hheap) as (item & heap & Hshift & Hin & Hmin).
  exists item, heap. split; [done|]. split; [done|]. split; [done|].
  unfold step, rejected, freeAboveMinimum. rewrite Hphase. cbn [comparator].
  rewrite Hshift. cbv zeta.
  destruct (TX.isFinal (tx item) height locktime) eqn:Hfinal; cbn [negb].
  2:{ split; [|intros Hrej; exfalso; apply Hrej; by left].
      intros _. by eexists. }
  destruct (Z.ltb_spec (maxSize options)
              (size st + TX.getNormalSizes (tx item))) as [Hbig|Hfits].
  { split; [|intros Hrej; exfalso; apply Hrej; right; by left].
    intros _. by eexists. }
  destruct (Z.ltb_spec (maxSigops options) (sigops_ st + sigops item))
    as [Hmany|Hfew].
  { split; [|intros Hrej; exfalso; apply Hrej; right; by right].
    intros _. by eexists. }
  destruct (free item) eqn:Hfree; cbn [andb].
  - destruct (Z.leb_spec (minSize options)
                (size st + TX.getNormalSizes (tx item))) as [Hmin'|Hbelow].
    + split; [|intros _ Hfree'; exfalso; by apply Hfree'].
      intros _. by eexists.
    + split; [intros [[?|[?|?]]|[_ ?]]; try done; lia|].
      intros _ _. apply commit_effect.
  - split; [intros [[?|[?|?]]|[? _]]; try done; lia|].
    intros _ _. apply commit_effect.
Qed.

Lemma assemble_fee_rate_step_witness :
  exists st',
    step Examples.roomyOptions 100 0 ∅
      (Examples.feeRateState [Examples.freeEntry; Examples.paidEntry])
    = Some st'
    /\ items st' = [Examples.paidEntry].
Proof.
  destruct (assemble_fee_rate_step Examples.roomyOptions 100 0 ∅
              (Examples.feeRateState [Examples.freeEntry; Examples.paidEntry]))
    as (item & heap & Hshift & _ & _ & _ & Hcommit); [reflexivity|discriminate|].
  vm_compute in Hshift. injection Hshift as <- <-.
  destruct Hcommit as (st' & freed & Hstep & _ & _ & _ & Hitems & _).
  - intros [Hfinal|[Hsize|Hsigops]]; vm_compute in *; discriminate.
  - intros [Hfree _]. discriminate Hfree.
  - exists st'. split; [exact Hstep | exact Hitems].
Defined.

(** C7 as stated fails: the popped entry is final and fits maxSize and
    maxSigops, yet it is left out of the template because it is free
    and the block has reached minSize. *)
Lemma assemble_skips_free_entry :
  ~ rejected Examples.roomyOptions 100 0
      (Examples.feeRateState [Examples.freeEntry]) Examples.freeEntry
  /\ shift cmpRate [Examples.freeEntry] = Some (Examples.freeEntry, [])
  /\ exists st',
      step Examples.roomyOptions 100 0 ∅
        (Examples.feeRateState [Examples.freeEntry]) = Some st'
      /\ items st' = [] /\ fees st' = 0 /\ size st' = 1000.
Proof.
  split.
  - intros [Hfinal|[Hsize|Hsigops]]; vm_compute in *; discriminate.
  - split; [reflexivity|]. eexists. split; [vm_compute; reflexivity|done].
Qed.

End Assembly.

(** ** Cash difficulty adjustment *)

Section CashDifficulty.
Import Difficulty.

(** C2 (amended): starting from a sixteenth of the limit
    ([pow.limit >> 4]) and 2049 blocks at the nominal 600-second
    spacing, which leave the target where it started, followed by the
    blocks of the test with the same bits (ten on spacing, one 6000 s
    late, one 4800 s early, twenty on spacing, one after 550 s), ten
    further blocks with 550-second spacing drive [getCashTarget] to
    exactly [0x1c0fe7b1]. *)
Theorem cash_target_tested_sequence :
  testedSequence = Some 0x1c0fe7b1
  /\ current <$> retarget (pile 2049 600 (start (Z.shiftr pow_limit 4)))
     = Some (Consensus.toCompact (Z.shiftr pow_limit 4)).
Proof. split; vm_compute; reflexivity. Qed.

(** The model yields every literal value the test checks. *)
Example cash_target_test_literals :
  testedLiterals
  = Some [0x1c0fe7b1; 0x1c0db19f; 0x1c0d9222; 0x1c2f13b9; 0x1c2ee9bf; 0x1d00ffff].
Proof. vm_compute. reflexivity. Qed.

(** C2 as stated fails: from half the limit the ten 550-second blocks
    lead to [0x1c7f519e], and to [0x1c7f3d96] with the intermediate
    blocks of the test. *)
Lemma cash_target_from_half_limit :
  claimedSequence = Some 0x1c7f519e
  /\ testedSequenceFromHalfLimit = Some 0x1c7f3d96
  /\ claimedSequence <> Some 0x1c0fe7b1.
Proof.
  assert (claimedSequence = Some 0x1c7f519e) as H by (vm_compute; reflexivity).
  split; [exact H|]. split; [vm_compute; reflexivity|].
  rewrite H. discriminate.
Qed.

End CashDifficulty.

(** ** Bits of the 32-bit operators *)

Section JSBits.
Import JS.

Lemma int32_range z : - 2 ^ 31 <= int32 z < 2 ^ 31.
Proof.
  unfold int32. pose proof (Z.mod_pos_bound (z + 2 ^ 31) (2 ^ 32)). lia.
Qed.

Lemma int32_testbit z i : 0 <= i < 32 -> Z.testbit (int32 z) i = Z.testbit z i.
Proof.
  intros Hi. rewrite <- (Z.mod_pow2_bits_low (int32 z) 32 i) by lia.
  rewrite int32_mod. apply Z.mod_pow2_bits_low. lia.
Qed.

(** Two numbers with the same 32 low bits have the same [int32]. *)
Lemma int32_eq_bits a b :
  (forall i, 0 <= i < 32 -> Z.testbit a i = Z.testbit b i) -> int32 a = int32 b.
Proof.
  intros Hbits.
  assert (a mod 2 ^ 32 = b mod 2 ^ 32) as Hmod.
  { apply Z.bits_inj'. intros i Hi. rewrite !Z.testbit_mod_pow2 by lia.
    destruct (Z.ltb_spec i 32); [|done]. cbn [andb]. apply Hbits. lia. }
  unfold int32. rewrite <- (Zplus_mod_idemp_l a), <- (Zplus_mod_idemp_l b).
  by rewrite Hmod.
Qed.

Lemma int32_pow2_nonzero k : 0 <= k < 32 -> int32 (2 ^ k) <> 0.
Proof.
  intros Hk Hzero.
  assert (Z.testbit (int32 (2 ^ k)) k = true) as Hbit.
  { rewrite int32_testbit by lia. apply Z.pow2_bits_true. lia. }
  rewrite Hzero, Z.bits_0 in Hbit. done.
Qed.

(** [x & m] for a mask [m] whose only bit among the 32 low ones is
    bit [k]. *)
Lemma and_bit_value x m k :
  0 <= k < 32 ->
  (forall i, 0 <= i < 32 -> Z.testbit m i = (k =? i)) ->
  and x m = if Z.testbit x k then int32 (2 ^ k) else 0.
Proof.
  intros Hk Hm. unfold and.
  assert (int32 0 = 0) as Hz by done.
  destruct (Z.testbit x k) eqn:Hx; [|rewrite <- Hz]; apply int32_eq_bits;
    intros i Hi; rewrite Z.land_spec, !int32_testbit, Hm by lia.
  - rewrite Z.pow2_bits_eqb by lia.
    destruct (Z.eqb_spec k i) as [<-|_]; [by rewrite Hx|apply andb_false_r].
  - rewrite Z.bits_0.
    destruct (Z.eqb_spec k i) as [<-|_]; [by rewrite Hx|apply andb_false_r].
Qed.

Lemma and_bit_test x m k :
  0 <= k < 32 ->
  (forall i, 0 <= i < 32 -> Z.testbit m i = (k =? i)) ->
  (and x m =? 0) = negb (Z.testbit x k).
Proof.
  intros Hk Hm. rewrite (and_bit_value x m k) by done.
  destruct (Z.testbit x k); [|done].
  apply Z.eqb_neq. by apply int32_pow2_nonzero.
Qed.

Lemma pow2_mask_bits k i : 0 <= k -> Z.testbit (2 ^ k) i = (k =? i).
Proof. intros Hk. by apply Z.pow2_bits_eqb. Qed.

Lemma shl_one_bits k i :
  0 <= k < 32 -> 0 <= i < 32 -> Z.testbit (shl 1 k) i = (k =? i).
Proof.
  intros Hk Hi. unfold shl. rewrite int32_testbit by lia.
  rewrite (int32_small 1) by lia. rewrite Z.mod_small by lia.
  rewrite Z.shiftl_1_l. apply Z.pow2_bits_eqb. lia.
Qed.

(** [(x & m) >>> 0]: the bits of [x] the mask selects. *)
Lemma and_unsigned_bits x m i :
  0 <= i ->
  Z.testbit (shr (and x m) 0) i = (i <? 32) && (Z.testbit x i && Z.testbit m i).
Proof.
  intros Hi. unfold shr, uint32. change (0 mod 32) with 0.
  rewrite Z.shiftr_0_r, Z.testbit_mod_pow2 by lia.
  destruct (Z.ltb_spec i 32); [|done]. cbn [andb]. unfold and.
  rewrite int32_testbit, Z.land_spec, !int32_testbit by lia. done.
Qed.

End JSBits.

(** ** Further properties of protocol/consensus.js *)

Section ConsensusFacts.
Import Consensus.

Lemma getReward_shift (height interval : Z) :
  0 < interval -> 0 <= height ->
  getReward height interval = JS.Ok (Z.shiftr BASE_REWARD (height / interval)).
Proof.
  intros Hi Hh. rewrite getReward_eras by done. f_equal.
  assert (0 <= height / interval) as Hk by (apply Z.div_pos; lia).
  set (k := height / interval) in *.
  destruct (Z.leb_spec 33 k) as [Hbig|Hsmall].
  - symmetry. rewrite Z.shiftr_div_pow2 by lia. apply Z.div_small.
    split; [unfold BASE_REWARD, COIN; lia|].
    apply Z.lt_le_trans with (2 ^ 33); [unfold BASE_REWARD, COIN; lia|].
    apply Z.pow_le_mono_r; lia.
  - destruct (Z.eqb_spec k 0) as [->|Hnz]; [done|].
    change HALF_REWARD with (Z.shiftr BASE_REWARD 1).
    rewrite Z.shiftr_shiftr by lia. f_equal. lia.
Qed.

(** X1: [getReward] pays exactly the base reward halved once per
    elapsed interval, rounded down: the detour through [HALF_REWARD]
    and the 32-bit shift loses nothing, and the cut-off at 33 halvings
    is where the quotient reaches zero. *)
Theorem getReward_halves_exactly (height interval : Z) :
  0 < interval -> 0 <= height ->
  getReward height interval = JS.Ok (BASE_REWARD / 2 ^ (height / interval)).
Proof.
  intros Hi Hh. rewrite getReward_shift by done.
  rewrite Z.shiftr_div_pow2; [done|]. apply Z.div_pos; lia.
Qed.

Lemma getReward_halves_exactly_witness :
  getReward 630000 210000 = JS.Ok (BASE_REWARD / 2 ^ (630000 / 210000)).
Proof. apply (getReward_halves_exactly 630000 210000); lia. Defined.

(** X2: the reward never grows with the height: a later block is paid
    at most what an earlier one is, never less than zero and never more
    than [BASE_REWARD]. *)
Theorem getReward_nonincreasing (interval h1 h2 : Z) :
  0 < interval -> 0 <= h1 <= h2 ->
  exists r1 r2,
    getReward h1 interval = JS.Ok r1
    /\ getReward h2 interval = JS.Ok r2
    /\ 0 <= r2 <= r1 /\ r1 <= BASE_REWARD.
Proof.
  intros Hi Hh. eexists _, _.
  split; [apply getReward_shift; lia|]. split; [apply getReward_shift; lia|].
  assert (0 <= h1 / interval) by (apply Z.div_pos; lia).
  assert (h1 / interval <= h2 / interval) by (apply Z.div_le_mono; lia).
  rewrite !Z.shiftr_div_pow2 by lia.
  assert (0 < 2 ^ (h1 / interval)) by (apply Z.pow_pos_nonneg; lia).
  assert (2 ^ (h1 / interval) <= 2 ^ (h2 / interval))
    by (apply Z.pow_le_mono_r; lia).
  assert (0 <= BASE_REWARD) by (unfold BASE_REWARD, COIN; lia).
  split; [split|].
  - apply Z.div_pos; lia.
  - apply Z.div_le_compat_l; lia.
  - apply Z.div_le_upper_bound; [lia|]. nia.
Qed.

Lemma getReward_nonincreasing_witness :
  exists r1 r2,
    getReward 209999 210000 = JS.Ok r1
    /\ getReward 210000 210000 = JS.Ok r2
    /\ 0 <= r2 <= r1 /\ r1 <= BASE_REWARD.
Proof. apply (getReward_nonincreasing 210000 209999 210000); lia. Defined.



End ConsensusFacts.

(** ** Version bits *)

Section VersionBits.
Import Consensus.

Lemma top_mask_bits i :
  0 <= i < 32 -> Z.testbit VERSION_TOP_MASK i = (29 <=? i).
Proof.
  intros Hi. change VERSION_TOP_MASK with (Z.shiftl 7 29).
  rewrite Z.shiftl_spec by lia.
  destruct (Z.leb_spec 29 i).
  - assert (i = 29 \/ i = 30 \/ i = 31) as [-> | [-> | ->]] by lia; reflexivity.
  - apply Z.testbit_neg_r. lia.
Qed.

Lemma top_bits_test version :
  (JS.shr (JS.and version VERSION_TOP_MASK) 0 =? VERSION_TOP_BITS)
  = negb (Z.testbit version 31) && negb (Z.testbit version 30)
    && Z.testbit version 29.
Proof.
  set (u := JS.shr (JS.and version VERSION_TOP_MASK) 0).
  assert (forall i, 0 <= i ->
            Z.testbit u i = (i <? 32) && (Z.testbit version i && (29 <=? i)))
    as Hu.
  { intros i Hi. unfold u. rewrite and_unsigned_bits by done.
    destruct (Z.ltb_spec i 32); [|done]. by rewrite top_mask_bits by lia. }
  change VERSION_TOP_BITS with (2 ^ 29).
  destruct (Z.eqb_spec u (2 ^ 29)) as [Heq|Hne].
  - pose proof (Hu 29 ltac:(lia)) as H29. pose proof (Hu 30 ltac:(lia)) as H30.
    pose proof (Hu 31 ltac:(lia)) as H31. rewrite Heq in H29, H30, H31.
    rewrite Z.pow2_bits_eqb in H29, H30, H31 by lia.
    change (true = true && (Z.testbit version 29 && true)) in H29.
    change (false = true && (Z.testbit version 30 && true)) in H30.
    change (false = true && (Z.testbit version 31 && true)) in H31.
    cbn [andb] in H29, H30, H31.
    rewrite andb_true_r in H29, H30, H31. by rewrite <- H29, <- H30, <- H31.
  - destruct (Z.testbit version 31) eqn:H31; [done|].
    destruct (Z.testbit version 30) eqn:H30; [done|].
    destruct (Z.testbit version 29) eqn:H29; [|done].
    exfalso. apply Hne. apply Z.bits_inj'. intros i Hi.
    rewrite Hu, Z.pow2_bits_eqb by lia.
    destruct (Z.ltb_spec i 32) as [Hlt|Hge]; cbn [andb].
    + destruct (Z.leb_spec 29 i) as [Hhi|Hlo].
      * assert (i = 29 \/ i = 30 \/ i = 31) as [-> | [-> | ->]] by lia;
          rewrite ?H29, ?H30, ?H31; reflexivity.
      * rewrite andb_false_r. symmetry. apply Z.eqb_neq. lia.
    + symmetry. apply Z.eqb_neq. lia.
Qed.

(** X4: [hasBit(version, bit)] holds exactly when the three top bits
    of the version are [001] and bit [bit] of the version is set, for
    every integer version and every bit position below 32; so bit 29
    is set in every such version, and bits 30 and 31 never are. *)
Theorem hasBit_spec (version bit : Z) :
  0 <= bit < 32 ->
  hasBit version bit
  = negb (Z.testbit version 31) && negb (Z.testbit version 30)
    && Z.testbit version 29 && Z.testbit version bit
  /\ (30 <= bit -> hasBit version bit = false).
Proof.
  intros Hb.
  assert (hasBit version bit
          = negb (Z.testbit version 31) && negb (Z.testbit version 30)
            && Z.testbit version 29 && Z.testbit version bit) as Hspec.
  { unfold hasBit. cbv zeta. rewrite top_bits_test.
    rewrite (and_bit_test version (JS.shl 1 bit) bit) by
      (try done; intros i Hi; by apply shl_one_bits).
    by rewrite negb_involutive. }
  split; [done|]. intros Hhigh. rewrite Hspec.
  assert (bit = 30 \/ bit = 31) as [-> | ->] by lia.
  - destruct (Z.testbit version 30), (Z.testbit version 31),
      (Z.testbit version 29); done.
  - destruct (Z.testbit version 31), (Z.testbit version 30),
      (Z.testbit version 29); done.
Qed.

Lemma hasBit_spec_witness :
  hasBit 0x20000002 1
  = negb (Z.testbit 0x20000002 31) && negb (Z.testbit 0x20000002 30)
    && Z.testbit 0x20000002 29 && Z.testbit 0x20000002 1
  /\ (30 <= 1 -> hasBit 0x20000002 1 = false).
Proof. apply (hasBit_spec 0x20000002 1). lia. Defined.

End VersionBits.

(** ** Proof of work *)

Section ProofOfWork.
Import Consensus.

(** X5: [verifyPOW(hash, bits)] accepts exactly when the target that
    [bits] encodes is positive and below [2^256] and the hash, read as
    a little-endian number, does not exceed it. *)
Theorem verifyPOW_accepts (hash : list Z) (bits : Z) :
  verifyPOW hash bits = true
  <-> 0 < fromCompact bits < 2 ^ 256 /\ fromLE hash <= fromCompact bits.
Proof.
  unfold verifyPOW. cbv zeta. set (target := fromCompact bits).
  destruct (Z.ltb_spec target 0) as [Hneg|Hnn]; cbn [orb].
  { split; [done|lia]. }
  destruct (Z.eqb_spec target 0) as [Hzero|Hnz].
  { split; [done|lia]. }
  assert (0 < target) as Hpos by lia.
  unfold bitLength. destruct (Z.eqb_spec target 0) as [|_]; [lia|].
  rewrite Z.abs_eq by lia.
  pose proof (Z.log2_lt_pow2 target 256 Hpos) as Hlog.
  destruct (Z.ltb_spec 256 (Z.log2 target + 1)) as [Hbig|Hfit].
  { split; [done|]. intros [[_ Hlt] _]. apply Hlog in Hlt. lia. }
  assert (target < 2 ^ 256) as Hlt by (apply Hlog; lia).
  destruct (Z.ltb_spec target (fromLE hash)); split; try done; lia.
Qed.

(** X6: a compact value with the sign bit (bit 23) set is rejected for
    every hash: it encodes a negative target, or zero. *)
Theorem verifyPOW_rejects_sign_bit (hash : list Z) (bits : Z) :
  0 <= bits < 2 ^ 32 -> Z.testbit bits 23 = true ->
  verifyPOW hash bits = false.
Proof.
  intros Hc Hsign.
  apply Z.testbit_true in Hsign; [|lia].
  set (e := bits / 2 ^ 24). set (m := bits mod 2 ^ 23).
  assert (0 <= e <= 255).
  { unfold e. split; [apply Z.div_pos; lia|].
    apply Z.lt_succ_r. apply Z.div_lt_upper_bound; lia. }
  assert (0 <= m < 2 ^ 23) by (unfold m; apply Z.mod_pos_bound; lia).
  assert (bits = e * 2 ^ 24 + 1 * 2 ^ 23 + m) as Hfields.
  { unfold e, m.
    pose proof (Z.div_mod bits (2 ^ 23) ltac:(lia)).
    pose proof (Z.div_mod (bits / 2 ^ 23) 2 ltac:(lia)).
    assert (bits / 2 ^ 24 = bits / 2 ^ 23 / 2) as ->.
    { rewrite Z.div_div by lia. done. }
    lia. }
  assert (fromCompact bits <= 0) as Htarget.
  { rewrite Hfields. rewrite fromCompact_fields by lia. cbv zeta.
    change (1 =? 0) with false. cbv iota.
    assert (0 <= (if e <=? 3 then Z.shiftr m (8 * (3 - e))
                  else Z.shiftl m (8 * (e - 3)))); [|lia].
    destruct (e <=? 3); [apply Z.shiftr_nonneg | apply Z.shiftl_nonneg]; lia. }
  unfold verifyPOW. cbv zeta.
  destruct (Z.ltb_spec (fromCompact bits) 0); [done|].
  destruct (Z.eqb_spec (fromCompact bits) 0); [done|lia].
Qed.

Lemma verifyPOW_rejects_sign_bit_witness :
  verifyPOW (repeat 0 32) 0x1d80ffff = false.
Proof.
  apply (verifyPOW_rejects_sign_bit (repeat 0 32) 0x1d80ffff);
    [lia | reflexivity].
Defined.

End ProofOfWork.

(** ** Rounding of the compact encoding *)

Section CompactRounding.
Import Consensus.

Lemma shift_truncate t a :
  0 <= t -> 0 <= a ->
  Z.shiftl (Z.shiftr t a) a <= t < Z.shiftl (Z.shiftr t a) a + 2 ^ a.
Proof.
  intros Ht Ha. rewrite Z.shiftr_div_pow2, Z.shiftl_mul_pow2 by lia.
  assert (0 < 2 ^ a) by (apply Z.pow_pos_nonneg; lia).
  pose proof (Z.div_mod t (2 ^ a) ltac:(lia)).
  pose proof (Z.mod_pos_bound t (2 ^ a) ltac:(lia)). lia.
Qed.

Lemma shift_truncate_pos t a b :
  0 <= a -> 0 <= b -> 2 ^ (a + b) <= t -> 0 < Z.shiftl (Z.shiftr t a) a.
Proof.
  intros Ha Hb Ht. rewrite Z.shiftr_div_pow2, Z.shiftl_mul_pow2 by lia.
  assert (0 < 2 ^ a) by (apply Z.pow_pos_nonneg; lia).
  assert (0 < 2 ^ b) by (apply Z.pow_pos_nonneg; lia).
  assert (2 ^ b <= t / 2 ^ a).
  { apply Z.div_le_lower_bound; [lia|]. rewrite <- Z.pow_add_r by lia. done. }
  nia.
Qed.

(** X7: encoding a target of at most 256 bits in compact form and
    decoding it back rounds the target down, to a positive number, and
    loses less than the fraction [2^-15] of it. *)
Theorem compact_rounds_down (t : Z) :
  0 < t < 2 ^ 256 ->
  0 < fromCompact (toCompact t) <= t
  /\ (t - fromCompact (toCompact t)) * 2 ^ 15 < t.
Proof.
  intros [Ht Hmax].
  destruct (byteLength_bounds t Ht) as (Hn & Hlo & Hhi).
  pose proof (rawMantissa_bounds t Ht) as Hm0.
  assert (byteLength t <= 32) as Hn32.
  { assert (8 * (byteLength t - 1) < 256); [|lia].
    apply (Z.pow_lt_mono_r_iff 2); lia. }
  rewrite toCompact_pos;
    [|done|destruct (rawMantissa t <? 2 ^ 23); lia].
  set (n := byteLength t) in *.
  destruct (Z.ltb_spec (rawMantissa t) (2 ^ 23)) as [Hlt|Hge].
  - replace (n * 2 ^ 24 + rawMantissa t)
      with (n * 2 ^ 24 + 0 * 2 ^ 23 + rawMantissa t) by lia.
    rewrite fromCompact_fields by lia. cbn [Z.eqb]. cbv zeta.
    unfold rawMantissa. fold n.
    destruct (Z.leb_spec n 3) as [Hle|Hgt].
    + rewrite Z.shiftr_shiftl_l by lia. rewrite Z.sub_diag, Z.shiftl_0_r. lia.
    + pose proof (shift_truncate t (8 * (n - 3)) ltac:(lia) ltac:(lia)) as Htr.
      pose proof (shift_truncate_pos t (8 * (n - 3)) 16 ltac:(lia) ltac:(lia))
        as Hpos.
      set (t' := Z.shiftl (Z.shiftr t (8 * (n - 3))) (8 * (n - 3))) in *.
      assert (2 ^ (8 * (n - 3)) * 2 ^ 15 <= 2 ^ (8 * (n - 1))).
      { rewrite <- Z.pow_add_r by lia. apply Z.pow_le_mono_r; lia. }
      assert (2 ^ (8 * (n - 3) + 16) <= t).
      { eapply Z.le_trans; [|apply Hlo]. apply Z.pow_le_mono_r; lia. }
      split; [lia|]. nia.
  - assert (0 <= Z.shiftr (rawMantissa t) 8 < 2 ^ 16).
    { rewrite Z.shiftr_div_pow2 by lia. split.
      - apply Z.div_pos; lia.
      - apply Z.div_lt_upper_bound; lia. }
    replace ((n + 1) * 2 ^ 24 + Z.shiftr (rawMantissa t) 8)
      with ((n + 1) * 2 ^ 24 + 0 * 2 ^ 23 + Z.shiftr (rawMantissa t) 8) by lia.
    rewrite fromCompact_fields by lia. cbn [Z.eqb]. cbv zeta.
    destruct (Z.leb_spec (n + 1) 3) as [Hle|Hgt].
    + unfold rawMantissa. fold n.
      destruct (Z.leb_spec n 3) as [_|]; [|lia].
      rewrite Z.shiftr_shiftr by lia. rewrite Z.shiftr_shiftl_l by lia.
      replace (8 * (3 - n) - (8 + 8 * (3 - (n + 1)))) with 0 by lia.
      rewrite Z.shiftl_0_r. lia.
    + rewrite rawMantissa_high in Hge |- * by (fold n; lia). fold n in Hge |- *.
      rewrite Z.shiftr_shiftr by lia.
      replace (8 * (n - 3) + 8) with (8 * (n - 2)) by lia.
      replace (8 * (n + 1 - 3)) with (8 * (n - 2)) by lia.
      assert (2 ^ (8 * (n - 2) + 15) <= t) as Hbig.
      { rewrite Z.shiftr_div_pow2 in Hge by lia.
        assert (0 < 2 ^ (8 * (n - 3))) by (apply Z.pow_pos_nonneg; lia).
        pose proof (Z.mul_div_le t (2 ^ (8 * (n - 3))) ltac:(lia)).
        replace (8 * (n - 2) + 15) with (8 * (n - 3) + 23) by lia.
        rewrite Z.pow_add_r by lia. nia. }
      pose proof (shift_truncate t (8 * (n - 2)) ltac:(lia) ltac:(lia)) as Htr.
      pose proof (shift_truncate_pos t (8 * (n - 2)) 15 ltac:(lia) ltac:(lia)
                    Hbig) as Hpos.
      set (t' := Z.shiftl (Z.shiftr t (8 * (n - 2))) (8 * (n - 2))) in *.
      rewrite Z.pow_add_r in Hbig by lia.
      split; [lia|]. nia.
Qed.

Lemma compact_rounds_down_witness :
  0 < fromCompact (toCompact (2 ^ 224 - 1)) <= 2 ^ 224 - 1
  /\ (2 ^ 224 - 1 - fromCompact (toCompact (2 ^ 224 - 1))) * 2 ^ 15
     < 2 ^ 224 - 1.
Proof. apply (compact_rounds_down (2 ^ 224 - 1)). lia. Defined.

End CompactRounding.

(** ** Locktimes *)

Section Locktimes.
Import Encoding Consensus TX.
Local Open Scope list_scope.
Local Open Scope Z_scope.

Lemma at_index_elem {A} (l : list A) (index : Z) (x : A) :
  at_index l index = Some x -> x ∈ l.
Proof.
  unfold at_index. destruct (index <? 0); [done|].
  apply list_elem_of_lookup_2.
Qed.

(** X8: finality is monotone: a transaction that is final at a height
    and time stays final at every later height and time. *)
Theorem isFinal_monotone (tx : TX.t) (height time height' time' : Z) :
  height <= height' -> time <= time' ->
  isFinal tx height time = true -> isFinal tx height' time' = true.
Proof.
  intros Hh Ht. unfold isFinal.
  destruct (locktime tx =? 0); [done|].
  destruct (locktime tx <? LOCKTIME_THRESHOLD).
  - destruct (Z.ltb_spec (locktime tx) height),
      (Z.ltb_spec (locktime tx) height'); try done; lia.
  - destruct (Z.ltb_spec (locktime tx) time),
      (Z.ltb_spec (locktime tx) time'); try done; lia.
Qed.

Lemma isFinal_monotone_witness : isFinal Examples.lockedTX 102 0 = true.
Proof.
  apply (isFinal_monotone Examples.lockedTX 101 0 102 0);
    [lia | lia | reflexivity].
Defined.

(** X9: what OP_CHECKLOCKTIMEVERIFY buys: when [verifyLocktime]
    accepts a positive locktime for an input, the transaction is final
    only at a height (for a locktime below the threshold) or a time
    (otherwise) strictly beyond that locktime. *)
Theorem verifyLocktime_enforced (tx : TX.t) (index predicate height time : Z) :
  verifyLocktime tx index predicate = JS.Ok true ->
  0 < predicate ->
  isFinal tx height time = true ->
  predicate < (if predicate <? LOCKTIME_THRESHOLD then height else time).
Proof.
  unfold verifyLocktime, isFinal.
  destruct (at_index (inputs tx) index) as [input|] eqn:Hinput; [|done].
  destruct (0 <=? predicate); cbn; [|done].
  destruct (Bool.eqb (locktime tx <? LOCKTIME_THRESHOLD)
                     (predicate <? LOCKTIME_THRESHOLD)) eqn:Htype;
    cbn [negb]; [|done].
  apply eqb_prop in Htype.
  destruct (Z.ltb_spec (locktime tx) predicate) as [|Hle]; [done|].
  destruct (Z.eqb_spec (Input.sequence input) 0xffffffff) as [|Hseq]; [done|].
  intros _ Hpos.
  destruct (Z.eqb_spec (locktime tx) 0) as [|_]; [lia|].
  rewrite Htype.
  destruct (Z.ltb_spec (locktime tx)
              (if predicate <? LOCKTIME_THRESHOLD then height else time))
    as [Hlt|_]; [lia|].
  intros Hall. rewrite forallb_forall in Hall.
  apply at_index_elem in Hinput. apply list_elem_of_In in Hinput.
  specialize (Hall input Hinput). apply Z.eqb_eq in Hall. done.
Qed.

Lemma verifyLocktime_enforced_witness :
  50 < (if 50 <? LOCKTIME_THRESHOLD then 101 else 0).
Proof.
  apply (verifyLocktime_enforced Examples.lockedTX 0 50 101 0);
    [reflexivity | lia | reflexivity].
Defined.

Lemma sequence_type_test s p :
  (JS.and s SEQUENCE_TYPE_FLAG =? JS.and p SEQUENCE_TYPE_FLAG)
  = Bool.eqb (Z.testbit s 22) (Z.testbit p 22).
Proof.
  change SEQUENCE_TYPE_FLAG with (2 ^ 22).
  rewrite (and_bit_value s (2 ^ 22) 22), (and_bit_value p (2 ^ 22) 22)
    by (try lia; intros i _; apply pow2_mask_bits; lia).
  pose proof (int32_pow2_nonzero 22 ltac:(lia)) as Hnz.
  destruct (Z.testbit s 22), (Z.testbit p 22); cbn [Bool.eqb].
  - apply Z.eqb_refl.
  - by apply Z.eqb_neq.
  - apply Z.eqb_neq. congruence.
  - done.
Qed.

(** X10: [verifySequence] in terms of the bits of its operands, for
    every non-negative predicate and every sequence number: it accepts
    when bit 31 of the predicate is set, and otherwise exactly when the
    version is at least 2, bit 31 of the input's sequence is clear, bit
    22 (the unit of the lock) agrees in both and the 16 low bits of the
    predicate do not exceed those of the sequence.  Only the 32 low
    bits of the predicate matter. *)
Theorem verifySequence_spec (tx : TX.t) (index predicate : Z) (input : Input.t) :
  at_index (inputs tx) index = Some input -> 0 <= predicate ->
  verifySequence tx index predicate
  = JS.Ok (Z.testbit predicate 31
           || (2 <=? version tx)
              && negb (Z.testbit (Input.sequence input) 31)
              && Bool.eqb (Z.testbit (Input.sequence input) 22)
                          (Z.testbit predicate 22)
              && (predicate mod 2 ^ 16 <=? Input.sequence input mod 2 ^ 16)).
Proof.
  intros Hinput Hpos. unfold verifySequence. rewrite Hinput.
  destruct (Z.leb_spec 0 predicate) as [_|]; [|lia]. cbn [JS.assert JS.bind].
  change SEQUENCE_DISABLE_FLAG with (2 ^ 31).
  rewrite !(and_bit_test _ (2 ^ 31) 31)
    by (try lia; intros i _; apply pow2_mask_bits; lia).
  rewrite !negb_involutive, sequence_type_test.
  change SEQUENCE_MASK with (Z.ones 16). rewrite !and_ones by lia.
  destruct (Z.testbit predicate 31); [done|]. cbn [orb].
  destruct (Z.ltb_spec (version tx) 2), (Z.leb_spec 2 (version tx));
    try lia; [done|]. cbn [andb].
  destruct (Z.testbit (Input.sequence input) 31); [done|]. cbn [negb andb].
  destruct (Bool.eqb _ _); [|done]. cbn [negb andb].
  destruct (Z.ltb_spec (Input.sequence input mod 2 ^ 16) (predicate mod 2 ^ 16)),
    (Z.leb_spec (predicate mod 2 ^ 16) (Input.sequence input mod 2 ^ 16));
    try lia; done.
Qed.

Lemma verifySequence_spec_witness :
  verifySequence Examples.lockedTX 0 5 = JS.Ok true.
Proof.
  apply (verifySequence_spec Examples.lockedTX 0 5
           {| Input.prevout := Examples.outpoint 1 0; Input.script := [];
              Input.sequence := 10 |}); [reflexivity | lia].
Defined.

End Locktimes.

(** ** Fees and modified size *)

Section TXValues.
Import Encoding Consensus TX TXRules.
Local Open Scope string_scope.
Local Open Scope list_scope.
Local Open Scope Z_scope.

Lemma spendable_hasCoins view height (tx : TX.t) :
  inputs tx <> [] -> Forall (spendable view height) (inputs tx) ->
  hasCoins view tx = true.
Proof.
  intros Hins Hall. unfold hasCoins.
  destruct (Z.eqb_spec (len (inputs tx)) 0) as [Hlen|_].
  { destruct (inputs tx); [done|]. unfold len in Hlen. cbn in Hlen. lia. }
  apply forallb_forall. intros input Hin. apply list_elem_of_In in Hin.
  rewrite Forall_forall in Hall.
  destruct (Hall input Hin) as (entry & Hentry & _).
  unfold CoinView.hasEntry. rewrite Hentry. by apply bool_decide_eq_true_2.
Qed.

(** X11: the fee the contextual check reports is the fee [getFee]
    computes: when [verifyInputs] accepts a transaction that has
    inputs, every input resolves in the view, [checkInputs] returns
    [getFee(view)], and that fee lies within [0, MAX_MONEY]. *)
Theorem verifyInputs_getFee
    (tx : TX.t) (view : gmap (bytes * Z) CoinView.CoinEntry) (height : Z) :
  inputs tx <> [] ->
  verifyInputs tx view height = JS.Ok true ->
  hasCoins view tx = true
  /\ checkInputs tx view height = JS.Ok (getFee view tx, "valid", 0)
  /\ 0 <= getFee view tx <= MAX_MONEY.
Proof.
  intros Hins. unfold verifyInputs.
  destruct (checkInputs_cases tx view height)
    as [(reason & score & ->)|(Hall & -> & Hfee)]; cbn [JS.bind]; [done|].
  intros _. pose proof (spendable_hasCoins view height tx Hins Hall) as Hcoins.
  unfold getFee. rewrite Hcoins. cbn [negb]. done.
Qed.

Lemma verifyInputs_getFee_witness :
  let tx := Examples.mkTX [Examples.spend 2 0] [Examples.pay 1] in
  hasCoins Examples.youngCoinbaseView tx = true
  /\ checkInputs tx Examples.youngCoinbaseView 100
     = JS.Ok (getFee Examples.youngCoinbaseView tx, "valid", 0)
  /\ 0 <= getFee Examples.youngCoinbaseView tx <= MAX_MONEY.
Proof.
  apply (verifyInputs_getFee
           (Examples.mkTX [Examples.spend 2 0] [Examples.pay 1])
           Examples.youngCoinbaseView 100); [discriminate | reflexivity].
Defined.

(** The loop of [getModifiedSize]. *)
Lemma modified_loop_exact (ins : list Input.t) (size : Z) :
  total (fun input => 41 + Z.min 110 (Encoding.size (Input.script input))) ins
  < size ->
  foldl (fun size input =>
           let offset := 41 + Z.min 110 (Encoding.size (Input.script input)) in
           if offset <? size then size - offset else size) size ins
  = size
    - total (fun input => 41 + Z.min 110 (Encoding.size (Input.script input)))
            ins.
Proof.
  revert size. induction ins as [|input rest IH]; intros size; cbn [foldl total].
  - lia.
  - intros Hsum.
    assert (0 <= total (fun input =>
                   41 + Z.min 110 (Encoding.size (Input.script input))) rest).
    { apply total_nonneg. intros i. unfold Encoding.size.
      pose proof (len_nonneg (Input.script i)). lia. }
    destruct (Z.ltb_spec (41 + Z.min 110 (Encoding.size (Input.script input)))
                size); [|lia].
    rewrite IH by lia. lia.
Qed.

Lemma offsets_below_size (ins : list Input.t) :
  total (fun input => 41 + Z.min 110 (Encoding.size (Input.script input))) ins
  <= total Input.getSize ins.
Proof.
  induction ins as [|input rest IH]; cbn [total]; [done|].
  assert (41 + Z.min 110 (Encoding.size (Input.script input))
          <= Input.getSize input); [|lia].
  unfold Input.getSize, sizeVarBytes, Encoding.size.
  pose proof (sizeVarint_bounds (len (Input.script input))).
  pose proof (len_nonneg (Input.script input)). lia.
Qed.

(** X12: called without a size on a transaction that has inputs,
    [getModifiedSize] takes the serialized size and its guard never
    holds a subtraction back: the result is the serialized size less
    [41 + min(110, script size)] for every input, and it is
    positive. *)
Theorem getModifiedSize_own_size (tx : TX.t) :
  cacheCoherent tx -> inputs tx <> [] ->
  exists modified tx',
    getModifiedSize tx None = JS.Ok (modified, tx')
    /\ sameTransaction tx tx'
    /\ modified
       = getNormalSizes tx
         - total (fun input =>
                    41 + Z.min 110 (Encoding.size (Input.script input)))
                 (inputs tx)
    /\ 0 < modified.
Proof.
  intros Hcache Hins.
  destruct (getSize_coherent tx Hcache Hins) as (tx' & Hsize & Hsame & _).
  unfold getModifiedSize. rewrite Hsize. cbn [JS.bind fst snd].
  eexists _, tx'. split; [reflexivity|]. split; [done|].
  destruct Hsame as (_ & -> & _).
  pose proof (offsets_below_size (inputs tx)) as Hoff.
  pose proof (getNormalSizes_total tx) as Htotal.
  pose proof (sizeVarint_bounds (len (inputs tx))).
  pose proof (sizeVarint_bounds (len (outputs tx))).
  pose proof (total_nonneg Output.getSize (outputs tx)
                ltac:(intros o; pose proof (output_getSize_min o); lia)).
  rewrite modified_loop_exact by lia. split; [done|lia].
Qed.

Lemma getModifiedSize_own_size_witness :
  exists modified tx',
    getModifiedSize Examples.lockedTX None = JS.Ok (modified, tx')
    /\ sameTransaction Examples.lockedTX tx'
    /\ modified
       = getNormalSizes Examples.lockedTX
         - total (fun input =>
                    41 + Z.min 110 (Encoding.size (Input.script input)))
                 (inputs Examples.lockedTX)
    /\ 0 < modified.
Proof.
  apply (getModifiedSize_own_size Examples.lockedTX); [|discriminate].
  intros _ data Hraw. simpl in Hraw. discriminate Hraw.
Defined.

End TXValues.

(** ** Sizes of the serialization *)

Section Serialization.
Import Encoding Consensus TX TXRules.
Local Open Scope string_scope.
Local Open Scope list_scope.
Local Open Scope Z_scope.

Lemma len_app {A} (a b : list A) : len (a ++ b) = len a + len b.
Proof. unfold len. rewrite length_app. lia. Qed.

Lemma len_cons {A} (x : A) (l : list A) : len (x :: l) = 1 + len l.
Proof. unfold len. cbn [length]. lia. Qed.

Lemma len_le_bytes n v : len (le_bytes n v) = Z.of_nat n.
Proof.
  unfold len. f_equal. revert v. induction n as [|n IH]; intros v; [done|].
  cbn [le_bytes length]. by rewrite IH.
Qed.

Lemma len_writeVarint n : len (writeVarint n) = sizeVarint n.
Proof.
  unfold writeVarint, sizeVarint, writeU8, writeU16, writeU32, writeU64.
  destruct (n <? 0xfd); [by rewrite len_le_bytes|].
  destruct (n <=? 0xffff); [by rewrite len_cons, len_le_bytes|].
  destruct (n <=? 0xffffffff); by rewrite len_cons, len_le_bytes.
Qed.

Lemma len_writeVarBytes b : len (writeVarBytes b) = sizeVarBytes b.
Proof.
  unfold writeVarBytes, sizeVarBytes, size. by rewrite len_app, len_writeVarint.
Qed.

Lemma len_outpoint (o : Outpoint.t) :
  len (Outpoint.hash o) = 32 -> len (Outpoint.toWriter o) = 36.
Proof.
  intros Hhash. unfold Outpoint.toWriter, writeU32.
  rewrite len_app, len_le_bytes, Hhash. done.
Qed.

Lemma len_input (input : Input.t) :
  len (Outpoint.hash (Input.prevout input)) = 32 ->
  len (Input.toWriter input) = Input.getSize input.
Proof.
  intros Hhash. unfold Input.toWriter, Input.getSize, writeU32.
  rewrite !len_app, len_outpoint, len_writeVarBytes, len_le_bytes by done. lia.
Qed.

Lemma len_output (output : Output.t) :
  len (Output.toWriter output) = Output.getSize output.
Proof.
  unfold Output.toWriter, Output.getSize, writeI64.
  rewrite len_app, len_writeVarBytes, len_le_bytes. lia.
Qed.

Lemma len_concat_map {A} (f : A -> bytes) (g : A -> Z) (l : list A) :
  Forall (fun x => len (f x) = g x) l -> len (concat (map f l)) = total g l.
Proof.
  induction 1 as [|x rest Hx _ IH]; [done|].
  cbn [map concat total]. by rewrite len_app, Hx, IH.
Qed.

(** X13: the size [getNormalSizes] computes is the number of bytes
    [writeNormal] writes, so the buffer [frameNormal] allocates is
    filled exactly; every prevout hash is taken to be 32 bytes long. *)
Theorem frameNormal_size_is_length (tx : TX.t) (size : Z) (data : bytes) :
  Forall (fun input => len (Outpoint.hash (Input.prevout input)) = 32)
         (inputs tx) ->
  frameNormal tx = JS.Ok (size, data) ->
  size = getNormalSizes tx /\ len data = size.
Proof.
  intros Hhashes. unfold frameNormal, writeNormal.
  destruct (bool_decide (inputs tx = []) && negb (bool_decide (outputs tx = [])));
    [done|].
  cbn [JS.bind].
  match goal with |- JS.Ok (_, ?d) = _ -> _ => remember d as written eqn:Hw end.
  intros [= <- <-]. split; [done|]. subst written.
  rewrite getNormalSizes_total. unfold writeU32.
  rewrite !len_app, !len_le_bytes, !len_writeVarint.
  rewrite (len_concat_map Input.toWriter Input.getSize).
  2:{ eapply Forall_impl; [apply Hhashes|]. intros input. apply len_input. }
  rewrite (len_concat_map Output.toWriter Output.getSize).
  2:{ apply Forall_forall. intros output _. apply len_output. }
  lia.
Qed.

Lemma frameNormal_size_is_length_witness :
  exists data,
    frameNormal Examples.lockedTX = JS.Ok (getNormalSizes Examples.lockedTX, data)
    /\ len data = 61.
Proof.
  eexists. split; [reflexivity|].
  refine (proj2 (frameNormal_size_is_length Examples.lockedTX 61 _ _ eq_refl)).
  constructor; [reflexivity | constructor].
Defined.

(** X14: an immutable transaction serializes once: after [toRaw] the
    object holds the bytes, and every further [toRaw] returns these
    bytes and leaves the object as it is.  A mutable transaction keeps
    no bytes. *)
Theorem toRaw_cached (tx tx' : TX.t) (data : bytes) :
  toRaw tx = JS.Ok (data, tx') ->
  toRaw tx' = JS.Ok (data, tx')
  /\ (mutable tx = false -> _raw tx' = Some data)
  /\ (mutable tx = true -> tx' = tx /\ _raw tx = None).
Proof.
  unfold toRaw, frame. destruct (mutable tx) eqn:Hmut.
  - destruct (_raw tx) as [raw|] eqn:Hraw.
    { rewrite bool_decide_eq_true_2 by eauto. done. }
    rewrite bool_decide_eq_false_2 by (by intros [? ?]). cbn [negb JS.assert JS.bind].
    destruct (frameNormal tx) as [[size raw]| |msg] eqn:Hframe; cbn; try done.
    intros [= <- <-]. rewrite Hmut, Hraw.
    rewrite bool_decide_eq_false_2 by (by intros [? ?]).
    cbn [negb JS.assert JS.bind]. rewrite Hframe. cbn. done.
  - destruct (_raw tx) as [raw|] eqn:Hraw.
    + destruct (0 <=? _size tx) eqn:Hsize; cbn; [|done].
      intros [= <- <-]. rewrite Hmut, Hraw, Hsize. cbn. done.
    + destruct (frameNormal tx) as [[size raw]| |msg] eqn:Hframe; cbn; try done.
      intros [= <- <-]. cbn [setCache mutable _raw _size fst snd].
      rewrite Hmut.
      assert (size = getNormalSizes tx) as ->.
      { unfold frameNormal in Hframe.
        destruct (writeNormal tx); cbn in Hframe; congruence. }
      pose proof (getNormalSizes_min tx).
      destruct (Z.leb_spec 0 (getNormalSizes tx)); [|lia]. cbn. done.
Qed.

Lemma toRaw_cached_witness :
  exists data tx',
    toRaw Examples.lockedTX = JS.Ok (data, tx')
    /\ toRaw tx' = JS.Ok (data, tx') /\ _raw tx' = Some data.
Proof.
  eexists _, _. split; [reflexivity|].
  destruct (toRaw_cached Examples.lockedTX _ _ eq_refl) as (Hagain & Hkept & _).
  split; [exact Hagain | exact (Hkept eq_refl)].
Defined.

End Serialization.

(** ** What the legacy signature hash commits to *)

Section SighashCommitments.
Import Encoding Consensus TX.
Local Open Scope string_scope.
Local Open Scope list_scope.
Local Open Scope Z_scope.

Lemma at_index_out {A} (l : list A) (index : Z) :
  0 <= index -> (len l <=? index) = bool_decide (at_index l index = None).
Proof.
  intros Hpos. unfold at_index, len.
  destruct (Z.ltb_spec index 0) as [|_]; [lia|].
  destruct (Z.leb_spec (Z.of_nat (length l)) index) as [Hle|Hlt].
  - symmetry. apply bool_decide_eq_true_2. apply lookup_ge_None. lia.
  - symmetry. apply bool_decide_eq_false_2. rewrite lookup_ge_None. lia.
Qed.

Lemma at_index_same_bound {A} (l l' : list A) (index : Z) :
  at_index l index = at_index l' index ->
  (len l <=? index) = (len l' <=? index) \/ index < 0.
Proof.
  intros Hsame. destruct (Z.lt_ge_cases index 0) as [|Hpos]; [by right|left].
  rewrite !at_index_out by lia. by rewrite Hsame.
Qed.

(** X15: the outputs the legacy signature hash commits to: with
    SIGHASH_NONE none, with SIGHASH_SINGLE only the one at the index of
    the input.  Two transactions that differ in the other outputs only
    have the same signature hash. *)
Theorem signatureHashV0_outputs_committed
    (hash256 removeSeparators : bytes -> bytes) (tx tx' : TX.t) (index : Z)
    (prev : bytes) (type : Z) :
  version tx' = version tx -> inputs tx' = inputs tx ->
  locktime tx' = locktime tx ->
  JS.and type 0x1f = SIGHASH_NONE
  \/ (JS.and type 0x1f = SIGHASH_SINGLE
      /\ at_index (outputs tx') index = at_index (outputs tx) index) ->
  signatureHashV0 hash256 removeSeparators tx' index prev type
  = signatureHashV0 hash256 removeSeparators tx index prev type.
Proof.
  intros Hv Hi Hl Htype. unfold signatureHashV0, sighash_inputs.
  rewrite Hv, Hi, Hl.
  destruct Htype as [-> | [-> Hout]].
  - done.
  - change (SIGHASH_SINGLE =? SIGHASH_SINGLE) with true.
    change (SIGHASH_SINGLE =? SIGHASH_NONE) with false.
    cbn [andb orb]. rewrite Hout.
    destruct (at_index_same_bound _ _ _ Hout) as [-> | Hneg]; [done|].
    destruct (Z.leb_spec (len (outputs tx')) index) as [Hle|_];
      [pose proof (len_nonneg (outputs tx')); lia|].
    destruct (Z.leb_spec (len (outputs tx)) index) as [Hle|_];
      [pose proof (len_nonneg (outputs tx)); lia|].
    done.
Qed.

Lemma signatureHashV0_outputs_committed_witness :
  signatureHashV0 Examples.toyDigest Examples.toyDigest
    (Examples.mkTX [Examples.spend 1 0] [Examples.pay 2]) 0 [] SIGHASH_NONE
  = signatureHashV0 Examples.toyDigest Examples.toyDigest
      (Examples.mkTX [Examples.spend 1 0] [Examples.pay 1]) 0 [] SIGHASH_NONE.
Proof.
  apply signatureHashV0_outputs_committed; try reflexivity. by left.
Defined.

Lemma other_inputs_written (ins ins' : list Input.t) (index : Z)
    (prev : bytes) (type : Z) :
  Forall2 (fun input input' =>
             Input.prevout input' = Input.prevout input
             /\ (JS.and type 0x1f <> SIGHASH_NONE ->
                 JS.and type 0x1f <> SIGHASH_SINGLE ->
                 Input.sequence input' = Input.sequence input)) ins ins' ->
  at_index ins' index = at_index ins index ->
  imap (fun i input =>
          Outpoint.toWriter (Input.prevout input)
          ++ (if Z.of_nat i =? index
              then writeVarBytes prev ++ writeU32 (Input.sequence input)
              else writeVarint 0
                   ++ (if (JS.and type 0x1f =? SIGHASH_NONE)
                          || (JS.and type 0x1f =? SIGHASH_SINGLE)
                       then writeU32 0
                       else writeU32 (Input.sequence input)))) ins'
  = imap (fun i input =>
          Outpoint.toWriter (Input.prevout input)
          ++ (if Z.of_nat i =? index
              then writeVarBytes prev ++ writeU32 (Input.sequence input)
              else writeVarint 0
                   ++ (if (JS.and type 0x1f =? SIGHASH_NONE)
                          || (JS.and type 0x1f =? SIGHASH_SINGLE)
                       then writeU32 0
                       else writeU32 (Input.sequence input)))) ins.
Proof.
  intros Hrel Hsigned. apply list_eq. intros i. rewrite !list_lookup_imap.
  destruct (ins !! i) as [input|] eqn:Hin.
  - destruct (Forall2_lookup_l _ _ _ _ _ Hrel Hin) as (input' & Hin' & Hp & Hs).
    rewrite Hin'. cbn [fmap option_fmap option_map]. f_equal. rewrite Hp. f_equal.
    destruct (Z.eqb_spec (Z.of_nat i) index) as [Hi|_].
    + unfold at_index in Hsigned. destruct (Z.ltb_spec index 0); [lia|].
      rewrite <- Hi, Nat2Z.id, Hin, Hin' in Hsigned. by injection Hsigned as ->.
    + f_equal.
      destruct (Z.eqb_spec (JS.and type 0x1f) SIGHASH_NONE); [done|].
      destruct (Z.eqb_spec (JS.and type 0x1f) SIGHASH_SINGLE); [done|].
      cbn [orb]. by rewrite Hs.
  - assert (ins' !! i = None) as ->; [|done].
    apply lookup_ge_None. rewrite <- (Forall2_length _ _ _ Hrel).
    by apply lookup_ge_None.
Qed.

(** X16: the inputs the legacy signature hash commits to.  With
    SIGHASH_ANYONECANPAY only the input being signed is written.
    Without it every input is written by its prevout, the signed one
    with its sequence, the others with their sequence only when the
    type is neither NONE nor SINGLE; the scripts of the other inputs
    are never written.  Two transactions that differ in the rest only
    have the same signature hash. *)
Theorem signatureHashV0_inputs_committed
    (hash256 removeSeparators : bytes -> bytes) (tx tx' : TX.t) (index : Z)
    (prev : bytes) (type : Z) :
  version tx' = version tx -> outputs tx' = outputs tx ->
  locktime tx' = locktime tx ->
  at_index (inputs tx') index = at_index (inputs tx) index ->
  JS.and type SIGHASH_ANYONECANPAY <> 0
  \/ Forall2 (fun input input' =>
                Input.prevout input' = Input.prevout input
                /\ (JS.and type 0x1f <> SIGHASH_NONE ->
                    JS.and type 0x1f <> SIGHASH_SINGLE ->
                    Input.sequence input' = Input.sequence input))
             (inputs tx) (inputs tx') ->
  signatureHashV0 hash256 removeSeparators tx' index prev type
  = signatureHashV0 hash256 removeSeparators tx index prev type.
Proof.
  intros Hv Ho Hl Hsigned Hins. unfold signatureHashV0, sighash_inputs.
  rewrite Hv, Ho, Hl, Hsigned.
  destruct ((JS.and type 0x1f =? SIGHASH_SINGLE) && (len (outputs tx) <=? index));
    [done|].
  destruct (Z.eqb_spec (JS.and type SIGHASH_ANYONECANPAY) 0) as [Hzero|Hany];
    cbn [negb]; [|done].
  destruct Hins as [|Hrel]; [done|].
  rewrite (other_inputs_written (inputs tx) (inputs tx') index
             (removeSeparators prev) type Hrel Hsigned).
  unfold len. by rewrite <- (Forall2_length _ _ _ Hrel).
Qed.

Lemma signatureHashV0_inputs_committed_witness :
  signatureHashV0 Examples.toyDigest Examples.toyDigest
    (Examples.mkTX [Examples.spend 1 0; Examples.spend 2 0] [Examples.pay 1])
    0 [] (JS.or SIGHASH_ALL SIGHASH_ANYONECANPAY)
  = signatureHashV0 Examples.toyDigest Examples.toyDigest
      (Examples.mkTX [Examples.spend 1 0] [Examples.pay 1])
      0 [] (JS.or SIGHASH_ALL SIGHASH_ANYONECANPAY).
Proof.
  apply signatureHashV0_inputs_committed; try reflexivity. by left.
Defined.

Lemma Ok_inj {A} (a b : A) : JS.Ok a = JS.Ok b -> a = b.
Proof. congruence. Qed.

(** The bytes the loop over the inputs writes, from position [k] on. *)
Lemma len_inputs_written (ins : list Input.t) (k : nat) (index : Z)
    (prev : bytes) (type : Z) :
  Forall (fun input => len (Outpoint.hash (Input.prevout input)) = 32) ins ->
  len (concat (imap (fun i input =>
         Outpoint.toWriter (Input.prevout input)
         ++ (if Z.of_nat (k + i) =? index
             then writeVarBytes prev ++ writeU32 (Input.sequence input)
             else writeVarint 0
                  ++ (if (JS.and type 0x1f =? SIGHASH_NONE)
                         || (JS.and type 0x1f =? SIGHASH_SINGLE)
                      then writeU32 0
                      else writeU32 (Input.sequence input)))) ins))
  = 41 * len ins
    + (if (Z.of_nat k <=? index) && (index <? Z.of_nat k + len ins)
       then sizeVarBytes prev - 1 else 0).
Proof.
  intros Hall. revert k. induction Hall as [|input rest Hhash _ IH]; intros k.
  - change (len (@nil Input.t)) with 0. rewrite Z.add_0_r.
    destruct (Z.leb_spec (Z.of_nat k) index), (Z.ltb_spec index (Z.of_nat k));
      cbn [andb]; try lia; reflexivity.
  - rewrite imap_cons. cbn [concat]. rewrite len_app.
    rewrite (imap_ext _ (fun i input =>
         Outpoint.toWriter (Input.prevout input)
         ++ (if Z.of_nat (S k + i) =? index
             then writeVarBytes prev ++ writeU32 (Input.sequence input)
             else writeVarint 0
                  ++ (if (JS.and type 0x1f =? SIGHASH_NONE)
                         || (JS.and type 0x1f =? SIGHASH_SINGLE)
                      then writeU32 0
                      else writeU32 (Input.sequence input))))).
    2:{ intros i x _. cbn. by replace (k + S i)%nat with (S (k + i)) by lia. }
    rewrite IH, len_cons, len_app, len_outpoint by done.
    replace (k + 0)%nat with k by lia.
    assert (forall v, len (writeU32 v) = 4) as Hu32.
    { intros v. unfold writeU32. by rewrite len_le_bytes. }
    pose proof (len_nonneg rest).
    destruct (Z.eqb_spec (Z.of_nat k) index) as [Heq|Hne].
    + rewrite len_app, len_writeVarBytes, Hu32.
      destruct (Z.leb_spec (Z.of_nat (S k)) index); [lia|].
      destruct (Z.leb_spec (Z.of_nat k) index); [|lia].
      destruct (Z.ltb_spec index (Z.of_nat k + (1 + len rest))); [|lia].
      cbn [andb]. lia.
    + rewrite len_app, len_writeVarint.
      assert (len (if (JS.and type 31 =? SIGHASH_NONE)
                      || (JS.and type 31 =? SIGHASH_SINGLE)
                   then writeU32 0
                   else writeU32 (Input.sequence input)) = 4) as ->.
      { destruct (_ || _); apply Hu32. }
      change (sizeVarint 0) with 1.
      destruct (Z.leb_spec (Z.of_nat (S k)) index),
        (Z.leb_spec (Z.of_nat k) index),
        (Z.ltb_spec index (Z.of_nat (S k) + len rest)),
        (Z.ltb_spec index (Z.of_nat k + (1 + len rest)));
        cbn [andb]; lia.
Qed.

Lemma len_repeat_concat (chunk : bytes) (n : nat) :
  len (concat (repeat chunk n)) = Z.of_nat n * len chunk.
Proof.
  induction n as [|n IH]; [done|].
  cbn [repeat concat]. rewrite len_app, IH. lia.
Qed.

(** X17: [hashSize] sizes the preimage exactly: whenever
    [signatureHashV0] hashes a preimage for an input of the
    transaction, the preimage is [hashSize(index, prev, type)] bytes
    long.  The digest is taken to be the identity so that the call
    returns the preimage; every prevout hash is 32 bytes long. *)
Theorem hashSize_is_preimage_size
    (removeSeparators : bytes -> bytes) (tx : TX.t) (index : Z)
    (prev : bytes) (type : Z) (input : Input.t) (preimage : bytes) :
  at_index (inputs tx) index = Some input ->
  Forall (fun input => len (Outpoint.hash (Input.prevout input)) = 32)
         (inputs tx) ->
  (JS.and type 0x1f =? SIGHASH_SINGLE) && (len (outputs tx) <=? index) = false ->
  signatureHashV0 (fun data => data) removeSeparators tx index prev type
  = JS.Ok preimage ->
  hashSize tx index (removeSeparators prev) type = JS.Ok (len preimage).
Proof.
  intros Hinput Hhashes Hearly. unfold signatureHashV0, hashSize.
  rewrite Hearly, Hinput. cbv zeta.
  assert (0 <= index < len (inputs tx)) as Hindex.
  { unfold at_index in Hinput. destruct (Z.ltb_spec index 0); [done|].
    apply lookup_lt_Some in Hinput. unfold len. lia. }
  assert (forall v, len (writeU32 v) = 4) as Hu32.
  { intros v. unfold writeU32. by rewrite len_le_bytes. }
  assert (len (Outpoint.toWriter (Input.prevout input)) = 36) as Hprevout.
  { apply len_outpoint. rewrite Forall_forall in Hhashes. apply Hhashes.
    by apply (at_index_elem _ index). }
  set (ins := if negb (JS.and type SIGHASH_ANYONECANPAY =? 0)
              then JS.Ok _ else JS.Ok _).
  set (insSize := if negb (JS.and type SIGHASH_ANYONECANPAY =? 0)
                  then _ else _).
  assert (exists written, ins = JS.Ok written /\ 4 + len written = insSize)
    as (written & -> & <-).
  { unfold ins, insSize.
    destruct (negb (JS.and type SIGHASH_ANYONECANPAY =? 0)).
    - eexists. split; [reflexivity|].
      rewrite !len_app, len_writeVarint, Hprevout, len_writeVarBytes, Hu32.
      change (sizeVarint 1) with 1. lia.
    - eexists. split; [reflexivity|]. unfold sighash_inputs.
      rewrite len_app, len_writeVarint.
      rewrite (len_inputs_written (inputs tx) 0 index) by done.
      destruct (Z.leb_spec (Z.of_nat 0) index); [|lia].
      destruct (Z.ltb_spec index (Z.of_nat 0 + len (inputs tx))); [|lia].
      cbn [andb]. lia. }
  cbn [JS.bind].
  destruct (Z.eqb_spec (JS.and type 0x1f) SIGHASH_NONE) as [Hnone|Hnotnone].
  { cbn [JS.bind]. intros Heq%Ok_inj. subst preimage. f_equal.
    rewrite !len_app, !Hu32, len_writeVarint. change (sizeVarint 0) with 1. lia. }
  destruct (Z.eqb_spec (JS.and type 0x1f) SIGHASH_SINGLE) as [Hsingle|Hnotsingle].
  { destruct (at_index (outputs tx) index) as [output|]; cbn [JS.bind]; [|done].
    intros Heq%Ok_inj. subst preimage. f_equal.
    rewrite !len_app, !Hu32, len_writeVarint, len_repeat_concat, len_output.
    rewrite len_app, len_writeVarint. unfold writeI64. rewrite len_le_bytes.
    change (sizeVarint 0) with 1. rewrite Z2Nat.id by lia. lia. }
  cbn [JS.bind]. intros Heq%Ok_inj. subst preimage. f_equal.
  rewrite !len_app, !Hu32, len_writeVarint, foldl_total.
  rewrite (len_concat_map Output.toWriter Output.getSize).
  2:{ apply Forall_forall. intros output _. apply len_output. }
  lia.
Qed.

Lemma hashSize_is_preimage_size_witness :
  exists preimage,
    signatureHashV0 (fun data => data) Examples.toyDigest
      Examples.lockedTX 0 [0x51] SIGHASH_ALL = JS.Ok preimage
    /\ hashSize Examples.lockedTX 0 [0x51] SIGHASH_ALL = JS.Ok (len preimage).
Proof.
  eexists. split; [reflexivity|].
  apply (hashSize_is_preimage_size Examples.toyDigest Examples.lockedTX 0 [0x51]
           SIGHASH_ALL _ _ eq_refl); [|reflexivity|reflexivity].
  constructor; [reflexivity | constructor].
Defined.

End SighashCommitments.

(** ** What an accepted block body guarantees *)

Section BlockBodyFacts.
Import Encoding Consensus TXRules.
Local Open Scope string_scope.
Local Open Scope list_scope.
Local Open Scope Z_scope.

Lemma sameTransaction_sym tx tx' : sameTransaction tx tx' -> sameTransaction tx' tx.
Proof. unfold sameTransaction. intros (? & ? & ? & ? & ?). by repeat split. Qed.

Lemma sameTransaction_isCoinbase tx tx' :
  sameTransaction tx tx' -> TX.isCoinbase tx' = TX.isCoinbase tx.
Proof. intros (_ & Hi & _). unfold TX.isCoinbase. by rewrite Hi. Qed.

Lemma sameTransaction_sigops getSigops tx tx' :
  sameTransaction tx tx' ->
  TX.getLegacySigops getSigops tx' = TX.getLegacySigops getSigops tx.
Proof. intros (_ & Hi & Ho & _). unfold TX.getLegacySigops. by rewrite Hi, Ho. Qed.

Lemma sameTransaction_sane tx tx' : sameTransaction tx tx' -> sane tx' -> sane tx.
Proof.
  intros Hsame Hsane.
  pose proof (sameTransaction_sizes _ _ Hsame) as Hsize.
  pose proof (sameTransaction_isCoinbase _ _ Hsame) as Hcb.
  destruct Hsame as (_ & Hi & Ho & _). destruct Hsane.
  unfold coinbaseScriptFits in *. rewrite Hi, Ho, Hsize, Hcb in *.
  by split.
Qed.

(** The loop accepts sane transactions only, no coinbase past the
    first position, and keeps the running count of signature
    operations within the limit. *)
Lemma checkBody_loop_accepts getSigops txs i size sigops txs' :
  0 <= i -> Forall cacheCoherent txs ->
  Block.checkBody_loop getSigops txs i size sigops
  = JS.Ok ((true, "valid", 0), txs') ->
  Forall sane txs
  /\ Forall (fun tx => TX.isCoinbase tx = false)
            (if 0 <? i then txs else tail txs)
  /\ (txs <> [] ->
      sigops + total (TX.getLegacySigops getSigops) txs
      <= maxBlockSigops size).
Proof.
  revert i sigops txs'. induction txs as [|tx rest IH];
    intros i sigops txs' Hi Hall.
  { intros _. split; [constructor|]. split; [by destruct (0 <? i)|done]. }
  apply Forall_cons in Hall as [Htx Hrest].
  cbn [Block.checkBody_loop tail].
  destruct ((0 <? i) && TX.isCoinbase tx) eqn:Hcb; [done|].
  destruct (checkSanity_verdicts tx Htx)
    as (v & tx1 & -> & Hsame & [[-> Hsane]|(reason & score & -> & _)]);
    cbn [JS.bind fst snd negb]; [|done].
  rewrite (sameTransaction_sigops getSigops _ _ Hsame).
  destruct (Z.ltb_spec (maxBlockSigops size)
              (sigops + TX.getLegacySigops getSigops tx)) as [|Hfits]; [done|].
  destruct (Block.checkBody_loop getSigops rest (i + 1) size _)
    as [[v rest1]| |msg] eqn:Hloop; cbn [JS.bind fst snd]; try done.
  intros [= -> <-].
  destruct (IH (i + 1) _ _ ltac:(lia) Hrest Hloop) as (Hsanes & Hcbs & Hsigops).
  destruct (Z.ltb_spec 0 (i + 1)) as [_|]; [|lia].
  split; [by constructor|]. split.
  - destruct (Z.ltb_spec 0 i); [|done].
    constructor; [|done]. cbn [andb] in Hcb. done.
  - intros _. cbn [total].
    destruct rest as [|tx2 rest2]; [cbn [total]; lia|].
    specialize (Hsigops ltac:(done)). cbn [total] in *. lia.
Qed.

(** What the calls of [checkBody] before its loop establish. *)
Lemma checkBody_valid_inv hash256 getSigops createRoot b b' :
  Block.cacheCoherent b ->
  Block.checkBody hash256 getSigops createRoot b
  = JS.Ok ((true, "valid", 0), b') ->
  exists b3 txs',
    Block.sameBlock b b3
    /\ Forall cacheCoherent (Block.txs b3)
    /\ (exists first others,
          Block.txs b = first :: others /\ TX.isCoinbase first = true)
    /\ Block.checkBody_loop getSigops (Block.txs b3) 0
         (Block.serializedSize b) 0
       = JS.Ok ((true, "valid", 0), txs').
Proof.
  intros Hcache. unfold Block.checkBody.
  destruct ((len (Block.txs b) =? 0)
            || (MAX_FORK_BLOCK_SIZE / 10 <? len (Block.txs b))); [done|].
  destruct (Block.getSize b) as [[size b1]| |msg] eqn:Hsize1; cbn [JS.bind];
    try done.
  destruct (block_getSize_ok _ _ _ Hcache Hsize1) as (-> & Hs1 & Hc1).
  cbn [fst snd].
  destruct (Z.ltb_spec MAX_FORK_BLOCK_SIZE (Block.serializedSize b))
    as [|Hfits]; [done|].
  destruct (Block.txs b1) as [|first1 others1] eqn:Htxs1; [done|].
  destruct (TX.isCoinbase first1) eqn:Hcb; cbn [negb]; [|done].
  destruct (Block.createMerkleRoot hash256 createRoot b1)
    as [[root b2]| |msg] eqn:Hroot; cbn [JS.bind]; try done.
  destruct (createMerkleRoot_ok _ _ _ _ _ Hc1 Hroot) as (Hs2 & Hc2).
  cbn [fst snd]. destruct root as [root|]; [|done].
  destruct (bool_decide (Block.merkleRoot b2 = root)); cbn [negb]; [|done].
  destruct (Block.getSize b2) as [[size b3]| |msg] eqn:Hsize2; cbn [JS.bind];
    try done.
  destruct (block_getSize_ok _ _ _ Hc2 Hsize2) as (-> & Hs3 & Hc3).
  cbn [fst snd].
  destruct (Block.checkBody_loop getSigops (Block.txs b3) 0 _ 0)
    as [[v txs']| |msg] eqn:Hloop; cbn [JS.bind]; try done.
  cbn [fst snd]. intros [= -> _].
  pose proof (sameBlock_trans _ _ _ Hs1 Hs2) as Hs12.
  exists b3, txs'. split; [by apply (sameBlock_trans _ _ _ Hs12)|].
  split; [apply Hc3|]. split.
  - destruct Hs1 as (Htxs & _). rewrite Htxs1 in Htxs.
    inversion Htxs as [|first ? others ? Hfirst _ Heq]; subst.
    exists first, others. split; [done|].
    by rewrite <- (sameTransaction_isCoinbase _ _ Hfirst).
  - by rewrite <- (sameBlock_size _ _ Hs12).
Qed.

Lemma Forall2_sane txs txs' :
  Forall2 sameTransaction txs txs' -> Forall sane txs' -> Forall sane txs.
Proof.
  induction 1 as [|tx tx' rest rest' Hsame _ IH]; [done|].
  intros Hall. apply Forall_cons in Hall as [Hsane Hrest].
  constructor; [by apply (sameTransaction_sane tx tx')|by apply IH].
Qed.

Lemma Forall2_not_coinbase txs txs' :
  Forall2 sameTransaction txs txs' ->
  Forall (fun tx => TX.isCoinbase tx = false) txs' ->
  Forall (fun tx => TX.isCoinbase tx = false) txs.
Proof.
  induction 1 as [|tx tx' rest rest' Hsame _ IH]; [done|].
  intros Hall. apply Forall_cons in Hall as [Hcb Hrest].
  constructor; [|by apply IH].
  by rewrite <- (sameTransaction_isCoinbase _ _ Hsame).
Qed.

Lemma Forall2_sigops getSigops txs txs' :
  Forall2 sameTransaction txs txs' ->
  total (TX.getLegacySigops getSigops) txs'
  = total (TX.getLegacySigops getSigops) txs.
Proof.
  induction 1 as [|tx tx' rest rest' Hsame _ IH]; [done|].
  cbn [total]. by rewrite IH, (sameTransaction_sigops _ _ _ Hsame).
Qed.

(** X18: a block the body check accepts starts with a coinbase and
    holds no other coinbase. *)
Theorem checkBody_one_coinbase
    (hash256 : bytes -> bytes) (getSigops : bytes -> Z)
    (createRoot : list bytes -> bytes * bool) (b b' : Block.t) :
  Block.cacheCoherent b ->
  Block.checkBody hash256 getSigops createRoot b
  = JS.Ok ((true, "valid", 0), b') ->
  exists first others,
    Block.txs b = first :: others
    /\ TX.isCoinbase first = true
    /\ Forall (fun tx => TX.isCoinbase tx = false) others.
Proof.
  intros Hcache Hvalid.
  destruct (checkBody_valid_inv _ _ _ _ _ Hcache Hvalid)
    as (b3 & txs' & (Htxs & _) & Hc3 & (first & others & Hb & Hcb) & Hloop).
  exists first, others. split; [done|]. split; [done|].
  destruct (checkBody_loop_accepts getSigops _ 0 _ 0 _ ltac:(lia) Hc3 Hloop)
    as (_ & Hrest & _).
  change (0 <? 0) with false in Hrest. cbv iota in Hrest.
  rewrite Hb in Htxs.
  apply Forall2_cons_inv_l in Htxs as (first3 & others3 & _ & Hothers & Heq).
  rewrite Heq in Hrest. cbn [tail] in Hrest.
  by apply (Forall2_not_coinbase others others3).
Qed.

Lemma checkBody_one_coinbase_witness :
  exists first others,
    Block.txs Examples.coinbaseBlock = first :: others
    /\ TX.isCoinbase first = true
    /\ Forall (fun tx => TX.isCoinbase tx = false) others.
Proof.
  eapply (checkBody_one_coinbase Examples.toyDigest Examples.noSigops
            Examples.toyRoot Examples.coinbaseBlock).
  - split.
    + intros _ data Hraw. simpl in Hraw. discriminate Hraw.
    + repeat constructor. intros _ data Hraw. simpl in Hraw. discriminate Hraw.
  - vm_compute. reflexivity.
Defined.

(** X19: every transaction of a block the body check accepts is sane,
    in the sense that [checkSanity] settles. *)
Theorem checkBody_transactions_sane
    (hash256 : bytes -> bytes) (getSigops : bytes -> Z)
    (createRoot : list bytes -> bytes * bool) (b b' : Block.t) :
  Block.cacheCoherent b ->
  Block.checkBody hash256 getSigops createRoot b
  = JS.Ok ((true, "valid", 0), b') ->
  Forall sane (Block.txs b).
Proof.
  intros Hcache Hvalid.
  destruct (checkBody_valid_inv _ _ _ _ _ Hcache Hvalid)
    as (b3 & txs' & (Htxs & _) & Hc3 & _ & Hloop).
  destruct (checkBody_loop_accepts getSigops _ 0 _ 0 _ ltac:(lia) Hc3 Hloop)
    as (Hsane & _).
  by apply (Forall2_sane _ (Block.txs b3)).
Qed.

Lemma checkBody_transactions_sane_witness :
  Forall sane (Block.txs Examples.coinbaseBlock).
Proof.
  eapply (checkBody_transactions_sane Examples.toyDigest Examples.noSigops
            Examples.toyRoot Examples.coinbaseBlock).
  - split.
    + intros _ data Hraw. simpl in Hraw. discriminate Hraw.
    + repeat constructor. intros _ data Hraw. simpl in Hraw. discriminate Hraw.
  - vm_compute. reflexivity.
Defined.

(** X20: the legacy signature operations of a block the body check
    accepts, summed over its transactions, stay within
    [maxBlockSigops] of the serialized size of the block. *)
Theorem checkBody_sigops_within_limit
    (hash256 : bytes -> bytes) (getSigops : bytes -> Z)
    (createRoot : list bytes -> bytes * bool) (b b' : Block.t) :
  Block.cacheCoherent b ->
  Block.checkBody hash256 getSigops createRoot b
  = JS.Ok ((true, "valid", 0), b') ->
  total (TX.getLegacySigops getSigops) (Block.txs b)
  <= maxBlockSigops (Block.serializedSize b).
Proof.
  intros Hcache Hvalid.
  destruct (checkBody_valid_inv _ _ _ _ _ Hcache Hvalid)
    as (b3 & txs' & (Htxs & _) & Hc3 & (first & others & Hb & _) & Hloop).
  destruct (checkBody_loop_accepts getSigops _ 0 _ 0 _ ltac:(lia) Hc3 Hloop)
    as (_ & _ & Hsigops).
  rewrite <- (Forall2_sigops getSigops _ _ Htxs).
  rewrite Z.add_0_l in Hsigops. apply Hsigops.
  rewrite Hb in Htxs.
  apply Forall2_cons_inv_l in Htxs as (first3 & others3 & _ & _ & ->). done.
Qed.

Lemma checkBody_sigops_within_limit_witness :
  total (TX.getLegacySigops Examples.noSigops) (Block.txs Examples.coinbaseBlock)
  <= maxBlockSigops (Block.serializedSize Examples.coinbaseBlock).
Proof.
  eapply (checkBody_sigops_within_limit Examples.toyDigest Examples.noSigops
            Examples.toyRoot Examples.coinbaseBlock).
  - split.
    + intros _ data Hraw. simpl in Hraw. discriminate Hraw.
    + repeat constructor. intros _ data Hraw. simpl in Hraw. discriminate Hraw.
  - vm_compute. reflexivity.
Defined.

(** *** The merkle root *)

Lemma sameTransaction_writeNormal tx tx' :
  sameTransaction tx tx' -> TX.writeNormal tx' = TX.writeNormal tx.
Proof.
  intros (Hv & Hi & Ho & Hl & _). unfold TX.writeNormal.
  by rewrite Hv, Hi, Ho, Hl.
Qed.

Lemma frame_raw tx raw tx' :
  rawCoherent tx -> TX.frame tx = JS.Ok (raw, tx') ->
  rawCoherent tx' /\ TX.writeNormal tx = JS.Ok (snd raw).
Proof.
  intros Hraw. unfold TX.frame, TX.frameNormal.
  destruct (TX.mutable tx) eqn:Hmut.
  - destruct (negb (bool_decide (is_Some (TX._raw tx)))); cbn; [|done].
    destruct (TX.writeNormal tx) as [data| |msg]; cbn; try done.
    by intros [= <- <-].
  - destruct (TX._raw tx) as [data|] eqn:Hcached.
    + destruct (0 <=? TX._size tx); cbn; [|done].
      intros [= <- <-]. split; [done|]. by apply Hraw.
    + destruct (TX.writeNormal tx) as [data| |msg] eqn:Hwritten; cbn; try done.
      intros [= <- <-]. split; [|done].
      intros _ data' [= <-]. done.
Qed.

Lemma getSize_raw tx size tx' :
  rawCoherent tx -> TX.getSize tx = JS.Ok (size, tx') -> rawCoherent tx'.
Proof.
  intros Hraw. unfold TX.getSize. destruct (TX.mutable tx).
  - by intros [= _ <-].
  - destruct (TX.frame tx) as [[raw tx1]| |msg] eqn:Hframe; cbn; try done.
    intros [= _ <-]. by destruct (frame_raw _ _ _ Hraw Hframe).
Qed.

Lemma toRaw_raw tx data tx' :
  rawCoherent tx -> TX.toRaw tx = JS.Ok (data, tx') ->
  rawCoherent tx' /\ TX.writeNormal tx = JS.Ok data.
Proof.
  intros Hraw. unfold TX.toRaw.
  destruct (TX.frame tx) as [[raw tx1]| |msg] eqn:Hframe; cbn; try done.
  intros [= <- <-]. by apply frame_raw.
Qed.

Lemma toWriter_raw tx data tx' :
  rawCoherent tx -> TX.toWriter tx = JS.Ok (data, tx') -> rawCoherent tx'.
Proof.
  intros Hraw. unfold TX.toWriter. destruct (TX.mutable tx).
  - destruct (TX.writeNormal tx) as [written| |msg]; cbn; try done.
    by intros [= _ <-].
  - intros Hcall. by destruct (toRaw_raw _ _ _ Hraw Hcall).
Qed.

Lemma hash_raw hash256 tx digest tx' :
  rawCoherent tx -> TX.hash hash256 tx = JS.Ok (digest, tx') ->
  rawCoherent tx' /\ digestOf hash256 tx digest.
Proof.
  intros Hraw. unfold TX.hash.
  destruct (TX.toRaw tx) as [[data tx1]| |msg] eqn:Hcall; cbn; try done.
  intros [= <- <-]. destruct (toRaw_raw _ _ _ Hraw Hcall) as [Hraw1 Hdata].
  split; [done|]. by exists data.
Qed.

Lemma forEach_raw {A} (f : TX.t -> JS.result (A * TX.t))
    (Q : TX.t -> A -> Prop) :
  (forall tx a tx', rawCoherent tx -> f tx = JS.Ok (a, tx') ->
                    rawCoherent tx' /\ Q tx a) ->
  forall txs results txs',
    Forall rawCoherent txs ->
    Block.forEach f txs = JS.Ok (results, txs') ->
    Forall rawCoherent txs' /\ Forall2 Q txs results.
Proof.
  intros Hf txs. induction txs as [|tx rest IH]; intros results txs' Hall.
  - cbn. intros [= <- <-]. by split; constructor.
  - apply Forall_cons in Hall as [Htx Hrest]. cbn [Block.forEach].
    destruct (f tx) as [[a tx1]| |msg] eqn:Hcall; cbn; try done.
    destruct (Block.forEach f rest) as [[others rest1]| |msg] eqn:Hothers; cbn;
      try done.
    intros [= <- <-].
    destruct (Hf tx a tx1 Htx Hcall) as (Hraw1 & HQ).
    destruct (IH others rest1 Hrest eq_refl) as (Hraws & HQs).
    split; by constructor.
Qed.

Lemma block_getSize_raw b size b' :
  Forall rawCoherent (Block.txs b) ->
  Block.getSize b = JS.Ok (size, b') ->
  Forall rawCoherent (Block.txs b').
Proof.
  intros Hraw.
  assert (forall b0 sz b1,
            Forall rawCoherent (Block.txs b0) ->
            Block.getNormalSizes b0 = JS.Ok (sz, b1) ->
            Forall rawCoherent (Block.txs b1)) as Hsizes.
  { intros b0 sz b1 Hraw0. unfold Block.getNormalSizes. cbv zeta.
    destruct (Block.forEach TX.getSize (Block.txs b0))
      as [[sizes txs']| |msg] eqn:Hcall; cbn; try done.
    intros [= _ <-]. cbn [Block.withTxs Block.txs].
    refine (proj1 (forEach_raw TX.getSize (fun _ _ => True) _ _ _ _ Hraw0 Hcall)).
    intros tx a tx' Htx Hsz. split; [by apply (getSize_raw tx a)|done]. }
  unfold Block.getSize, Block.frame. destruct (Block.mutable b).
  { by apply Hsizes. }
  destruct (Block._raw b) as [data|].
  - destruct (0 <=? Block._size b); cbn; [|done]. by intros [= _ <-].
  - unfold Block.frameNormal.
    destruct (Block.getNormalSizes b) as [[sz b1]| |msg] eqn:Hsized; cbn;
      try done.
    pose proof (Hsizes _ _ _ Hraw Hsized) as Hraw1.
    unfold Block.writeNormal.
    destruct (Block.forEach TX.toWriter (Block.txs b1))
      as [[written txs']| |msg] eqn:Hcall; cbn; try done.
    intros [= _ <-]. cbn [Block.setCache Block.withTxs Block.txs].
    refine (proj1 (forEach_raw TX.toWriter (fun _ _ => True) _ _ _ _ Hraw1 Hcall)).
    intros tx a tx' Htx Hw. split; [by apply (toWriter_raw tx a)|done].
Qed.

Lemma Forall2_digestOf hash256 txs txs' leaves :
  Forall2 sameTransaction txs txs' ->
  Forall2 (digestOf hash256) txs' leaves ->
  Forall2 (digestOf hash256) txs leaves.
Proof.
  intros Hsame. revert leaves.
  induction Hsame as [|tx tx' rest rest' Hs _ IH]; intros leaves Hd.
  - inversion Hd. constructor.
  - apply Forall2_cons_inv_l in Hd as (leaf & others & (data & Hw & ->) & Hrest & ->).
    constructor; [|by apply IH].
    exists data. split; [|done]. by rewrite <- (sameTransaction_writeNormal _ _ Hs).
Qed.

(** X21: the header of a block the body check accepts commits to its
    transactions: the merkle tree over the digests of the serialized
    transactions, in block order, is not malleated and its root is the
    merkle root of the header. *)
Theorem checkBody_merkle_root
    (hash256 : bytes -> bytes) (getSigops : bytes -> Z)
    (createRoot : list bytes -> bytes * bool) (b b' : Block.t) :
  Block.cacheCoherent b -> Forall rawCoherent (Block.txs b) ->
  Block.checkBody hash256 getSigops createRoot b
  = JS.Ok ((true, "valid", 0), b') ->
  exists leaves,
    Forall2 (digestOf hash256) (Block.txs b) leaves
    /\ createRoot leaves = (Block.merkleRoot b, false).
Proof.
  intros Hcache Hraw. unfold Block.checkBody.
  destruct ((len (Block.txs b) =? 0)
            || (MAX_FORK_BLOCK_SIZE / 10 <? len (Block.txs b))); [done|].
  destruct (Block.getSize b) as [[size b1]| |msg] eqn:Hsize1; cbn [JS.bind];
    try done.
  destruct (block_getSize_ok _ _ _ Hcache Hsize1) as (-> & Hs1 & Hc1).
  pose proof (block_getSize_raw _ _ _ Hraw Hsize1) as Hraw1.
  cbn [fst snd].
  destruct (MAX_FORK_BLOCK_SIZE <? Block.serializedSize b); [done|].
  destruct (Block.txs b1) as [|first1 others1] eqn:Htxs1; [done|].
  destruct (TX.isCoinbase first1); cbn [negb]; [|done].
  unfold Block.createMerkleRoot.
  destruct (Block.forEach (TX.hash hash256) (Block.txs b1))
    as [[leaves txs2]| |msg] eqn:Hhashed; cbn [JS.bind fst snd]; try done.
  destruct (createRoot leaves) as [root malleated] eqn:Hroot.
  cbn [JS.bind fst snd Block.withTxs Block.merkleRoot].
  destruct malleated; [done|].
  destruct (bool_decide_reflect (Block.merkleRoot b1 = root)) as [Heq|];
    cbn [negb]; [|done].
  intros _. exists leaves. split.
  - apply (Forall2_digestOf hash256 _ (Block.txs b1)); [apply Hs1|].
    rewrite <- Htxs1 in Hraw1.
    refine (proj2 (forEach_raw (TX.hash hash256) (digestOf hash256) _ _ _ _
                     Hraw1 Hhashed)).
    intros tx a tx'. apply hash_raw.
  - rewrite Hroot. destruct Hs1 as (_ & <- & _). by rewrite Heq.
Qed.

Lemma checkBody_merkle_root_witness :
  exists leaves,
    Forall2 (digestOf Examples.toyDigest) (Block.txs Examples.coinbaseBlock)
            leaves
    /\ Examples.toyRoot leaves
       = (Block.merkleRoot Examples.coinbaseBlock, false).
Proof.
  eapply (checkBody_merkle_root Examples.toyDigest Examples.noSigops
            Examples.toyRoot Examples.coinbaseBlock).
  - split.
    + intros _ data Hraw. simpl in Hraw. discriminate Hraw.
    + repeat constructor. intros _ data Hraw. simpl in Hraw. discriminate Hraw.
  - repeat constructor. intros _ data Hraw. simpl in Hraw. discriminate Hraw.
  - vm_compute. reflexivity.
Defined.

End BlockBodyFacts.

(** ** Invariants of the assembly loop *)

Section AssemblyInvariants.
Import Encoding Consensus Miner.
Local Open Scope list_scope.
Local Open Scope Z_scope.

(** A turn of the loop leaves the popped item out, puts it back while
    switching to the fee-rate order, or commits it; it commits only a
    final item that fits both limits. *)
Lemma step_cases options height locktime depMap st st' :
  step options height locktime depMap st = Some st' ->
  exists item heap,
    st' = skip st heap
    \/ st' = reseed st heap item
    \/ (st' = commit depMap st heap item
        /\ TX.isFinal (tx item) height locktime = true
        /\ size st + TX.getNormalSizes (tx item) <= maxSize options
        /\ sigops_ st + sigops item <= maxSigops options).
Proof.
  unfold step.
  destruct (shift (comparator (priorityPhase st)) (queue st))
    as [[item heap]|]; [|done].
  cbv zeta. intros Hstep. exists item, heap.
  destruct (TX.isFinal (tx item) height locktime); cbn [negb] in Hstep;
    [|left; congruence].
  destruct (Z.ltb_spec (maxSize options)
              (size st + TX.getNormalSizes (tx item))); [left; congruence|].
  destruct (Z.ltb_spec (maxSigops options) (sigops_ st + sigops item));
    [left; congruence|].
  destruct (priorityPhase st).
  - destruct ((prioritySize options <? _) || _);
      [right; left; congruence|right; right].
    split; [congruence|done].
  - destruct (free item && _); [left; congruence|right; right].
    split; [congruence|done].
Qed.

Lemma commit_totals depMap st heap item :
  size (commit depMap st heap item) = size st + TX.getNormalSizes (tx item)
  /\ sigops_ (commit depMap st heap item) = sigops_ st + sigops item
  /\ fees (commit depMap st heap item) = fees st + fee item
  /\ items (commit depMap st heap item) = items st ++ [item].
Proof. done. Qed.

(** X22: the assembly loop keeps the template within the limits of
    the miner: started at or below [maxSize] and [maxSigops], the
    template never exceeds them, however long the loop runs.  With
    [maxSize] at most MAX_FORK_BLOCK_SIZE, as [MinerOptions] asserts,
    the size assertion that ends [assemble] holds. *)
Theorem assemble_within_limits
    (options : MinerOptions) (height locktime : Z)
    (depMap : gmap bytes (list BlockEntry)) (fuel : nat) (st : State) :
  size st <= maxSize options -> sigops_ st <= maxSigops options ->
  size (drain options height locktime depMap fuel st) <= maxSize options
  /\ sigops_ (drain options height locktime depMap fuel st)
     <= maxSigops options.
Proof.
  revert st. induction fuel as [|fuel IH]; intros st Hsize Hsigops; [done|].
  cbn [drain].
  destruct (step options height locktime depMap st) as [st'|] eqn:Hstep; [|done].
  destruct (step_cases _ _ _ _ _ _ Hstep)
    as (item & heap & [-> | [-> | (-> & _ & Hs & Hg)]]); apply IH; try done.
Qed.

Lemma assemble_within_limits_witness :
  size (drain Examples.roomyOptions 100 0 ∅ 5
          (Examples.feeRateState [Examples.freeEntry; Examples.paidEntry]))
  <= maxSize Examples.roomyOptions
  /\ sigops_ (drain Examples.roomyOptions 100 0 ∅ 5
                (Examples.feeRateState [Examples.freeEntry; Examples.paidEntry]))
     <= maxSigops Examples.roomyOptions.
Proof.
  apply (assemble_within_limits Examples.roomyOptions 100 0 ∅ 5
           (Examples.feeRateState [Examples.freeEntry; Examples.paidEntry]));
    vm_compute; discriminate.
Defined.

(** X23: the totals of the template are those of its items: whatever
    the loop appends to the template, it adds the serialized size, the
    signature operations and the fee of exactly the appended items,
    and it appends only transactions that are final at the height and
    locktime of the template. *)
Theorem assemble_totals
    (options : MinerOptions) (height locktime : Z)
    (depMap : gmap bytes (list BlockEntry)) (fuel : nat) (st : State) :
  exists added,
    items (drain options height locktime depMap fuel st) = items st ++ added
    /\ size (drain options height locktime depMap fuel st)
       = size st + total (fun item => TX.getNormalSizes (tx item)) added
    /\ sigops_ (drain options height locktime depMap fuel st)
       = sigops_ st + total sigops added
    /\ fees (drain options height locktime depMap fuel st)
       = fees st + total fee added
    /\ Forall (fun item => TX.isFinal (tx item) height locktime = true) added.
Proof.
  revert st. induction fuel as [|fuel IH]; intros st.
  { exists []. cbn. rewrite app_nil_r. repeat split; try lia. constructor. }
  cbn [drain].
  destruct (step options height locktime depMap st) as [st'|] eqn:Hstep.
  2:{ exists []. cbn. rewrite app_nil_r. repeat split; try lia. constructor. }
  destruct (IH st') as (added & Hitems & Hsize & Hsigops & Hfees & Hfinal).
  destruct (step_cases _ _ _ _ _ _ Hstep)
    as (item & heap & [-> | [-> | (-> & Hfin & _)]]).
  - by exists added.
  - by exists added.
  - destruct (commit_totals depMap st heap item) as (Hs & Hg & Hf & Hi).
    exists (item :: added). rewrite Hitems, Hsize, Hsigops, Hfees, Hs, Hg, Hf, Hi.
    cbn [total]. rewrite <- app_assoc. repeat split; try lia; try done.
    by constructor.
Qed.

(** X24: [cmpRate] and [cmpPriority] are consistent comparators:
    swapping the arguments negates the result, and "not after" is
    transitive, so the heap orders the entries by a total preorder. *)
Theorem comparators_consistent (a b c : BlockEntry) :
  cmpRate b a = - cmpRate a b
  /\ cmpPriority b a = - cmpPriority a b
  /\ (cmpRate a b <= 0 -> cmpRate b c <= 0 -> cmpRate a c <= 0)
  /\ (cmpPriority a b <= 0 -> cmpPriority b c <= 0 -> cmpPriority a c <= 0).
Proof.
  unfold cmpPriority, cmpRate. cbv zeta.
  destruct (rate a <? descRate a), (rate b <? descRate b), (rate c <? descRate c);
    repeat match goal with
           | |- context [?x =? ?y] => destruct (Z.eqb_spec x y)
           end; lia.
Qed.

(** *** Seeding *)

Lemma countParents_counts hasEntry item ins counts depMap other :
  getDepCount (fst (countParents hasEntry item ins counts depMap)) other
  = getDepCount counts other
    + (if decide (id item = id other)
       then len (filter (fun input =>
                           hasEntry (Outpoint.hash (Input.prevout input)) = true)
                        ins)
       else 0).
Proof.
  revert counts depMap. induction ins as [|input rest IH]; intros counts depMap.
  - cbn. unfold len. cbn. destruct (decide _); lia.
  - cbn [countParents]. rewrite filter_cons.
    destruct (hasEntry (Outpoint.hash (Input.prevout input))) eqn:Hparent;
      cbn [negb].
    + rewrite IH, getDepCount_insert.
      destruct (decide (true = true)) as [_|]; [|done]. rewrite len_cons.
      destruct (decide (id item = id other)) as [Heq|]; [|lia].
      unfold getDepCount. rewrite Heq. lia.
    + rewrite IH. destruct (decide (false = true)); [done|]. done.
Qed.

Lemma countParents_depMap hasEntry item ins counts depMap other hash :
  occurrences (id other)
    (default [] (snd (countParents hasEntry item ins counts depMap) !! hash))
  = occurrences (id other) (default [] (depMap !! hash))
    + (if decide (id item = id other)
       then if hasEntry hash
            then len (filter (fun input =>
                                Outpoint.hash (Input.prevout input) = hash) ins)
            else 0
       else 0).
Proof.
  revert counts depMap. induction ins as [|input rest IH]; intros counts depMap.
  - cbn. unfold len. cbn. destruct (decide _), (hasEntry hash); lia.
  - cbn [countParents]. rewrite filter_cons.
    destruct (hasEntry (Outpoint.hash (Input.prevout input))) eqn:Hparent;
      cbn [negb].
    + rewrite IH, lookup_insert.
      destruct (decide (Outpoint.hash (Input.prevout input) = hash)) as [<-|Hne].
      * rewrite Hparent, len_cons. cbn [from_option Datatypes.id].
        unfold occurrences. rewrite filter_app, length_app, filter_cons, filter_nil.
        destruct (decide (id item = id other)); cbn [length]; lia.
      * done.
    + rewrite IH.
      destruct (decide (Outpoint.hash (Input.prevout input) = hash)) as [<-|Hne];
        [|done].
      rewrite Hparent. done.
Qed.

Lemma parentCount_nonneg hasEntry item : 0 <= parentCount hasEntry item.
Proof. unfold parentCount. apply len_nonneg. Qed.

Lemma seed_counts hasEntry entries :
  forall counts depMap heap counts' depMap' heap',
    seed hasEntry entries counts depMap heap = JS.Ok (counts', depMap', heap') ->
    NoDup (map id entries) ->
    (forall item, item ∈ entries -> getDepCount counts item = 0) ->
    (forall item hash, item ∈ entries ->
       occurrences (id item) (default [] (depMap !! hash)) = 0) ->
    (forall item, item ∈ entries ->
       getDepCount counts' item = parentCount hasEntry item)
    /\ (forall item hash, item ∈ entries ->
          occurrences (id item) (default [] (depMap' !! hash))
          = spendCount hasEntry item hash)
    /\ (forall other, id other ∉ map id entries ->
          getDepCount counts' other = getDepCount counts other
          /\ forall hash,
               occurrences (id other) (default [] (depMap' !! hash))
               = occurrences (id other) (default [] (depMap !! hash)))
    /\ heap' = heap ++ filter (fun item => parentCount hasEntry item = 0) entries.
Proof.
  induction entries as [|item rest IH];
    intros counts depMap heap counts' depMap' heap'.
  { cbn. intros [= <- <- <-] _ _ _. rewrite app_nil_r.
    split; [intros item Hin; by apply elem_of_nil in Hin|].
    split; [intros item hash Hin; by apply elem_of_nil in Hin|]. done. }
  cbn [seed map]. destruct (TX.isCoinbase (tx item)); [done|].
  set (counted := countParents hasEntry item (TX.inputs (tx item)) counts depMap).
  intros Hseed Hnodup Hfresh Hunlisted.
  apply NoDup_cons in Hnodup as [Hnotin Hnodup].
  assert (forall other,
            getDepCount (fst counted) other
            = getDepCount counts other
              + (if decide (id item = id other)
                 then parentCount hasEntry item else 0)) as Hcounts.
  { intros other. apply countParents_counts. }
  assert (forall other hash,
            occurrences (id other) (default [] (snd counted !! hash))
            = occurrences (id other) (default [] (depMap !! hash))
              + (if decide (id item = id other)
                 then spendCount hasEntry item hash else 0)) as Hdeps.
  { intros other hash. apply countParents_depMap. }
  assert (forall other, other ∈ rest -> id item <> id other) as Hdistinct.
  { intros other Hin Heq. apply Hnotin. rewrite Heq.
    apply list_elem_of_fmap. by exists other. }
  assert (getDepCount (fst counted) item = parentCount hasEntry item) as Hitem.
  { rewrite Hcounts, Hfresh by (by left).
    destruct (decide (id item = id item)); [lia|done]. }
  pose proof (parentCount_nonneg hasEntry item) as Hnonneg.
  rewrite filter_cons.
  assert (exists heap1,
            seed hasEntry rest (fst counted) (snd counted) heap1
            = JS.Ok (counts', depMap', heap')
            /\ heap1 ++ filter (fun item => parentCount hasEntry item = 0) rest
               = heap ++ (if decide (parentCount hasEntry item = 0)
                          then item :: filter (fun item =>
                                                 parentCount hasEntry item = 0) rest
                          else filter (fun item =>
                                         parentCount hasEntry item = 0) rest))
    as (heap1 & Hrest & Hheap).
  { rewrite Hitem in Hseed.
    destruct (Z.ltb_spec 0 (parentCount hasEntry item)).
    - exists heap. split; [done|]. destruct (decide _); [lia|done].
    - exists (insert item heap). split; [done|].
      destruct (decide _); [|lia]. unfold insert. by rewrite <- app_assoc. }
  destruct (IH _ _ _ _ _ _ Hrest Hnodup) as (Hc & Hd & Ho & ->).
  { intros other Hin. rewrite Hcounts, Hfresh by (by right).
    destruct (decide (id item = id other)) as [Heq|]; [|lia].
    by destruct (Hdistinct other Hin). }
  { intros other hash Hin. rewrite Hdeps, Hunlisted by (by right).
    destruct (decide (id item = id other)) as [Heq|]; [|lia].
    by destruct (Hdistinct other Hin). }
  split; [|split; [|split; [|done]]].
  - intros other Hin. apply elem_of_cons in Hin as [->|Hin]; [|by apply Hc].
    destruct (Ho item Hnotin) as [-> _]. done.
  - intros other hash Hin. apply elem_of_cons in Hin as [->|Hin]; [|by apply Hd].
    destruct (Ho item Hnotin) as [_ ->]. rewrite Hdeps, Hunlisted by (by left).
    destruct (decide (id item = id item)); [lia|done].
  - intros other Hout. rewrite not_elem_of_cons in Hout.
    destruct Hout as [Hne Hout]. destruct (Ho other Hout) as [-> Hsame].
    split.
    + rewrite Hcounts. destruct (decide (id item = id other)); [congruence|lia].
    + intros hash. rewrite Hsame, Hdeps.
      destruct (decide (id item = id other)); [congruence|lia].
Qed.

(** X25: seeding counts the dependencies right.  Over mempool entries
    that are distinct objects, starting from an empty map and heap:
    the count of every item is the number of its inputs that spend a
    transaction of the mempool; the map lists the item under each such
    transaction once per input that spends it; and the heap receives,
    in mempool order, exactly the items without such an input. *)
Theorem seed_dependencies (hasEntry : bytes -> bool) (entries : list BlockEntry)
    (counts : gmap nat Z) (depMap : gmap bytes (list BlockEntry))
    (heap : list BlockEntry) :
  NoDup (map id entries) ->
  seed hasEntry entries ∅ ∅ [] = JS.Ok (counts, depMap, heap) ->
  (forall item, item ∈ entries ->
     getDepCount counts item = parentCount hasEntry item)
  /\ (forall item hash, item ∈ entries ->
        occurrences (id item) (default [] (depMap !! hash))
        = spendCount hasEntry item hash)
  /\ heap = filter (fun item => parentCount hasEntry item = 0) entries.
Proof.
  intros Hnodup Hseed.
  destruct (seed_counts hasEntry entries _ _ _ _ _ _ Hseed Hnodup)
    as (Hc & Hd & _ & Hheap); [done|done|]. done.
Qed.

Lemma seed_dependencies_witness :
  exists counts depMap,
    seed (fun hash => bool_decide (hash = Examples.hashOf 2))
         [Examples.freeEntry; Examples.paidEntry] ∅ ∅ []
    = JS.Ok (counts, depMap, [Examples.freeEntry])
    /\ getDepCount counts Examples.paidEntry = 1.
Proof.
  assert (exists counts depMap,
            seed (fun hash => bool_decide (hash = Examples.hashOf 2))
                 [Examples.freeEntry; Examples.paidEntry] ∅ ∅ []
            = JS.Ok (counts, depMap, [Examples.freeEntry]))
    as (counts & depMap & Hseed).
  { eexists _, _. reflexivity. }
  exists counts, depMap. split; [exact Hseed|].
  assert (NoDup (map id [Examples.freeEntry; Examples.paidEntry])) as Hnodup.
  { apply NoDup_cons. split; [|apply NoDup_singleton].
    cbn. intros Hin%list_elem_of_singleton. discriminate Hin. }
  destruct (seed_dependencies _ _ _ _ _ Hnodup Hseed) as (Hc & _).
  rewrite Hc by (right; left). reflexivity.
Defined.

(** *** Termination *)

Lemma waiting_decrement (counts : gmap nat Z) (i : nat) :
  (waiting (<[i := (default 0 (counts !! i) - 1)%Z]> counts)
   + (if (default 0 (counts !! i) - 1 =? 0)%Z then 1 else 0))%nat
  = waiting counts.
Proof.
  unfold waiting. set (P := fun entry : nat * Z => 0 < entry.2).
  set (v := default 0 (counts !! i)).
  destruct (Z.ltb_spec 0 (v - 1)) as [Hpos|Hnonpos].
  - assert (counts !! i = Some v) as Hlookup.
    { unfold v in *. destruct (counts !! i); [done|]. cbn in Hpos. lia. }
    rewrite map_filter_insert_True by (unfold P; cbn; lia).
    rewrite map_size_insert_Some.
    + destruct (Z.eqb_spec (v - 1) 0); lia.
    + exists v. apply map_lookup_filter_Some. split; [done|]. unfold P. cbn. lia.
  - rewrite map_filter_insert_False by (unfold P; cbn; lia).
    rewrite map_filter_delete.
    destruct (Z.eqb_spec (v - 1) 0) as [Hzero|Hneg].
    + assert (filter P counts !! i = Some v) as Hlookup.
      { apply map_lookup_filter_Some. unfold P. cbn. split; [|lia].
        unfold v in *. destruct (counts !! i); [done|]. cbn in Hzero. lia. }
      rewrite map_size_delete_Some by eauto.
      assert (base.size (filter P counts) <> 0%nat); [|lia].
      apply map_size_ne_0_lookup. eauto.
    + rewrite map_size_delete_None; [lia|].
      apply map_lookup_filter_None.
      destruct (counts !! i) as [w|] eqn:Hlookup; [right|by left].
      intros x [= <-]. unfold P. cbn. unfold v in *. cbn in *. lia.
Qed.

Lemma release_turns deps counts heap :
  (length (snd (release deps counts heap))
   + waiting (fst (release deps counts heap)))%nat
  = (length heap + waiting counts)%nat.
Proof.
  revert counts heap. induction deps as [|item rest IH]; intros counts heap;
    [done|].
  cbn [release]. unfold getDepCount.
  pose proof (waiting_decrement counts (id item)) as Hw.
  destruct (default 0 (counts !! id item) - 1 =? 0); rewrite IH.
  - unfold insert. rewrite length_app. cbn [length]. lia.
  - lia.
Qed.

Lemma least_in compare best heap : least compare best heap ∈ best :: heap.
Proof.
  revert best. induction heap as [|item rest IH]; intros best; cbn [least].
  - by left.
  - destruct (compare item best <? 0).
    + right. apply IH.
    + specialize (IH best). apply elem_of_cons in IH as [->|Hin]; [by left|].
      right. by right.
Qed.

Lemma takeOut_length item heap :
  item ∈ heap -> S (length (takeOut (id item) heap)) = length heap.
Proof.
  induction heap as [|first rest IH]; intros Hin.
  - by apply elem_of_nil in Hin.
  - cbn [takeOut]. destruct (Nat.eqb_spec (id first) (id item)) as [|Hne];
      [done|].
    apply elem_of_cons in Hin as [->|Hin]; [done|].
    cbn [length]. by rewrite IH.
Qed.

Lemma shift_length compare heap item rest :
  shift compare heap = Some (item, rest) -> S (length rest) = length heap.
Proof.
  unfold shift. destruct heap as [|first others]; [done|].
  intros [= <- <-].
  exact (takeOut_length (least compare first others) (first :: others)
           (least_in compare first others)).
Qed.

(** Every turn uses up one of the turns left. *)
Lemma step_turns options height locktime depMap st st' :
  step options height locktime depMap st = Some st' ->
  S (turns st') = turns st.
Proof.
  unfold step.
  destruct (shift (comparator (priorityPhase st)) (queue st))
    as [[item heap]|] eqn:Hshift; [|done].
  apply shift_length in Hshift. cbv zeta.
  assert (S (turns (skip st heap)) = turns st) as Hskip.
  { unfold turns, skip. cbn. lia. }
  assert (S (turns (commit depMap st heap item)) = turns st) as Hcommit.
  { unfold turns, commit. cbn [queue depCount priorityPhase].
    assert (forall released : gmap nat Z * list BlockEntry,
              (length (snd released) + waiting (fst released))%nat
              = (length heap + waiting (depCount st))%nat ->
              S (length (snd released) + waiting (fst released)
                 + (if priorityPhase st then 1 else 0))
              = (length (queue st) + waiting (depCount st)
                 + (if priorityPhase st then 1 else 0))%nat) as Hgen by lia.
    apply Hgen. destruct (depMap !! hash item); [apply release_turns|done]. }
  destruct (negb (TX.isFinal (tx item) height locktime)); [by intros [= <-]|].
  destruct (maxSize options <? _); [by intros [= <-]|].
  destruct (maxSigops options <? _); [by intros [= <-]|].
  destruct (priorityPhase st) eqn:Hphase.
  - destruct ((prioritySize options <? _) || _); [|by intros [= <-]].
    intros [= <-]. unfold turns, reseed, insert. cbn.
    rewrite length_app, Hphase. cbn [length]. lia.
  - destruct (free item && _); by intros [= <-].
Qed.

Lemma step_none options height locktime depMap st :
  step options height locktime depMap st = None <-> queue st = [].
Proof.
  unfold step, shift. destruct (queue st) as [|first others]; [done|].
  cbv zeta. split; [|done].
  destruct (negb _); [done|]. destruct (maxSize options <? _); [done|].
  destruct (maxSigops options <? _); [done|].
  destruct (priorityPhase st).
  - by destruct (_ || _).
  - by destruct (_ && _).
Qed.

Lemma drain_empties options height locktime depMap fuel st :
  (turns st <= fuel)%nat ->
  queue (drain options height locktime depMap fuel st) = [].
Proof.
  revert st. induction fuel as [|fuel IH]; intros st Hturns.
  - cbn. unfold turns in Hturns. destruct (queue st); [done|]. cbn in Hturns. lia.
  - cbn [drain].
    destruct (step options height locktime depMap st) as [st'|] eqn:Hstep.
    + apply IH. apply step_turns in Hstep. lia.
    + by apply step_none in Hstep.
Qed.

(** X29: the assembly loop terminates: from every state there is a
    number of turns after which the heap is empty and the loop stops,
    however the entries depend on each other. *)
Theorem assemble_terminates
    (options : MinerOptions) (height locktime : Z)
    (depMap : gmap bytes (list BlockEntry)) (st : State) :
  exists bound,
    forall fuel, (bound <= fuel)%nat ->
      queue (drain options height locktime depMap fuel st) = []
      /\ step options height locktime depMap
           (drain options height locktime depMap fuel st) = None.
Proof.
  exists (turns st). intros fuel Hfuel.
  pose proof (drain_empties options height locktime depMap fuel st Hfuel) as Hq.
  split; [done|]. by apply step_none.
Qed.

End AssemblyInvariants.

(** ** Raw addresses *)

Section RawAddresses.
Import Encoding Address AddressRaw.
Local Open Scope string_scope.
Local Open Scope list_scope.
Local Open Scope Z_scope.

Lemma fromHash_ok (h : bytes) (t : Z) (a : address) :
  fromHash h t = JS.Ok a ->
  (t = PUBKEYHASH \/ t = SCRIPTHASH) /\ len h = 20
  /\ a = {| Address.type := t; Address.hash := h |}.
Proof.
  unfold fromHash, JS.assert, JS.bind.
  destruct (JS.shr t 0 =? t); [|done].
  destruct (Z.leb_spec PUBKEYHASH t), (Z.leb_spec t SCRIPTHASH); cbn [andb];
    try done.
  destruct (Z.eqb_spec (len h) 20); [|done].
  intros [= <-]. unfold PUBKEYHASH, SCRIPTHASH in *. split; [lia|done].
Qed.

Lemma writeU8_byte v : 0 <= v < 256 -> writeU8 v = [v].
Proof.
  intros Hv. unfold writeU8. cbn [le_bytes].
  rewrite (Z.mod_small v (2 ^ 8)) by lia. by rewrite Z.mod_small by lia.
Qed.

(** X26: an address survives its raw serialization: for an address
    [fromHash] accepts and a network with two distinct single-byte
    prefixes that owns them, [toRaw] returns 25 bytes, and [fromRaw]
    reads the address back from them. *)
Theorem address_raw_roundtrip
    (hash256 : bytes -> bytes) (fromAddress : Z -> Network -> JS.result Network)
    (network : Network) (a : address) :
  (forall data, length (hash256 data) = 32%nat) ->
  0 <= pubkeyhash network < 256 -> 0 <= scripthash network < 256 ->
  pubkeyhash network <> scripthash network ->
  fromHash (hash a) (type a) = JS.Ok a ->
  fromAddress (getPrefix a network) network = JS.Ok network ->
  exists data,
    toRaw hash256 a network = JS.Ok data
    /\ len data = 25
    /\ fromRaw hash256 fromAddress data network = JS.Ok a.
Proof.
  intros Hdigest Hpk Hsh Hdistinct Hvalid Hnetwork.
  destruct (fromHash_ok _ _ _ Hvalid) as (Htype & Hlen & _).
  assert (0 <= getPrefix a network < 256
          /\ getType (getPrefix a network) network = JS.Ok (type a))
    as [Hprefix Hback].
  { unfold getPrefix, getType. destruct Htype as [-> | ->].
    - change (PUBKEYHASH =? PUBKEYHASH) with true. cbv iota.
      rewrite Z.eqb_refl. done.
    - change (SCRIPTHASH =? PUBKEYHASH) with false.
      change (SCRIPTHASH =? SCRIPTHASH) with true. cbv iota.
      destruct (Z.eqb_spec (scripthash network) (pubkeyhash network));
        [congruence|].
      rewrite Z.eqb_refl. done. }
  set (prefix := getPrefix a network) in *.
  assert (length (checksum hash256 (prefix :: hash a)) = 4%nat) as Hsum.
  { unfold checksum. rewrite length_take, Hdigest. lia. }
  unfold toRaw. fold prefix. cbv zeta.
  destruct (Z.eqb_spec prefix (-1)) as [|_]; [lia|]. cbn [negb JS.assert JS.bind].
  rewrite writeU8_byte by done. cbn [app].
  eexists. split; [reflexivity|].
  assert (len (hash a ++ checksum hash256 (prefix :: hash a)) = 24) as Hrest.
  { unfold len in *. rewrite length_app, Hsum. lia. }
  split; [rewrite len_cons, Hrest; lia|].
  unfold fromRaw. rewrite Hnetwork. cbn [JS.bind]. rewrite Hback. cbn [JS.bind].
  rewrite len_cons, Hrest. cbn [Z.eqb negb Z.add Z.sub Z.opp Z.pos_sub].
  assert (Z.to_nat (24 - 4) = length (hash a)) as -> by (unfold len in Hlen; lia).
  rewrite take_app_length, drop_app_length.
  rewrite bool_decide_eq_true_2 by done. cbn [negb]. done.
Qed.

Lemma address_raw_roundtrip_witness :
  exists data,
    toRaw Examples.sizeDigest Examples.scriptAddress mainPrefixes = JS.Ok data
    /\ len data = 25
    /\ fromRaw Examples.sizeDigest ownPrefixes data mainPrefixes
       = JS.Ok Examples.scriptAddress.
Proof.
  apply (address_raw_roundtrip Examples.sizeDigest ownPrefixes mainPrefixes
           Examples.scriptAddress).
  - intros data. apply repeat_length.
  - unfold mainPrefixes. simpl. lia.
  - unfold mainPrefixes. simpl. lia.
  - discriminate.
  - reflexivity.
  - reflexivity.
Defined.

(** X27: what [fromRaw] accepts is what [toRaw] writes: data that
    [fromRaw] reads an address from, its first byte being a byte, is 25
    bytes long and is the raw serialization of that address under the
    network that owns the prefix. *)
Theorem address_raw_accepted
    (hash256 : bytes -> bytes) (fromAddress : Z -> Network -> JS.result Network)
    (network : Network) (data : bytes) (a : address) :
  fromRaw hash256 fromAddress data network = JS.Ok a ->
  (forall prefix, head data = Some prefix -> 0 <= prefix < 256) ->
  len data = 25
  /\ len (hash a) = 20
  /\ exists prefix network',
       head data = Some prefix
       /\ fromAddress prefix network = JS.Ok network'
       /\ toRaw hash256 a network' = JS.Ok data.
Proof.
  unfold fromRaw. destruct data as [|prefix rest]; [done|].
  destruct (fromAddress prefix network) as [network'| |msg] eqn:Hnetwork;
    cbn [JS.bind]; try done.
  destruct (getType prefix network') as [t| |msg] eqn:Htype; cbn [JS.bind];
    try done.
  destruct (Z.eqb_spec (len (prefix :: rest)) 25) as [Hlen|]; cbn [negb];
    [|done].
  destruct (bool_decide_reflect
              (drop (Z.to_nat (len rest - 4)) rest
               = checksum hash256 (prefix :: take (Z.to_nat (len rest - 4)) rest)))
    as [Hsum|]; cbn [negb]; [|done].
  intros Hvalid Hbyte. specialize (Hbyte prefix eq_refl).
  destruct (fromHash_ok _ _ _ Hvalid) as (Ht & Hhash & ->).
  split; [done|]. split; [done|].
  exists prefix, network'. split; [done|]. split; [done|].
  unfold toRaw, getPrefix. cbn [Address.type Address.hash].
  assert ((if t =? PUBKEYHASH then pubkeyhash network'
           else if t =? SCRIPTHASH then scripthash network' else -1) = prefix)
    as ->.
  { unfold getType in Htype.
    destruct (Z.eqb_spec prefix (pubkeyhash network')) as [->|_].
    { injection Htype as <-. done. }
    destruct (Z.eqb_spec prefix (scripthash network')) as [->|_]; [|done].
    injection Htype as <-. done. }
  cbv zeta. destruct (Z.eqb_spec prefix (-1)) as [|_]; [lia|].
  cbn [negb JS.assert JS.bind]. rewrite writeU8_byte by done. cbn [app].
  rewrite <- Hsum, take_drop. done.
Qed.

Lemma address_raw_accepted_witness :
  toRaw Examples.sizeDigest Examples.scriptAddress mainPrefixes
  = JS.Ok (0x05 :: repeat 7 20 ++ repeat 21 4).
Proof.
  destruct (address_raw_accepted Examples.sizeDigest ownPrefixes mainPrefixes
              (0x05 :: repeat 7 20 ++ repeat 21 4) Examples.scriptAddress)
    as (_ & _ & prefix & network' & Hhead & Hnetwork & Hraw).
  - reflexivity.
  - intros prefix [= <-]. lia.
  - injection Hhead as <-. injection Hnetwork as <-. exact Hraw.
Defined.

Lemma repeat_zero_Forall (l : list Z) (n : nat) :
  length l = n -> l = repeat 0 n <-> Forall (fun byte => byte = 0) l.
Proof.
  revert n. induction l as [|byte rest IH]; intros n Hlen.
  - cbn in Hlen. subst n. done.
  - destruct n as [|n]; [done|]. cbn in Hlen. injection Hlen as Hlen.
    cbn [repeat]. rewrite Forall_cons, <- (IH n Hlen). split.
    + by intros [= -> <-].
    + by intros [-> <-].
Qed.

(** X28: the three branches of [isNull] agree: an address is null
    exactly when every byte of its hash is zero, whatever the length of
    the hash. *)
Theorem isNull_spec (a : address) :
  isNull a = true <-> Forall (fun byte => byte = 0) (hash a).
Proof.
  unfold isNull.
  destruct (Z.eqb_spec (len (hash a)) 20) as [Hlen|_].
  { rewrite bool_decide_eq_true. apply repeat_zero_Forall.
    unfold len in Hlen. lia. }
  destruct (Z.eqb_spec (len (hash a)) 32) as [Hlen|_].
  { rewrite bool_decide_eq_true. apply repeat_zero_Forall.
    unfold len in Hlen. lia. }
  rewrite forallb_forall, Forall_forall. split.
  - intros Hall byte Hin. apply Z.eqb_eq, Hall. by apply list_elem_of_In.
  - intros Hall byte Hin. apply Z.eqb_eq, Hall. by apply list_elem_of_In.
Qed.

End RawAddresses.

(** ** Dependency order of the template *)

Section AssemblyOrder.
Import Encoding Consensus Miner.
Local Open Scope list_scope.
Local Open Scope Z_scope.

Lemma NoDup_map_eq {A B} (f : A -> B) (l : list A) (x y : A) :
  NoDup (map f l) -> x ∈ l -> y ∈ l -> f x = f y -> x = y.
Proof.
  induction l as [|a l IH]; intros Hnd Hx Hy Heq; [by apply elem_of_nil in Hx|].
  cbn in Hnd. apply NoDup_cons in Hnd as [Hnotin Hnd].
  apply elem_of_cons in Hx as [->|Hx]; apply elem_of_cons in Hy as [->|Hy].
  - done.
  - exfalso. apply Hnotin. rewrite Heq. apply list_elem_of_fmap. by exists y.
  - exfalso. apply Hnotin. rewrite <- Heq. apply list_elem_of_fmap. by exists x.
  - by apply IH.
Qed.

Lemma takeOut_perm item l :
  NoDup (map id l) -> item ∈ l -> l ≡ₚ item :: takeOut (id item) l.
Proof.
  induction l as [|first rest IH]; intros Hnd Hin; [by apply elem_of_nil in Hin|].
  cbn in Hnd. apply NoDup_cons in Hnd as [Hnotin Hnd]. cbn [takeOut].
  destruct (Nat.eqb_spec (id first) (id item)) as [Heq|Hne].
  - apply elem_of_cons in Hin as [->|Hin]; [done|].
    exfalso. apply Hnotin. rewrite Heq. apply list_elem_of_fmap. by exists item.
  - apply elem_of_cons in Hin as [->|Hin]; [done|].
    rewrite (IH Hnd Hin) at 1. apply Permutation_swap.
Qed.

Lemma shift_perm compare heap item rest :
  shift compare heap = Some (item, rest) -> NoDup (map id heap) ->
  heap ≡ₚ item :: rest.
Proof.
  unfold shift. destruct heap as [|first others]; [done|].
  intros [= <- <-] Hnd.
  exact (takeOut_perm (least compare first others) (first :: others) Hnd
           (least_in compare first others)).
Qed.

Lemma pending_nonneg hasEntry committed item :
  0 <= pending hasEntry committed item.
Proof. unfold pending. apply len_nonneg. Qed.

(** Committing a transaction settles the inputs that spend it. *)
Lemma pending_commit hasEntry committed parent item :
  hash parent ∉ map hash committed ->
  pending hasEntry (committed ++ [parent]) item
  = pending hasEntry committed item - spendCount hasEntry item (hash parent).
Proof.
  intros Hfresh. unfold pending, spendCount.
  induction (TX.inputs (tx item)) as [|input rest IH].
  { cbn. destruct (hasEntry (hash parent)); done. }
  rewrite !filter_cons. set (h := Outpoint.hash (Input.prevout input)) in *.
  assert (h ∈ map hash (committed ++ [parent])
          <-> h ∈ map hash committed \/ h = hash parent) as Hin.
  { rewrite map_app, elem_of_app. cbn. by rewrite list_elem_of_singleton. }
  destruct (decide (h = hash parent)) as [Hparent|Hother].
  - destruct (decide (hasEntry h = true /\ h ∉ map hash (committed ++ [parent])))
      as [[_ Hout]|_]; [exfalso; tauto|].
    destruct (decide (hasEntry h = true /\ h ∉ map hash committed))
      as [[Hentry _]|Hno].
    + rewrite <- Hparent, Hentry in *. rewrite !len_cons. lia.
    + assert (hasEntry (hash parent) = false) as Hp.
      { destruct (hasEntry (hash parent)) eqn:Hp; [|done].
        exfalso. apply Hno. rewrite Hparent. done. }
      rewrite Hp in *. lia.
  - destruct (decide (hasEntry h = true /\ h ∉ map hash (committed ++ [parent])))
      as [[Hentry Hout]|Hno];
      destruct (decide (hasEntry h = true /\ h ∉ map hash committed))
        as [[Hentry' Hout']|Hno'].
    + rewrite !len_cons. destruct (hasEntry (hash parent)); lia.
    + exfalso. apply Hno'. split; [done|]. tauto.
    + exfalso. apply Hno. split; [done|]. tauto.
    + destruct (hasEntry (hash parent)); lia.
Qed.

Lemma spendCount_nonneg hasEntry item hash : 0 <= spendCount hasEntry item hash.
Proof. unfold spendCount. destruct (hasEntry hash); [apply len_nonneg|done]. Qed.

(** An item that waits for no parent has every mempool transaction it
    spends among the committed ones. *)
Lemma pending_zero hasEntry committed item input :
  pending hasEntry committed item = 0 ->
  input ∈ TX.inputs (tx item) ->
  hasEntry (Outpoint.hash (Input.prevout input)) = true ->
  Outpoint.hash (Input.prevout input) ∈ map hash committed.
Proof.
  unfold pending. intros Hzero Hin Hentry.
  destruct (decide (Outpoint.hash (Input.prevout input) ∈ map hash committed))
    as [|Hout]; [done|].
  assert (input ∈ filter (fun input =>
                 hasEntry (Outpoint.hash (Input.prevout input)) = true
                 /\ Outpoint.hash (Input.prevout input) ∉ map hash committed)
              (TX.inputs (tx item))) as Hfiltered.
  { apply list_elem_of_filter. done. }
  destruct (filter _ _) as [|first others];
    [by apply elem_of_nil in Hfiltered|].
  rewrite len_cons in Hzero. pose proof (len_nonneg others). lia.
Qed.

Lemma pending_nil hasEntry item :
  pending hasEntry [] item = parentCount hasEntry item.
Proof.
  unfold pending, parentCount.
  induction (TX.inputs (tx item)) as [|input rest IH]; [done|].
  rewrite !filter_cons.
  destruct (decide (hasEntry (Outpoint.hash (Input.prevout input)) = true))
    as [Hentry|Hnone].
  - destruct (decide (hasEntry (Outpoint.hash (Input.prevout input)) = true
                      /\ Outpoint.hash (Input.prevout input) ∉ map hash []))
      as [_|Hno].
    + rewrite !len_cons. lia.
    + exfalso. apply Hno. split; [done|]. cbn. apply not_elem_of_nil.
  - destruct (decide (hasEntry (Outpoint.hash (Input.prevout input)) = true
                      /\ Outpoint.hash (Input.prevout input) ∉ map hash []))
      as [[Hentry _]|_]; [done|]. exact IH.
Qed.

(** The dependents a commit frees are distinct objects that waited for
    exactly the parents the commit settles. *)
Lemma release_distinct deps counts heap :
  exists freed,
    snd (release deps counts heap) = heap ++ freed
    /\ NoDup (map id freed)
    /\ (forall item, item ∈ freed ->
          item ∈ deps
          /\ 1 <= getDepCount counts item <= occurrences (id item) deps).
Proof.
  revert counts heap. induction deps as [|dep rest IH]; intros counts heap.
  - exists []. cbn. rewrite app_nil_r. split; [done|]. split; [constructor|].
    intros item Hin. by apply elem_of_nil in Hin.
  - cbn [release].
    set (counts1 := <[id dep := getDepCount counts dep - 1]> counts).
    assert (forall item, getDepCount counts1 item
              = if decide (id dep = id item) then getDepCount counts dep - 1
                else getDepCount counts item) as Hcounts1.
    { intros item. apply getDepCount_insert. }
    assert (forall item, id dep = id item ->
              getDepCount counts item = getDepCount counts dep) as Hsame.
    { intros item Heq. unfold getDepCount. by rewrite Heq. }
    destruct (Z.eqb_spec (getDepCount counts dep - 1) 0) as [Hzero|Hmore].
    + destruct (IH counts1 (insert dep heap)) as (freed & Hheap & Hnd & Hsound).
      exists (dep :: freed). split.
      { rewrite Hheap. unfold insert. by rewrite <- app_assoc. }
      split.
      * cbn [map]. apply NoDup_cons. split; [|done].
        intros Hin. apply list_elem_of_fmap in Hin as (other & Hid & Hin).
        destruct (Hsound other Hin) as [_ Hbounds]. rewrite Hcounts1 in Hbounds.
        destruct (decide (id dep = id other)); [lia|done].
      * intros item Hin. rewrite occurrences_cons.
        apply elem_of_cons in Hin as [->|Hin].
        -- split; [by left|]. destruct (decide (id dep = id dep)); [|done].
           pose proof (occurrences_nonneg (id dep) rest). lia.
        -- destruct (Hsound item Hin) as [Hdep Hbounds]. split; [by right|].
           rewrite Hcounts1 in Hbounds.
           destruct (decide (id dep = id item)); lia.
    + destruct (IH counts1 heap) as (freed & Hheap & Hnd & Hsound).
      exists freed. split; [done|]. split; [done|].
      intros item Hin. rewrite occurrences_cons.
      destruct (Hsound item Hin) as [Hdep Hbounds]. split; [by right|].
      rewrite Hcounts1 in Hbounds.
      destruct (decide (id dep = id item)) as [Heq|Hne]; [|lia].
      rewrite (Hsame item Heq). lia.
Qed.

Lemma commit_released depMap st heap item :
  queue (commit depMap st heap item)
  = snd (release (default [] (depMap !! hash item)) (depCount st) heap)
  /\ depCount (commit depMap st heap item)
     = fst (release (default [] (depMap !! hash item)) (depCount st) heap)
  /\ items (commit depMap st heap item) = items st ++ [item].
Proof. unfold commit. cbn. by destruct (depMap !! hash item). Qed.

(** Seeding lists only the entries it is given. *)
Lemma countParents_members hasEntry item ins counts depMap hash dep :
  dep ∈ default [] (snd (countParents hasEntry item ins counts depMap) !! hash) ->
  dep ∈ default [] (depMap !! hash) \/ dep = item.
Proof.
  revert counts depMap. induction ins as [|input rest IH]; intros counts depMap.
  - cbn. by left.
  - cbn [countParents].
    destruct (hasEntry (Outpoint.hash (Input.prevout input))); cbn [negb];
      [|apply IH].
    intros Hin. apply IH in Hin as [Hin| ->]; [|by right].
    rewrite lookup_insert in Hin.
    destruct (decide (Outpoint.hash (Input.prevout input) = hash)) as [<-|Hne];
      [|by left].
    cbn [from_option Datatypes.id] in Hin.
    apply elem_of_app in Hin as [Hin|Hin]; [by left|].
    apply list_elem_of_singleton in Hin. by right.
Qed.

Lemma seed_members hasEntry entries :
  forall counts depMap heap counts' depMap' heap' hash dep,
    seed hasEntry entries counts depMap heap = JS.Ok (counts', depMap', heap') ->
    dep ∈ default [] (depMap' !! hash) ->
    dep ∈ default [] (depMap !! hash) \/ dep ∈ entries.
Proof.
  induction entries as [|item rest IH];
    intros counts depMap heap counts' depMap' heap' hash dep.
  { cbn. intros [= <- <- <-]. by left. }
  cbn [seed]. destruct (TX.isCoinbase (tx item)); [done|].
  set (counted := countParents hasEntry item (TX.inputs (tx item)) counts depMap).
  intros Hseed Hin.
  assert (dep ∈ default [] (snd counted !! hash) \/ dep ∈ rest) as [Hdep|Hrest].
  { destruct (0 <? getDepCount (fst counted) item);
      exact (IH _ _ _ _ _ _ _ _ Hseed Hin). }
  - apply countParents_members in Hdep as [Hdep| ->]; [by left|].
    right. by left.
  - right. by right.
Qed.

Lemma seed_listed hasEntry entries counts depMap heap :
  NoDup (map id entries) ->
  seed hasEntry entries ∅ ∅ [] = JS.Ok (counts, depMap, heap) ->
  listed hasEntry entries depMap.
Proof.
  intros Hnodup Hseed.
  destruct (seed_counts hasEntry entries _ _ _ _ _ _ Hseed Hnodup)
    as (_ & Hd & _ & _); [done|done|].
  split; [done|]. intros hash dep Hin.
  destruct (seed_members hasEntry entries _ _ _ _ _ _ hash dep Hseed Hin)
    as [Hempty|Hmember]; [|done].
  rewrite lookup_empty in Hempty. by apply elem_of_nil in Hempty.
Qed.

Lemma app_cons_snoc {A} (pre post l : list A) (x y : A) :
  pre ++ x :: post = l ++ [y] ->
  (post = [] /\ pre = l /\ x = y)
  \/ exists post', post = post' ++ [y] /\ l = pre ++ x :: post'.
Proof.
  induction post as [|z post _] using rev_ind.
  - intros [-> ->]%app_inj_tail. by left.
  - rewrite app_comm_cons, app_assoc. intros [<- ->]%app_inj_tail.
    right. by exists post.
Qed.

Lemma parentsFirst_snoc hasEntry its item :
  parentsFirst hasEntry its ->
  pending hasEntry its item = 0 ->
  parentsFirst hasEntry (its ++ [item]).
Proof.
  intros Horder Hzero pre x post Heq input Hin Hentry. symmetry in Heq.
  apply app_cons_snoc in Heq as [(-> & -> & ->)|(post' & -> & ->)].
  - by apply (pending_zero hasEntry its item input).
  - by apply (Horder pre x post' eq_refl input).
Qed.

Lemma settled_skip hasEntry entries st item heap :
  settled hasEntry entries st -> queue st ≡ₚ item :: heap ->
  settled hasEntry entries (skip st heap).
Proof.
  intros (Hmem & Hnd & Hcount & Hfree & Horder) Hperm.
  assert (queue st ++ items st ≡ₚ item :: (heap ++ items st)) as Hall.
  { by rewrite Hperm. }
  unfold settled, skip. cbn [queue items depCount].
  split; [|split; [|split; [done|split; [|done]]]].
  - intros x Hx. apply Hmem. rewrite Hall. by right.
  - apply (Permutation_map id) in Hall. rewrite Hall in Hnd. cbn [map] in Hnd.
    by apply NoDup_cons in Hnd as [_ Hnd].
  - intros x Hx. apply Hfree. rewrite Hall. by right.
Qed.

Lemma settled_reseed hasEntry entries st item heap :
  settled hasEntry entries st -> queue st ≡ₚ item :: heap ->
  settled hasEntry entries (reseed st heap item).
Proof.
  intros (Hmem & Hnd & Hcount & Hfree & Horder) Hperm.
  assert (insert item heap ++ items st ≡ₚ queue st ++ items st) as Hall.
  { unfold insert. rewrite Hperm. rewrite (Permutation_app_comm heap [item]).
    done. }
  unfold settled, reseed. cbn [queue items depCount].
  split; [|split; [|split; [done|split; [|done]]]].
  - intros x Hx. apply Hmem. by rewrite <- Hall.
  - apply (Permutation_map id) in Hall. by rewrite Hall.
  - intros x Hx. apply Hfree. by rewrite <- Hall.
Qed.

Lemma settled_commit hasEntry entries depMap st item heap :
  NoDup (map id entries) -> NoDup (map hash entries) ->
  listed hasEntry entries depMap ->
  settled hasEntry entries st -> queue st ≡ₚ item :: heap ->
  settled hasEntry entries (commit depMap st heap item).
Proof.
  intros Hids Hhashes [Hocc Hdeps] (Hmem & Hnd & Hcount & Hfree & Horder) Hperm.
  assert (queue st ++ items st ≡ₚ item :: (heap ++ items st)) as Hall.
  { by rewrite Hperm. }
  destruct (commit_released depMap st heap item) as (Hqueue & Hcounts & Hitems).
  destruct (release_distinct (default [] (depMap !! hash item)) (depCount st) heap)
    as (freed & Hheap & Hfnd & Hbounds).
  assert (item ∈ queue st) as Hpopped.
  { rewrite Hperm. by left. }
  assert (hash item ∉ map hash (items st)) as Hfresh.
  { intros Hin. apply list_elem_of_fmap in Hin as (y & Hhash & Hy).
    assert (y = item) as ->.
    { apply (NoDup_map_eq hash entries); [done| | |done].
      - apply Hmem, elem_of_app. by right.
      - apply Hmem, elem_of_app. by left. }
    rewrite map_app in Hnd. apply NoDup_app in Hnd as (_ & Hdisjoint & _).
    apply (Hdisjoint (id item)); apply list_elem_of_fmap; by exists item. }
  assert (forall x, x ∈ entries ->
            getDepCount (depCount (commit depMap st heap item)) x
            = pending hasEntry (items st ++ [item]) x) as Hcount'.
  { intros x Hx.
    rewrite Hcounts, release_counts, (pending_commit _ _ _ _ Hfresh).
    rewrite Hcount, Hocc by done. done. }
  assert (forall x, pending hasEntry (items st) x = 0 ->
            pending hasEntry (items st ++ [item]) x = 0) as Hkeep.
  { intros x Hzero.
    pose proof (pending_nonneg hasEntry (items st ++ [item]) x) as Hnonneg.
    rewrite (pending_commit _ _ _ _ Hfresh) in *.
    pose proof (spendCount_nonneg hasEntry x (hash item)). lia. }
  assert (forall x, x ∈ freed -> x ∈ entries) as Hfreed.
  { intros x Hx. apply (Hdeps (hash item)). by apply Hbounds. }
  assert (forall x, x ∈ freed ->
            pending hasEntry (items st ++ [item]) x = 0) as Hfreed_zero.
  { intros x Hx. destruct (Hbounds x Hx) as (_ & Hlow & Hhigh).
    pose proof (pending_nonneg hasEntry (items st ++ [item]) x) as Hnonneg.
    rewrite <- Hcount' in * by auto. rewrite Hcounts, release_counts in *. lia. }
  unfold settled. rewrite Hqueue, Hitems, Hheap.
  split; [|split; [|split; [|split]]].
  - intros x Hx. rewrite !elem_of_app, list_elem_of_singleton in Hx.
    destruct Hx as [[Hx|Hx]|[Hx| ->]].
    + apply Hmem. rewrite Hall. right. apply elem_of_app. by left.
    + by apply Hfreed.
    + apply Hmem, elem_of_app. by right.
    + apply Hmem, elem_of_app. by left.
  - assert ((heap ++ freed) ++ items st ++ [item]
            ≡ₚ freed ++ (queue st ++ items st)) as Hp.
    { rewrite Hall, (Permutation_app_comm heap freed), <- app_assoc.
      apply Permutation_app_head.
      rewrite (Permutation_app_comm (items st) [item]).
      symmetry. apply Permutation_middle. }
    apply (Permutation_map id) in Hp. rewrite Hp, map_app.
    apply NoDup_app. split; [done|]. split; [|done].
    intros i Hi1 Hi2.
    apply list_elem_of_fmap in Hi1 as (x & -> & Hx).
    apply list_elem_of_fmap in Hi2 as (y & Hid & Hy).
    assert (x = y) as <-.
    { apply (NoDup_map_eq id entries); auto. }
    destruct (Hbounds x Hx) as (_ & Hlow & _).
    rewrite Hcount, (Hfree x Hy) in Hlow by auto. lia.
  - done.
  - intros x Hx. rewrite !elem_of_app, list_elem_of_singleton in Hx.
    destruct Hx as [[Hx|Hx]|[Hx| ->]].
    + apply Hkeep, Hfree. rewrite Hall. right. apply elem_of_app. by left.
    + by apply Hfreed_zero.
    + apply Hkeep, Hfree, elem_of_app. by right.
    + apply Hkeep, Hfree, elem_of_app. by left.
  - apply parentsFirst_snoc; [done|]. apply Hfree, elem_of_app. by left.
Qed.

Lemma step_settled hasEntry entries options height locktime depMap st st' :
  NoDup (map id entries) -> NoDup (map hash entries) ->
  listed hasEntry entries depMap ->
  settled hasEntry entries st ->
  step options height locktime depMap st = Some st' ->
  settled hasEntry entries st'.
Proof.
  intros Hids Hhashes Hlisted Hsettled. unfold step.
  destruct (shift (comparator (priorityPhase st)) (queue st))
    as [[item heap]|] eqn:Hshift; [|done].
  apply shift_perm in Hshift.
  2:{ destruct Hsettled as (_ & Hnd & _). rewrite map_app in Hnd.
      by apply NoDup_app in Hnd as (Hnd & _). }
  cbv zeta.
  pose proof (settled_skip hasEntry entries st item heap Hsettled Hshift) as Hskip.
  pose proof (settled_reseed hasEntry entries st item heap Hsettled Hshift)
    as Hreseed.
  pose proof (settled_commit hasEntry entries depMap st item heap Hids Hhashes
                Hlisted Hsettled Hshift) as Hcommit.
  destruct (negb (TX.isFinal (tx item) height locktime)); [by intros [= <-]|].
  destruct (maxSize options <? _); [by intros [= <-]|].
  destruct (maxSigops options <? _); [by intros [= <-]|].
  destruct (priorityPhase st).
  - destruct ((prioritySize options <? _) || _); by intros [= <-].
  - destruct (free item && _); by intros [= <-].
Qed.

Lemma drain_settled hasEntry entries options height locktime depMap fuel st :
  NoDup (map id entries) -> NoDup (map hash entries) ->
  listed hasEntry entries depMap ->
  settled hasEntry entries st ->
  settled hasEntry entries (drain options height locktime depMap fuel st).
Proof.
  intros Hids Hhashes Hlisted. revert st.
  induction fuel as [|fuel IH]; intros st Hsettled; [done|].
  cbn [drain].
  destruct (step options height locktime depMap st) as [st'|] eqn:Hstep; [|done].
  apply IH. by apply (step_settled hasEntry entries options height locktime
                        depMap st st').
Qed.

Lemma seed_settled hasEntry entries counts depMap heap st :
  NoDup (map id entries) ->
  seed hasEntry entries ∅ ∅ [] = JS.Ok (counts, depMap, heap) ->
  items st = [] -> queue st = heap -> depCount st = counts ->
  settled hasEntry entries st.
Proof.
  intros Hnodup Hseed Hitems Hqueue Hcounts.
  destruct (seed_counts hasEntry entries _ _ _ _ _ _ Hseed Hnodup)
    as (Hc & _ & _ & Hheap); [done|done|].
  cbn [app] in Hheap. unfold settled.
  rewrite Hitems, Hqueue, Hcounts, app_nil_r, Hheap.
  split; [|split; [|split; [|split]]].
  - intros item Hin. by apply list_elem_of_filter in Hin as [_ Hin].
  - apply (sublist_NoDup _ (map id entries)); [done|].
    apply fmap_sublist, sublist_filter.
  - intros item Hin. rewrite pending_nil. by apply Hc.
  - intros item Hin. rewrite pending_nil.
    by apply list_elem_of_filter in Hin as [Hzero _].
  - intros pre item post Heq. by destruct pre.
Qed.

(** X30: the template is in dependency order.  Over mempool entries
    that are distinct objects with distinct hashes, seeded from an empty
    map and heap, the loop leaves, after any number of turns and
    whatever the options, a template of distinct mempool entries in
    which every item comes after the entries of all the mempool
    transactions its inputs spend. *)
Theorem assemble_parents_first
    (hasEntry : bytes -> bool) (entries : list BlockEntry)
    (options : MinerOptions) (height locktime : Z)
    (counts : gmap nat Z) (depMap : gmap bytes (list BlockEntry))
    (heap : list BlockEntry) (st : State) (fuel : nat) :
  NoDup (map id entries) -> NoDup (map hash entries) ->
  seed hasEntry entries ∅ ∅ [] = JS.Ok (counts, depMap, heap) ->
  items st = [] -> queue st = heap -> depCount st = counts ->
  (forall item,
     item ∈ items (drain options height locktime depMap fuel st) ->
     item ∈ entries)
  /\ NoDup (map id (items (drain options height locktime depMap fuel st)))
  /\ parentsFirst hasEntry (items (drain options height locktime depMap fuel st)).
Proof.
  intros Hids Hhashes Hseed Hitems Hqueue Hcounts.
  pose proof (seed_listed hasEntry entries counts depMap heap Hids Hseed)
    as Hlisted.
  pose proof (seed_settled hasEntry entries counts depMap heap st Hids Hseed
                Hitems Hqueue Hcounts) as Hstart.
  destruct (drain_settled hasEntry entries options height locktime depMap fuel st
              Hids Hhashes Hlisted Hstart) as (Hmem & Hnd & _ & _ & Horder).
  split; [|split; [|done]].
  - intros item Hin. apply Hmem, elem_of_app. by right.
  - rewrite map_app in Hnd. by apply NoDup_app in Hnd as (_ & _ & Hnd).
Qed.

Lemma assemble_parents_first_witness :
  items (drain Examples.roomyOptions 0 0 {[Examples.hashOf 8 := [Examples.childEntry]]}
           4 (Examples.seededState {[2%nat := 1]} [Examples.paidEntry]))
  = [Examples.paidEntry; Examples.childEntry]
  /\ parentsFirst Examples.mempoolHas
       (items (drain Examples.roomyOptions 0 0
                 {[Examples.hashOf 8 := [Examples.childEntry]]}
                 4 (Examples.seededState {[2%nat := 1]} [Examples.paidEntry]))).
Proof.
  split; [reflexivity|].
  refine (proj2 (proj2 (assemble_parents_first Examples.mempoolHas
                          [Examples.childEntry; Examples.paidEntry]
                          Examples.roomyOptions 0 0 _ _ [Examples.paidEntry]
                          (Examples.seededState {[2%nat := 1]}
                             [Examples.paidEntry]) 4
                          _ _ eq_refl eq_refl eq_refl eq_refl))).
  - apply NoDup_cons. split; [|apply NoDup_singleton].
    cbn. intros Hin%list_elem_of_singleton. discriminate Hin.
  - apply NoDup_cons. split; [|apply NoDup_singleton].
    cbn. intros Hin%list_elem_of_singleton. discriminate Hin.
Defined.

End AssemblyOrder.
